(** * fno_dashboard: option-chain pricing, snapshot cache, broadcaster, poller

    A shallow embedding of the market-data core of the dashboard API
    (apps/api/src) and the properties its specification states about it.

    Conventions used throughout.
    - JavaScript [Map<string, V>] objects are [gmap string V]; [Set<T>] objects
      are [gset T]; arrays are lists.
    - Object identity (a [WebSocket], a [NodeJS.Timeout]) is a natural number
      handed out by a counter kept in the state.
    - [Date.now()] is an explicit argument [now] (milliseconds).
    - Quantities such as volume, open interest and premium are exact rationals
      ([Q]); [===] on numbers is [Qeq_bool].  The Black-Scholes code, which
      uses [Math.log], [Math.exp] and [Math.sqrt], is embedded over the real
      numbers. *)

From Stdlib Require Import Reals Lra.
From Stdlib Require Import Ascii String QArith Qround Qabs Qminmax Lqa.
From stdpp Require Import gmap strings list.

Local Open Scope string_scope.
Local Open Scope list_scope.

(* ===================================================================== *)
(** * The snapshot caches *)
(* ===================================================================== *)

(** [interface CacheEntry { timestamp: number; data: any }].  Both caches
    store [JSON.parse(JSON.stringify(data))], a deep copy; model values are
    immutable, so the copy is the value itself. *)
Record CacheEntry (A : Type) := mkEntry { timestamp : Z; data : A }.
Arguments mkEntry {A} _ _.
Arguments timestamp {A} _.
Arguments data {A} _.

(** ** cache/optionChainCache.ts: the in-process cache *)
Module OptionChainCache.

Definition MAX_ENTRIES : nat := 3.

(** [`${symbol}_${expiry}`] *)
Definition getCacheKey (symbol expiry : string) : string :=
  symbol +:+ "_" +:+ expiry.

(** [Array.prototype.shift]: drop the first element (nothing on []). *)
Definition shift {A} (entries : list A) : list A := tail entries.

Definition store {A} (symbol expiry : string) (d : A) (now : Z)
    (cache : gmap string (list (CacheEntry A))) : gmap string (list (CacheEntry A)) :=
  let key := getCacheKey symbol expiry in
  let entries := default [] (cache !! key) in
  let entries := entries ++ [mkEntry now d] in
  let entries :=
    if (MAX_ENTRIES <? length entries)%nat then shift entries else entries in
  <[key := entries]> cache.

Definition getPrevious {A} (symbol expiry : string)
    (cache : gmap string (list (CacheEntry A))) : option A :=
  let key := getCacheKey symbol expiry in
  let entries := default [] (cache !! key) in
  if (2 <=? length entries)%nat
  then data <$> entries !! (length entries - 2)%nat
  else None.

Definition getLatest {A} (symbol expiry : string)
    (cache : gmap string (list (CacheEntry A))) : option A :=
  let key := getCacheKey symbol expiry in
  let entries := default [] (cache !! key) in
  if (0 <? length entries)%nat
  then data <$> entries !! (length entries - 1)%nat
  else None.

Definition getAll {A} (symbol expiry : string)
    (cache : gmap string (list (CacheEntry A))) : list (CacheEntry A) :=
  default [] (cache !! getCacheKey symbol expiry).

Definition clear {A} (symbol expiry : string)
    (cache : gmap string (list (CacheEntry A))) : gmap string (list (CacheEntry A)) :=
  delete (getCacheKey symbol expiry) cache.

Definition clearAll {A} (_ : gmap string (list (CacheEntry A)))
    : gmap string (list (CacheEntry A)) := ∅.

(** The calls that change the cache, for talking about every reachable
    state. *)
Inductive op (A : Type) :=
| Store (symbol expiry : string) (d : A) (now : Z)
| Clear (symbol expiry : string)
| ClearAll.
Arguments Store {A} _ _ _ _.
Arguments Clear {A} _ _.
Arguments ClearAll {A}.

Definition step {A} (cache : gmap string (list (CacheEntry A))) (o : op A)
    : gmap string (list (CacheEntry A)) :=
  match o with
  | Store s e d now => store s e d now cache
  | Clear s e => clear s e cache
  | ClearAll => clearAll cache
  end.

Definition run {A} (ops : list (op A)) : gmap string (list (CacheEntry A)) :=
  foldl step ∅ ops.

(** What [store] leaves under the key: the old entries and the new one,
    without the oldest when that makes four. *)
Definition pushed {A} (l : list (CacheEntry A)) (d : A) (now : Z)
    : list (CacheEntry A) :=
  let l' := l ++ [mkEntry now d] in
  if (MAX_ENTRIES <? length l')%nat then shift l' else l'.

(** Every key of a cache holds at most three snapshots. *)
Definition bounded {A} (cache : gmap string (list (CacheEntry A))) : Prop :=
  ∀ k l, cache !! k = Some l → (length l ≤ 3)%nat.

End OptionChainCache.

(** ** services/redisCache.ts: the Redis-backed cache used by the poller *)
Module RedisCache.

Definition MAX_ENTRIES : nat := 3.
Definition TTL_SECONDS : Z := 86400.

(** ioredis' [client.status]; only ['ready'] is ever tested. *)
Inductive Status := Wait | Connecting | Ready | Closed | Reconnecting | Ended.

Definition is_ready (s : Status) : bool :=
  match s with Ready => true | _ => false end.

(** The client together with the server's keyspace.  A key written by
    [setex] carries the instant at which it lapses; the stored string is
    [JSON.stringify(entries)], read back by [JSON.parse], kept here as the
    entry list itself. *)
Record Redis (A : Type) := mkRedis {
  status : Status;
  db : gmap string (Z * list (CacheEntry A))
}.
Arguments mkRedis {A} _ _.
Arguments status {A} _.
Arguments db {A} _.

(** [`option_chain:${symbol}_${expiry}`] *)
Definition getCacheKey (symbol expiry : string) : string :=
  "option_chain:" +:+ symbol +:+ "_" +:+ expiry.

(** [client.get(key)]: the value unless the key is absent or has lapsed. *)
Definition get {A} (key : string) (now : Z) (r : Redis A)
    : option (list (CacheEntry A)) :=
  match db r !! key with
  | Some (expires, entries) => if (now <? expires)%Z then Some entries else None
  | None => None
  end.

(** [client.setex(key, seconds, value)] *)
Definition setex {A} (key : string) (seconds : Z) (entries : list (CacheEntry A))
    (now : Z) (r : Redis A) : Redis A :=
  mkRedis (status r) (<[key := ((now + seconds * 1000)%Z, entries)]> (db r)).

(** [entries.slice(-n)]: the last [n] elements. *)
Definition slice_last {A} (n : nat) (entries : list A) : list A :=
  drop (length entries - n) entries.

Definition store {A} (symbol expiry : string) (d : A) (now : Z) (r : Redis A)
    : Redis A :=
  if negb (is_ready (status r)) then r
  else
    let key := getCacheKey symbol expiry in
    let entries := default [] (get key now r) in
    let entries := entries ++ [mkEntry now d] in
    let entries :=
      if (MAX_ENTRIES <? length entries)%nat
      then slice_last MAX_ENTRIES entries else entries in
    setex key TTL_SECONDS entries now r.

Definition getPrevious {A} (symbol expiry : string) (now : Z) (r : Redis A)
    : option A :=
  if negb (is_ready (status r)) then None
  else
    match get (getCacheKey symbol expiry) now r with
    | None => None
    | Some entries =>
        if (2 <=? length entries)%nat
        then data <$> entries !! (length entries - 2)%nat
        else None
    end.

Definition getLatest {A} (symbol expiry : string) (now : Z) (r : Redis A)
    : option A :=
  if negb (is_ready (status r)) then None
  else
    match get (getCacheKey symbol expiry) now r with
    | None => None
    | Some entries =>
        if (0 <? length entries)%nat
        then data <$> entries !! (length entries - 1)%nat
        else None
    end.

Definition getAll {A} (symbol expiry : string) (now : Z) (r : Redis A)
    : list (CacheEntry A) :=
  default [] (get (getCacheKey symbol expiry) now r).

Definition clear {A} (symbol expiry : string) (r : Redis A) : Redis A :=
  mkRedis (status r) (delete (getCacheKey symbol expiry) (db r)).

(** Calls and connection events. *)
Inductive op (A : Type) :=
| Store (symbol expiry : string) (d : A) (now : Z)
| Clear (symbol expiry : string)
| SetStatus (s : Status).
Arguments Store {A} _ _ _ _.
Arguments Clear {A} _ _.
Arguments SetStatus {A} _.

Definition step {A} (r : Redis A) (o : op A) : Redis A :=
  match o with
  | Store s e d now => store s e d now r
  | Clear s e => clear s e r
  | SetStatus st => mkRedis st (db r)
  end.

(** A lazily connecting client on an empty keyspace. *)
Definition init {A} : Redis A := mkRedis Wait ∅.

Definition run {A} (ops : list (op A)) : Redis A := foldl step init ops.

(** The entries [store] writes back. *)
Definition pushed {A} (l : list (CacheEntry A)) (d : A) (now : Z)
    : list (CacheEntry A) :=
  let l' := l ++ [mkEntry now d] in
  if (MAX_ENTRIES <? length l')%nat then slice_last MAX_ENTRIES l' else l'.

(** Every key of the keyspace holds at most three snapshots. *)
Definition bounded {A} (r : Redis A) : Prop :=
  ∀ k expires l, db r !! k = Some (expires, l) → (length l ≤ 3)%nat.

(** The TTL in the unit of [Date.now()]. *)
Definition TTL_MS : Z := TTL_SECONDS * 1000.

End RedisCache.

(* ===================================================================== *)
(** * Numbers *)
(* ===================================================================== *)

Module Num.
Local Open Scope Q_scope.

Definition Qltb (x y : Q) : bool := negb (Qle_bool y x).

(** [parseFloat(x.toFixed(f))].  [toFixed] works on the magnitude, takes
    the integer [n] with [n / 10^f] nearest to it, the larger one on a tie,
    and puts the sign back. *)
Definition toFixed (f : nat) (x : Q) : Q :=
  let scale := inject_Z (10 ^ Z.of_nat f) in
  let n := Qfloor (Qabs x * scale + (1 # 2)) in
  if Qltb x 0 then - (inject_Z n / scale) else inject_Z n / scale.

(** A division that records a zero divisor instead of producing
    [Infinity] or [NaN]; [None] is the fault. *)
Definition checked_div (a b : Q) : option Q :=
  if Qeq_bool b 0 then None else Some (a / b).

(** Sequencing of computations that may hit that fault. *)
Definition bind {A B} (m : option A) (k : A → option B) : option B :=
  match m with
  | Some a => k a
  | None => None
  end.

(** [x || y] where [x] may be [undefined]: [undefined] and [0] are falsy. *)
Definition js_or (x : option Q) (y : Q) : Q :=
  match x with
  | Some v => if Qeq_bool v 0 then y else v
  | None => y
  end.

End Num.

Notation "'let*' x ':=' m 'in' k" := (Num.bind m (fun x => k))
  (at level 10, x name, m at level 100, k at level 200).

(* ===================================================================== *)
(** * utils/optionsPricing.ts: time value *)
(* ===================================================================== *)

Module OptionsPricing.
Import Num.
Local Open Scope Q_scope.

Inductive OptionType := CE | PE.

Definition calculateTimeValue (optionPremium spotPrice strikePrice : Q)
    (optionType : OptionType) : Q :=
  let intrinsicValue :=
    match optionType with
    | CE => Qmax 0 (spotPrice - strikePrice)
    | PE => Qmax 0 (strikePrice - spotPrice)
    end in
  let timeValue := Qmax 0 (optionPremium - intrinsicValue) in
  toFixed 2 timeValue.

(** The specification's formula for the same quantity:
    [max(0, premium - intrinsic)], intrinsic being [max(0, S - K)] for a
    call and [max(0, K - S)] for a put. *)
Definition spec_timeValue (premium S K : Q) (kind : OptionType) : Q :=
  match kind with
  | CE => Qmax 0 (premium - Qmax 0 (S - K))
  | PE => Qmax 0 (premium - Qmax 0 (K - S))
  end.

End OptionsPricing.

(* ===================================================================== *)
(** * utils/optionsPricing.ts: Black-Scholes price and implied volatility *)
(* ===================================================================== *)

(** The numbers of this part are real numbers: [Math.log], [Math.exp] and
    [Math.sqrt] are [ln], [exp] and [sqrt], and the arithmetic is exact. *)
Module BlackScholes.
Local Open Scope R_scope.

Inductive OptionKind := call | put.

Definition normalCDF (x : R) : R :=
  let t := 1 / (1 + 0.2316419 * Rabs x) in
  let d := 0.3989423 * exp (- x * x / 2) in
  let probability :=
    d * t *
    (0.3193815 +
     t * (-0.3565638 + t * (1.781478 + t * (-1.821256 + t * 1.330274)))) in
  if Rlt_dec 0 x then 1 - probability else probability.

(** The expression for [d1], written out in [blackScholes] and again in
    [calculateImpliedVolatility]. *)
Definition d1_of (spotPrice strikePrice timeToExpiry volatility riskFreeRate : R) : R :=
  (ln (spotPrice / strikePrice) +
   (riskFreeRate + (volatility * volatility) / 2) * timeToExpiry) /
  (volatility * sqrt timeToExpiry).

Definition blackScholes (spotPrice strikePrice timeToExpiry volatility riskFreeRate : R)
    (optionType : OptionKind) : R :=
  let d1 := d1_of spotPrice strikePrice timeToExpiry volatility riskFreeRate in
  let d2 := d1 - volatility * sqrt timeToExpiry in
  match optionType with
  | call =>
      spotPrice * normalCDF d1 -
      strikePrice * exp (- riskFreeRate * timeToExpiry) * normalCDF d2
  | put =>
      strikePrice * exp (- riskFreeRate * timeToExpiry) * normalCDF (- d2) -
      spotPrice * normalCDF (- d1)
  end.

(** [parseFloat(x.toFixed(2))]: the nearest whole number of hundredths,
    the larger in magnitude on a tie. *)
Definition toFixed2 (x : R) : R :=
  if Rlt_dec x 0
  then - (IZR (Zfloor (- x * 100 + 1 / 2)) / 100)
  else IZR (Zfloor (x * 100 + 1 / 2)) / 100.

Definition maxIterations : nat := 100.
Definition tolerance : R := 0.0001.

(** How the loop was left: by the tolerance test (the [return] inside
    it), by the [break] on a small vega, or by running out of iterations. *)
Inductive Exit := Converged | FlatVega | Exhausted.

(** The [for] loop with [fuel] iterations to go; it yields the way out and
    the value of [volatility] at that point. *)
Fixpoint iterate (fuel : nat)
    (marketPrice spotPrice strikePrice timeToExpiry riskFreeRate : R)
    (optionType : OptionKind) (volatility : R) : Exit * R :=
  match fuel with
  | O => (Exhausted, volatility)
  | S fuel' =>
      let price :=
        blackScholes spotPrice strikePrice timeToExpiry volatility riskFreeRate
                     optionType in
      let diff := marketPrice - price in
      if Rlt_dec (Rabs diff) tolerance then (Converged, volatility)
      else
        let d1 := d1_of spotPrice strikePrice timeToExpiry volatility riskFreeRate in
        let vega := spotPrice * normalCDF d1 * sqrt timeToExpiry in
        if Rlt_dec vega 0.0001 then (FlatVega, volatility)
        else
          let volatility := volatility + diff / (vega * 100) in
          let volatility := Rmax 0.01 (Rmin volatility 5.0) in
          iterate fuel' marketPrice spotPrice strikePrice timeToExpiry riskFreeRate
                  optionType volatility
  end.

(** Every way out returns [parseFloat((volatility * 100).toFixed(2))]. *)
Definition calculateImpliedVolatility
    (marketPrice spotPrice strikePrice timeToExpiry riskFreeRate : R)
    (optionType : OptionKind) : R :=
  let '(_, volatility) :=
    iterate maxIterations marketPrice spotPrice strikePrice timeToExpiry
            riskFreeRate optionType 0.3 in
  toFixed2 (volatility * 100).

End BlackScholes.

(* ===================================================================== *)
(** * utils/optionChain.utils.ts: classification, colours, ATM, PCR *)
(* ===================================================================== *)

Module OptionChainUtils.
Import Num.
Local Open Scope Q_scope.

Record StrikeData := mkStrike {
  strikePrice : Q;
  ceOI : Q;
  ceOIChange : Q;
  ceVolume : Q;
  ceLTP : option Q;
  peOI : Q;
  peOIChange : Q;
  peVolume : Q;
  peLTP : option Q
}.

Inductive Classification := LB | SB | LU | SC.

Record BuiltUpResult := mkBuiltUp {
  classification : Classification;
  color : string
}.

Definition calculateBuiltUp (oiChange priceChange : Q) : BuiltUpResult :=
  if Qltb 0 oiChange && Qltb 0 priceChange then mkBuiltUp LB "#4caf50"
  else if Qltb 0 oiChange && Qltb priceChange 0 then mkBuiltUp SB "#f44336"
  else if Qltb oiChange 0 && Qltb priceChange 0 then mkBuiltUp LU "#ff9800"
  else if Qltb oiChange 0 && Qltb 0 priceChange then mkBuiltUp SC "#c8e6c9"
  else mkBuiltUp LB "#ffffff".

(** [strikes.forEach] of [findATMStrike]: a strictly smaller distance
    replaces the current choice. *)
Definition atm_step (spotPrice : Q) (acc : Q * Q) (strike : StrikeData) : Q * Q :=
  let '(minDiff, atmStrike) := acc in
  let diff := Qabs (strikePrice strike - spotPrice) in
  if Qltb diff minDiff then (diff, strikePrice strike) else (minDiff, atmStrike).

Definition findATMStrike (strikes : list StrikeData) (spotPrice : Q) : Q :=
  match strikes with
  | [] => 0
  | s0 :: _ =>
      snd (foldl (atm_step spotPrice)
                 (Qabs (strikePrice s0 - spotPrice), strikePrice s0) strikes)
  end.

(** [strikes.findIndex(s => s.strikePrice === atmStrike)]; [None] is -1. *)
Fixpoint findIndex (atmStrike : Q) (strikes : list StrikeData) : option nat :=
  match strikes with
  | [] => None
  | s :: rest =>
      if Qeq_bool (strikePrice s) atmStrike then Some O
      else S <$> findIndex atmStrike rest
  end.

(** [arr.slice(start, end)] for [0 <= start] and [end <= arr.length]. *)
Definition slice {A} (start stop : nat) (l : list A) : list A :=
  take (stop - start) (drop start l).

Definition filterStrikeRange (strikes : list StrikeData) (spotPrice : Q)
    : list StrikeData :=
  let atmStrike := findATMStrike strikes spotPrice in
  match findIndex atmStrike strikes with
  | None => slice 0 (Nat.min 31 (length strikes))%nat strikes
  | Some atmIndex =>
      let start := (atmIndex - 15)%nat in
      let stop := Nat.min (length strikes) (atmIndex + 16)%nat in
      slice start stop strikes
  end.

(** A running maximum that starts from 0, as both [findHighest...] do. *)
Definition highest_of (f : StrikeData → Q) (strikes : list StrikeData) : Q :=
  foldl (fun hi s => if Qltb hi (f s) then f s else hi) 0 strikes.

Definition findHighestVolumes (strikes : list StrikeData) : Q * Q :=
  (highest_of ceVolume strikes, highest_of peVolume strikes).

Definition findHighestOI (strikes : list StrikeData) : Q * Q :=
  (highest_of ceOI strikes, highest_of peOI strikes).

Definition calculateVolumeColor (volume previousVolume highestVolume : Q)
    (isCE : bool) : option string :=
  let isHighest := Qeq_bool volume highestVolume && Qltb 0 highestVolume in
  let threshold := 7 # 10 in
  let* isRising :=
    (if Qltb 0 previousVolume
     then let* change := checked_div (volume - previousVolume) previousVolume in
          Some (Qle_bool threshold change)
     else Some false) in
  Some (if isHighest then (if isCE then "#4caf50" else "#f44336")
        else if isRising then (if isCE then "#c8e6c9" else "#ffcdd2")
        else "transparent").

Record OIColor := mkOIColor { oi_color : string; shouldFade : bool }.

Definition calculateOIColor (oi previousOI highestOI : Q) (isCE : bool)
    : option OIColor :=
  let isHighest := Qeq_bool oi highestOI && Qltb 0 highestOI in
  let threshold := 6 # 10 in
  if Qeq_bool previousOI 0 then
    if isHighest
    then Some (mkOIColor (if isCE then "#4caf50" else "#f44336") false)
    else Some (mkOIColor "transparent" false)
  else
    let* changePercent := checked_div (oi - previousOI) previousOI in
    let isIncreasing := Qle_bool threshold changePercent in
    let isDecreasing := Qle_bool changePercent (- threshold) in
    Some (if isHighest
          then mkOIColor (if isCE then "#4caf50" else "#f44336") false
          else if isIncreasing
          then mkOIColor (if isCE then "#c8e6c9" else "#f8bbd0") false
          else if isDecreasing
          then mkOIColor "#ffeb3b" true
          else mkOIColor "transparent" false).

(** The colours by their role. *)
Definition strongColor (isCE : bool) : string :=
  if isCE then "#4caf50" else "#f44336".
Definition oiTint (isCE : bool) : string :=
  if isCE then "#c8e6c9" else "#f8bbd0".
Definition decayColor : string := "#ffeb3b".
Definition neutralColor : string := "transparent".

Definition calculatePCR (strikes : list StrikeData) : option Q :=
  let totalCEOI := foldl (fun acc s => acc + ceOI s) 0 strikes in
  let totalPEOI := foldl (fun acc s => acc + peOI s) 0 strikes in
  if Qeq_bool totalCEOI 0 then Some 0
  else let* ratio := checked_div totalPEOI totalCEOI in Some (toFixed 2 ratio).

End OptionChainUtils.

(* ===================================================================== *)
(** * services/marketDataPoller.ts: the synchronous body of one tick *)
(* ===================================================================== *)

(** What [fetchAndBroadcast] computes between the upstream fetch and the
    broadcast.  The implied-volatility and bid/ask fields of an enriched
    strike are not represented: they do not feed any other field. *)
Module Enrichment.
Import Num OptionsPricing OptionChainUtils.
Local Open Scope Q_scope.

(** The object kept in the cache: [{ strikes, timestamp }]. *)
Record ChainSnapshot := mkSnapshot {
  snap_strikes : list StrikeData;
  snap_timestamp : Z
}.

Record EnrichedStrike := mkEnriched {
  e_strikePrice : Q;
  isATM : bool;
  e_ceVolume : Q;
  ceVolumeColor : string;
  e_ceOI : Q;
  e_ceOIChange : Q;
  ceOIColor : string;
  ceShouldFadeOI : bool;
  e_ceLTP : Q;
  ceLTPChange : Q;
  ceTV : Q;
  ceBuiltUp : Classification;
  ceBuiltUpColor : string;
  e_peVolume : Q;
  peVolumeColor : string;
  e_peOI : Q;
  e_peOIChange : Q;
  peOIColor : string;
  peShouldFadeOI : bool;
  e_peLTP : Q;
  peLTPChange : Q;
  peTV : Q;
  peBuiltUp : Classification;
  peBuiltUpColor : string
}.

(** [previousData?.strikes?.find(s => s.strikePrice === strike.strikePrice)] *)
Definition findPrevious (previousData : option ChainSnapshot) (strike : StrikeData)
    : option StrikeData :=
  match previousData with
  | None => None
  | Some snap =>
      List.find (fun s => Qeq_bool (strikePrice s) (strikePrice strike))
                (snap_strikes snap)
  end.

Definition enrichStrike (spotPrice atmStrikePrice : Q)
    (highestCEVolume highestPEVolume highestCEOI highestPEOI : Q)
    (previousData : option ChainSnapshot) (strike : StrikeData)
    : option EnrichedStrike :=
  let previousStrike := findPrevious previousData strike in
  let ceLTP' := js_or (ceLTP strike) 0 in
  let peLTP' := js_or (peLTP strike) 0 in
  let previousCEVolume := js_or (ceVolume <$> previousStrike) (ceVolume strike) in
  let previousPEVolume := js_or (peVolume <$> previousStrike) (peVolume strike) in
  let previousCEOI := js_or (ceOI <$> previousStrike) (ceOI strike) in
  let previousPEOI := js_or (peOI <$> previousStrike) (peOI strike) in
  let previousCELTP := js_or (previousStrike ≫= ceLTP) ceLTP' in
  let previousPELTP := js_or (previousStrike ≫= peLTP) peLTP' in
  let ceLTPChange' := ceLTP' - previousCELTP in
  let peLTPChange' := peLTP' - previousPELTP in
  let ceTV' := calculateTimeValue ceLTP' spotPrice (strikePrice strike) CE in
  let peTV' := calculateTimeValue peLTP' spotPrice (strikePrice strike) PE in
  let* ceVolumeColor' :=
    calculateVolumeColor (ceVolume strike) previousCEVolume highestCEVolume true in
  let* peVolumeColor' :=
    calculateVolumeColor (peVolume strike) previousPEVolume highestPEVolume false in
  let* ceOIResult := calculateOIColor (ceOI strike) previousCEOI highestCEOI true in
  let* peOIResult := calculateOIColor (peOI strike) previousPEOI highestPEOI false in
  let ceBuiltUp' := calculateBuiltUp (ceOIChange strike) ceLTPChange' in
  let peBuiltUp' := calculateBuiltUp (peOIChange strike) peLTPChange' in
  Some {|
    e_strikePrice := strikePrice strike;
    isATM := Qeq_bool (strikePrice strike) atmStrikePrice;
    e_ceVolume := ceVolume strike;
    ceVolumeColor := ceVolumeColor';
    e_ceOI := ceOI strike;
    e_ceOIChange := ceOIChange strike;
    ceOIColor := oi_color ceOIResult;
    ceShouldFadeOI := shouldFade ceOIResult;
    e_ceLTP := toFixed 2 ceLTP';
    ceLTPChange := toFixed 2 ceLTPChange';
    ceTV := toFixed 2 ceTV';
    ceBuiltUp := classification ceBuiltUp';
    ceBuiltUpColor := color ceBuiltUp';
    e_peVolume := peVolume strike;
    peVolumeColor := peVolumeColor';
    e_peOI := peOI strike;
    e_peOIChange := peOIChange strike;
    peOIColor := oi_color peOIResult;
    peShouldFadeOI := shouldFade peOIResult;
    e_peLTP := toFixed 2 peLTP';
    peLTPChange := toFixed 2 peLTPChange';
    peTV := toFixed 2 peTV';
    peBuiltUp := classification peBuiltUp';
    peBuiltUpColor := color peBuiltUp'
  |}.

(** [filteredStrikes.map(...)], stopping at the first fault. *)
Fixpoint mapFault {A B} (f : A → option B) (l : list A) : option (list B) :=
  match l with
  | [] => Some []
  | a :: rest =>
      let* b := f a in
      let* bs := mapFault f rest in
      Some (b :: bs)
  end.

Record BroadcastData := mkBroadcast {
  b_symbol : string;
  b_expiry : string;
  b_spotPrice : Q;
  b_atmStrike : Q;
  b_pcr : Q;
  b_strikes : list EnrichedStrike;
  b_source : string
}.

(** From "Filter strikes" to "Prepare broadcast data". *)
Definition buildBroadcast (upperSymbol expiry : string) (spotPrice : Q)
    (allStrikes : list StrikeData) (isRealData : bool)
    (previousData : option ChainSnapshot) : option BroadcastData :=
  let filteredStrikes := filterStrikeRange allStrikes spotPrice in
  let '(highestCEVolume, highestPEVolume) := findHighestVolumes filteredStrikes in
  let '(highestCEOI, highestPEOI) := findHighestOI filteredStrikes in
  let atmStrikePrice := findATMStrike filteredStrikes spotPrice in
  let* enrichedStrikes :=
    mapFault (enrichStrike spotPrice atmStrikePrice highestCEVolume highestPEVolume
                           highestCEOI highestPEOI previousData)
             filteredStrikes in
  let* pcr := calculatePCR filteredStrikes in
  Some {|
    b_symbol := upperSymbol;
    b_expiry := expiry;
    b_spotPrice := toFixed 2 spotPrice;
    b_atmStrike := atmStrikePrice;
    b_pcr := pcr;
    b_strikes := enrichedStrikes;
    b_source := if isRealData then "dhan" else "mock"
  |}.

(** The colour a value gets from the highest-check alone. *)
Definition highestOrNeutral (value highest : Q) (isCE : bool) : string :=
  if Qeq_bool value highest && Qltb 0 highest then strongColor isCE else neutralColor.

(** The colours of an enriched strike all come from the highest-check and
    nothing fades. *)
Definition highest_check_only (highestCEVolume highestPEVolume highestCEOI highestPEOI : Q)
    (es : EnrichedStrike) : Prop :=
  ceVolumeColor es = highestOrNeutral (e_ceVolume es) highestCEVolume true
  ∧ peVolumeColor es = highestOrNeutral (e_peVolume es) highestPEVolume false
  ∧ ceOIColor es = highestOrNeutral (e_ceOI es) highestCEOI true
  ∧ peOIColor es = highestOrNeutral (e_peOI es) highestPEOI false
  ∧ ceShouldFadeOI es = false
  ∧ peShouldFadeOI es = false.

End Enrichment.

(* ===================================================================== *)
(** * Statements that may throw *)
(* ===================================================================== *)

(** A computation over a state [S] that either returns or throws. *)
Module Exn.

Inductive outcome (X : Type) := Returned (x : X) | Thrown (e : string).
Arguments Returned {X} _.
Arguments Thrown {X} _.

Definition M (S X : Type) : Type := S → outcome X * S.

Definition ret {S X} (x : X) : M S X := fun s => (Returned x, s).

Definition throw {S X} (e : string) : M S X := fun s => (Thrown e, s).

Definition bind {S X Y} (m : M S X) (k : X → M S Y) : M S Y :=
  fun s =>
    match m s with
    | (Returned x, s') => k x s'
    | (Thrown e, s') => (Thrown e, s')
    end.

(** [try { body } catch (error) { handler }] *)
Definition try_catch {S X} (body : M S X) (handler : string → M S X) : M S X :=
  fun s =>
    match body s with
    | (Returned x, s') => (Returned x, s')
    | (Thrown e, s') => handler e s'
    end.

Definition modify {S} (f : S → S) : M S unit := fun s => (Returned tt, f s).

Definition gets {S X} (f : S → X) : M S X := fun s => (Returned (f s), s).

(** [collection.forEach(body)] over the elements in iteration order; a
    throw in [body] ends the loop. *)
Fixpoint forEach {S A} (l : list A) (body : A → M S unit) : M S unit :=
  match l with
  | [] => ret tt
  | a :: rest => bind (body a) (fun _ => forEach rest body)
  end.

End Exn.

Notation "'let!' x ':=' m 'in' k" := (Exn.bind m (fun x => k))
  (at level 10, x name, m at level 100, k at level 200).

(* ===================================================================== *)
(** * services/websocket.ts: the broadcaster *)
(* ===================================================================== *)

Module WebSocketService.
Import Exn.

(** [ws.readyState] *)
Inductive ReadyState := CONNECTING | OPEN | CLOSING | CLOSED.

(** What the service sends.  [data] of an update is the payload type [A]. *)
Inductive Outbound (A : Type) :=
| Connected (now : Z)
| ErrorMsg (message : string)
| Subscribed (channel : string) (now : Z)
| Unsubscribed (channel : string) (now : Z)
| Update (channel : string) (d : A) (now : Z).
Arguments Connected {A} _.
Arguments ErrorMsg {A} _.
Arguments Subscribed {A} _ _.
Arguments Unsubscribed {A} _ _.
Arguments Update {A} _ _ _.

(** The sockets as the service finds them during one call: their ready
    state, and whether [ws.send(JSON.stringify(data))] throws. *)
Record Sockets (A : Type) := mkSockets {
  readyState : nat → ReadyState;
  send_throws : nat → Outbound A → bool
}.
Arguments mkSockets {A} _ _.
Arguments readyState {A} _ _.
Arguments send_throws {A} _ _ _.

(** The two private maps, the allocator of socket identities, and the
    calls of [ws.send] made so far, oldest first, each with the socket, the
    message and whether the call returned ([true]) or threw ([false]). *)
Record Service (A : Type) := mkService {
  clients : gmap nat (gset string);
  channelSubscribers : gmap string (gset nat);
  next_ws : nat;
  sends : list (nat * Outbound A * bool)
}.
Arguments mkService {A} _ _ _ _.
Arguments clients {A} _.
Arguments channelSubscribers {A} _.
Arguments next_ws {A} _.
Arguments sends {A} _.

Definition init {A} : Service A := mkService ∅ ∅ 0 [].

Section Calls.
Context {A : Type}.
Variable env : Sockets A.

(** [ws.send(JSON.stringify(data))] *)
Definition ws_send (ws : nat) (msg : Outbound A) : M (Service A) unit :=
  let! _ := modify (fun s =>
    mkService (clients s) (channelSubscribers s) (next_ws s)
              (sends s ++ [(ws, msg, negb (send_throws env ws msg))])) in
  if send_throws env ws msg then throw "send failed" else ret tt.

Definition is_open (r : ReadyState) : bool :=
  match r with OPEN => true | _ => false end.

Definition sendToClient (ws : nat) (msg : Outbound A) : M (Service A) bool :=
  if is_open (readyState env ws) then
    try_catch (let! _ := ws_send ws msg in ret true)
              (fun _ => ret false)
  else ret false.

(** [if (symbol) subscriptionKey += `:${symbol}`]: [undefined] and the
    empty string are falsy. *)
Definition appendPart (key : string) (part : option string) : string :=
  match part with
  | Some p => if String.eqb p EmptyString then key else key +:+ ":" +:+ p
  | None => key
  end.

Definition subscriptionKey (channel : string) (symbol expiry : option string)
    : string :=
  appendPart (appendPart channel symbol) expiry.

Definition subscribe (ws : nat) (channel : string) (symbol expiry : option string)
    (now : Z) : M (Service A) unit :=
  let! client := gets (fun s => clients s !! ws) in
  match client with
  | None => ret tt
  | Some subscriptions =>
      let key := subscriptionKey channel symbol expiry in
      let! _ := modify (fun s =>
        let subs := default ∅ (channelSubscribers s !! key) in
        mkService (<[ws := subscriptions ∪ {[key]}]> (clients s))
                  (<[key := subs ∪ {[ws]}]> (channelSubscribers s))
                  (next_ws s) (sends s)) in
      let! _ok := sendToClient ws (Subscribed key now) in
      ret tt
  end.

(** The shared tail of [unsubscribe] and [removeClient]: take [ws] out
    of one channel and drop the channel when it is left empty. *)
Definition dropSubscriber (ws : nat) (key : string)
    (channels : gmap string (gset nat)) : gmap string (gset nat) :=
  match channels !! key with
  | None => channels
  | Some subscribers =>
      let subscribers := subscribers ∖ {[ws]} in
      if decide (size subscribers = 0%nat)
      then delete key channels
      else <[key := subscribers]> channels
  end.

Definition unsubscribe (ws : nat) (channel : string) (symbol expiry : option string)
    (now : Z) : M (Service A) unit :=
  let! client := gets (fun s => clients s !! ws) in
  match client with
  | None => ret tt
  | Some subscriptions =>
      let key := subscriptionKey channel symbol expiry in
      let! _ := modify (fun s =>
        mkService (<[ws := subscriptions ∖ {[key]}]> (clients s))
                  (dropSubscriber ws key (channelSubscribers s))
                  (next_ws s) (sends s)) in
      let! _ok := sendToClient ws (Unsubscribed key now) in
      ret tt
  end.

Definition removeClient (ws : nat) : M (Service A) unit :=
  let! client := gets (fun s => clients s !! ws) in
  match client with
  | None => ret tt
  | Some subscriptions =>
      let! _ := forEach (elements subscriptions) (fun key =>
        modify (fun s =>
          mkService (clients s) (dropSubscriber ws key (channelSubscribers s))
                    (next_ws s) (sends s))) in
      modify (fun s =>
        mkService (delete ws (clients s)) (channelSubscribers s)
                  (next_ws s) (sends s))
  end.

Definition broadcast (channel : string) (d : A) (now : Z) : M (Service A) unit :=
  let! subscribers := gets (fun s => channelSubscribers s !! channel) in
  match subscribers with
  | None => ret tt
  | Some subscribers =>
      if decide (size subscribers = 0%nat) then ret tt
      else
        let message := Update channel d now in
        forEach (elements subscribers) (fun ws =>
          let! _ok := sendToClient ws message in
          ret tt)
  end.

(** A parsed inbound frame; [Malformed] is a frame on which
    [JSON.parse] throws. *)
Inductive Inbound :=
| Malformed
| Frame (type channel : string) (symbol expiry : option string).

Definition handleMessage (ws : nat) (type channel : string)
    (symbol expiry : option string) (now : Z) : M (Service A) unit :=
  if String.eqb type "subscribe" then subscribe ws channel symbol expiry now
  else if String.eqb type "unsubscribe" then unsubscribe ws channel symbol expiry now
  else let! _ok := sendToClient ws (ErrorMsg ("Unknown message type: " +:+ type)) in
       ret tt.

(** The handlers installed by [initialize]. *)
Inductive event :=
| Connection (now : Z)
| Message (ws : nat) (frame : Inbound) (now : Z)
| Close (ws : nat)
| SocketError (ws : nat)
| Broadcast (channel : string) (d : A) (now : Z).

Definition handle (ev : event) : M (Service A) unit :=
  match ev with
  | Connection now =>
      let! ws := gets next_ws in
      let! _ := modify (fun s =>
        mkService (<[ws := ∅]> (clients s)) (channelSubscribers s)
                  (S (next_ws s)) (sends s)) in
      let! _ok := sendToClient ws (Connected now) in
      ret tt
  | Message ws frame now =>
      try_catch
        (match frame with
         | Malformed => throw "Unexpected token"
         | Frame type channel symbol expiry =>
             handleMessage ws type channel symbol expiry now
         end)
        (fun _ =>
           let! _ok := sendToClient ws (ErrorMsg "Invalid message format") in
           ret tt)
  | Close ws => removeClient ws
  | SocketError ws => removeClient ws
  | Broadcast channel d now => broadcast channel d now
  end.

End Calls.

(** Successive events, each met with the sockets as they are then. *)
Definition step {A} (s : Service A) (e : Sockets A * event) : Service A :=
  snd (handle e.1 e.2 s).

Definition run {A} (evs : list (Sockets A * event)) : Service A :=
  foldl step init evs.

(** [ws] is in the subscriber set of [key]. *)
Definition subscriber {A} (s : Service A) (key : string) (ws : nat) : Prop :=
  ∃ subscribers, channelSubscribers s !! key = Some subscribers ∧ ws ∈ subscribers.

(** [key] is in the subscriptions of the client [ws]. *)
Definition subscription {A} (s : Service A) (ws : nat) (key : string) : Prop :=
  ∃ subscriptions, clients s !! ws = Some subscriptions ∧ key ∈ subscriptions.

(** The two indices agree, and no channel is kept with an empty set. *)
Definition consistent {A} (s : Service A) : Prop :=
  (∀ ws key, subscriber s key ws ↔ subscription s ws key)
  ∧ (∀ key subscribers,
       channelSubscribers s !! key = Some subscribers → subscribers ≠ ∅).

(** Membership in a channel map, and the absence of empty channels. *)
Definition mem (channels : gmap string (gset nat)) (key : string) (ws : nat) : Prop :=
  ∃ subscribers, channels !! key = Some subscribers ∧ ws ∈ subscribers.

Definition no_empty (channels : gmap string (gset nat)) : Prop :=
  ∀ key subscribers, channels !! key = Some subscribers → subscribers ≠ ∅.

(** The invariant carried through the events: the indices are consistent
    and every known client was handed out by the allocator. *)
Definition invariant {A} (s : Service A) : Prop :=
  consistent s ∧ ∀ ws, is_Some (clients s !! ws) → (ws < next_ws s)%nat.

(** The [ws.send] calls a broadcast makes: one per subscriber whose socket
    is open, returning unless that socket throws. *)
Definition fanout {A} (env : Sockets A) (message : Outbound A)
    (subscribers : list nat) : list (nat * Outbound A * bool) :=
  (fun ws => (ws, message, negb (send_throws env ws message)))
    <$> List.filter (fun ws => is_open (readyState env ws)) subscribers.

End WebSocketService.

(* ===================================================================== *)
(** * services/marketDataPoller.ts: the scheduler *)
(* ===================================================================== *)

Module MarketDataPoller.

(** [String.prototype.toUpperCase] on ASCII letters. *)
Definition upper_ascii (c : ascii) : ascii :=
  let n := nat_of_ascii c in
  if (97 <=? n)%nat && (n <=? 122)%nat then ascii_of_nat (n - 32) else c.

Fixpoint toUpperCase (s : string) : string :=
  match s with
  | EmptyString => EmptyString
  | String c rest => String (upper_ascii c) (toUpperCase rest)
  end.

Record PollerConfig := mkConfig {
  cfg_symbol : string;
  cfg_expiry : string;
  cfg_interval : Z
}.

(** What a timer callback runs: [fetchAndBroadcast(symbol, expiry)] or
    [fetchAndBroadcastIV(symbol)]. *)
Inductive Task :=
| ChainTick (symbol expiry : string)
| IVTick (symbol : string).

(** The key under which [pollers] holds the timer of a task. *)
Definition chainKey (symbol expiry : string) : string := symbol +:+ ":" +:+ expiry.
Definition ivKey (symbol : string) : string := "iv:" +:+ symbol.

Definition task_key (t : Task) : string :=
  match t with
  | ChainTick symbol expiry => chainKey symbol expiry
  | IVTick symbol => ivKey symbol
  end.

(** The channel a finished tick hands to [websocketService.broadcast]. *)
Definition channel_of (t : Task) : string :=
  match t with
  | ChainTick symbol expiry =>
      "option-chain:" +:+ toUpperCase symbol +:+ ":" +:+ expiry
  | IVTick symbol => "ivdex:" +:+ toUpperCase symbol
  end.

(** The poller's two maps and the part of the runtime it acts on:
    - [timers]: the interval timers that are set and not cleared, with the
      task each one runs and its period;
    - [next_timer]: the identity the next [setInterval] returns;
    - [inflight]: ticks that were started and are waiting at an [await];
    - [published]: the ticks that reached [websocketService.broadcast],
      oldest first. *)
Record Poller := mkPoller {
  pollers : gmap string nat;
  activePolls : gmap string PollerConfig;
  timers : gmap nat (Task * Z);
  next_timer : nat;
  inflight : list Task;
  published : list Task
}.

Definition init : Poller := mkPoller ∅ ∅ ∅ 0 [] [].

Definition clearInterval (timerId : nat) (p : Poller) : Poller :=
  mkPoller (pollers p) (activePolls p) (delete timerId (timers p))
           (next_timer p) (inflight p) (published p).

Definition setInterval (t : Task) (interval : Z) (p : Poller) : nat * Poller :=
  (next_timer p,
   mkPoller (pollers p) (activePolls p) (<[next_timer p := (t, interval)]> (timers p))
            (S (next_timer p)) (inflight p) (published p)).

(** Calling an [async] tick: it runs up to its first [await] and is then
    in flight. *)
Definition launch (t : Task) (p : Poller) : Poller :=
  mkPoller (pollers p) (activePolls p) (timers p) (next_timer p)
           (inflight p ++ [t]) (published p).

Definition stopPolling (symbol expiry : string) (p : Poller) : Poller :=
  let key := chainKey symbol expiry in
  match pollers p !! key with
  | Some timerId =>
      let p := clearInterval timerId p in
      mkPoller (delete key (pollers p)) (delete key (activePolls p)) (timers p)
               (next_timer p) (inflight p) (published p)
  | None => p
  end.

Definition startPolling (symbol expiry : string) (interval : option Z) (p : Poller)
    : Poller :=
  let interval := default 5000%Z interval in
  let key := chainKey symbol expiry in
  let p := stopPolling symbol expiry p in
  let config := mkConfig symbol expiry interval in
  let p := mkPoller (pollers p) (<[key := config]> (activePolls p)) (timers p)
                    (next_timer p) (inflight p) (published p) in
  let p := launch (ChainTick symbol expiry) p in
  let '(timerId, p) := setInterval (ChainTick symbol expiry) interval p in
  mkPoller (<[key := timerId]> (pollers p)) (activePolls p) (timers p)
           (next_timer p) (inflight p) (published p).

Definition stopIVPolling (symbol : string) (p : Poller) : Poller :=
  let key := ivKey symbol in
  match pollers p !! key with
  | Some timerId =>
      let p := clearInterval timerId p in
      mkPoller (delete key (pollers p)) (activePolls p) (timers p)
               (next_timer p) (inflight p) (published p)
  | None => p
  end.

Definition startIVPolling (symbol : string) (interval : option Z) (p : Poller)
    : Poller :=
  let interval := default 10000%Z interval in
  let key := ivKey symbol in
  let p := stopIVPolling symbol p in
  let p := launch (IVTick symbol) p in
  let '(timerId, p) := setInterval (IVTick symbol) interval p in
  mkPoller (<[key := timerId]> (pollers p)) (activePolls p) (timers p)
           (next_timer p) (inflight p) (published p).

Definition stopAll (p : Poller) : Poller :=
  let p := map_fold (fun _ timerId acc => clearInterval timerId acc) p (pollers p) in
  mkPoller ∅ ∅ (timers p) (next_timer p) (inflight p) (published p).

(** [Array.from(this.activePolls.keys())] *)
Definition getActivePolls (p : Poller) : list string :=
  (map_to_list (activePolls p)).*1.

(** A timer callback: the runtime calls it only while the timer is set. *)
Definition timerFires (timerId : nat) (p : Poller) : Poller :=
  match timers p !! timerId with
  | Some (t, _) => launch t p
  | None => p
  end.

(** The tick at position [i] of [inflight] runs on from its [await] to
    the end of [fetchAndBroadcast]: it reaches the broadcast
    ([completes = true]), or an exception inside the [try] takes it to the
    [catch], which only logs. *)
Definition fetchSettles (i : nat) (completes : bool) (p : Poller) : Poller :=
  match inflight p !! i with
  | Some t =>
      mkPoller (pollers p) (activePolls p) (timers p) (next_timer p)
               (delete i (inflight p))
               (if completes then published p ++ [t] else published p)
  | None => p
  end.

Inductive event :=
| StartPolling (symbol expiry : string) (interval : option Z)
| StopPolling (symbol expiry : string)
| StartIVPolling (symbol : string) (interval : option Z)
| StopIVPolling (symbol : string)
| StopAll
| TimerFires (timerId : nat)
| FetchSettles (i : nat) (completes : bool).

Definition step (p : Poller) (ev : event) : Poller :=
  match ev with
  | StartPolling symbol expiry interval => startPolling symbol expiry interval p
  | StopPolling symbol expiry => stopPolling symbol expiry p
  | StartIVPolling symbol interval => startIVPolling symbol interval p
  | StopIVPolling symbol => stopIVPolling symbol p
  | StopAll => stopAll p
  | TimerFires timerId => timerFires timerId p
  | FetchSettles i completes => fetchSettles i completes p
  end.

Definition run_from (p : Poller) (evs : list event) : Poller := foldl step p evs.
Definition run (evs : list event) : Poller := run_from init evs.

(** The timers that are set and run a task registered under [key]. *)
Definition timers_for (key : string) (p : Poller) : gmap nat (Task * Z) :=
  filter (fun entry => task_key entry.2.1 = key) (timers p).

(** How many ticks of [key] a list holds. *)
Definition count_key (key : string) (l : list Task) : nat :=
  length (filter (fun t => task_key t = key) l).

(** An event that (re)starts the poller stored under [key]. *)
Definition starts (key : string) (ev : event) : Prop :=
  match ev with
  | StartPolling symbol expiry _ => chainKey symbol expiry = key
  | StartIVPolling symbol _ => ivKey symbol = key
  | _ => False
  end.

(** An event of the chain poller or of the runtime, not a call of the
    IV-only variant. *)
Definition chain_event (ev : event) : Prop :=
  match ev with
  | StartIVPolling _ _ | StopIVPolling _ => False
  | _ => True
  end.

(** Every timer that is set is the one [pollers] holds for the key of
    its task, every entry of [pollers] is such a timer, and timers are
    never older than the allocator. *)
Definition wellformed (p : Poller) : Prop :=
  (∀ timerId t interval,
     timers p !! timerId = Some (t, interval) → pollers p !! task_key t = Some timerId)
  ∧ (∀ key timerId,
       pollers p !! key = Some timerId →
       ∃ t interval, timers p !! timerId = Some (t, interval) ∧ task_key t = key)
  ∧ (∀ timerId, is_Some (timers p !! timerId) → (timerId < next_timer p)%nat).

End MarketDataPoller.

(* ===================================================================== *)
(** * Notions used to state further properties *)
(* ===================================================================== *)

Module ChainNotions.
Import OptionChainUtils.
Local Open Scope Q_scope.

(** How far a strike is from the spot price. *)
Definition distance (spotPrice : Q) (s : StrikeData) : Q :=
  Qabs (strikePrice s - spotPrice).

(** [h] is the running maximum of [f] over the strikes, started from 0:
    it is non-negative, bounds every strike's value, and is 0 or the value
    of some strike. *)
Definition is_highest (f : StrikeData → Q) (strikes : list StrikeData) (h : Q) : Prop :=
  0 <= h ∧ (∀ s, s ∈ strikes → f s <= h) ∧ (h = 0 ∨ ∃ s, s ∈ strikes ∧ h = f s).

End ChainNotions.

(** ** cache/optionChainCache.ts: statistics *)
Module CacheStats.
Import OptionChainCache.

(** [getStats()]: the number of keys and the number of entries under all
    of them. *)
Definition getStats {A} (cache : gmap string (list (CacheEntry A))) : nat * nat :=
  (size cache,
   map_fold (fun _ entries totalEntries => (totalEntries + length entries)%nat)
            0%nat cache).

End CacheStats.

(** ** The cache calls of successive ticks *)
Module TickCache.
Import RedisCache.

(** [fetchAndBroadcast] reads [redisCache.getPrevious] before it enriches
    and calls [redisCache.store] afterwards.  [previousSeen] lists what
    successive ticks of one symbol and expiry get from [getPrevious], each
    tick given by its time and the snapshot it stores. *)
Fixpoint previousSeen {A} (symbol expiry : string) (r : Redis A)
    (ticks : list (Z * A)) : list (option A) :=
  match ticks with
  | [] => []
  | (now, d) :: rest =>
      getPrevious symbol expiry now r
      :: previousSeen symbol expiry (store symbol expiry d now r) rest
  end.

(** The entries those ticks append. *)
Definition entries_of {A} (ticks : list (Z * A)) : list (CacheEntry A) :=
  (λ td, mkEntry td.1 td.2) <$> ticks.

(** The entry before the last one, which [getPrevious] returns. *)
Definition penultimate {A} (l : list (CacheEntry A)) : option (CacheEntry A) :=
  if (2 <=? length l)%nat then l !! (length l - 2)%nat else None.

(** Each tick comes less than the TTL after the tick before it. *)
Fixpoint within_ttl (times : list Z) : Prop :=
  match times with
  | t1 :: ((t2 :: _) as rest) => (t2 < t1 + TTL_MS)%Z ∧ within_ttl rest
  | _ => True
  end.

End TickCache.

(** ** services/websocket.ts: the counters *)
Module WebSocketStats.
Import WebSocketService.

Definition getConnectedClientsCount {A} (s : Service A) : nat := size (clients s).

Definition getActiveSubscriptionsCount {A} (s : Service A) : nat :=
  size (channelSubscribers s).

Record Stats := mkStats {
  connectedClients : nat;
  activeSubscriptions : nat;
  channels : list string
}.

(** [channels] is [Array.from(this.channelSubscribers.keys())]. *)
Definition getStats {A} (s : Service A) : Stats :=
  mkStats (size (clients s)) (size (channelSubscribers s))
          (map_to_list (channelSubscribers s)).*1.

(** The connections accepted during a run. *)
Definition is_connection {A} (e : Sockets A * event (A:=A)) : bool :=
  match e.2 with Connection _ => true | _ => false end.

(** The [ws.send] calls a handler adds to the log. *)
Definition sent_by {A} (before after : Service A) : list (nat * Outbound A * bool) :=
  drop (length (sends before)) (sends after).

End WebSocketStats.

(** ** services/marketDataPoller.ts: the mock chain and the IV tick *)
Module MockData.
Import Num OptionChainUtils.
Local Open Scope Q_scope.

(** The table [mockSpotPrices], looked up with the upper-cased symbol. *)
Definition mockSpotPrices (symbol : string) : option Q :=
  if String.eqb symbol "NIFTY" then Some 19500
  else if String.eqb symbol "BANKNIFTY" then Some 43500
  else if String.eqb symbol "FINNIFTY" then Some 19800
  else if String.eqb symbol "MIDCAPNIFTY" then Some 9500
  else if String.eqb symbol "SENSEX" then Some 65000
  else None.

(** [generateMockData(symbol)].  [random i] holds the eight values drawn
    from [Math.random] for the strike at offset [i]; its [strikePrice] is
    not used. *)
Definition generateMockData (symbol : string) (random : Z → StrikeData)
    : Q * list StrikeData :=
  let spotPrice := js_or (mockSpotPrices symbol) 19500 in
  (spotPrice,
   (fun i =>
      let r := random i in
      mkStrike (spotPrice + inject_Z i * 50)
               (ceOI r) (ceOIChange r) (ceVolume r) (ceLTP r)
               (peOI r) (peOIChange r) (peVolume r) (peLTP r))
     <$> seqZ (-15) 31).

End MockData.

Module IVTick.
Import Num RedisCache MarketDataPoller.
Local Open Scope Q_scope.

(** The arrow sent as [trend]: ['→'], ['▲'] or ['▼']. *)
Inductive Trend := Flat | Up | Down.

Record IVBroadcast := mkIVBroadcast {
  iv_currentIV : Q;
  iv_previousIV : Q;
  iv_ivChange : Q;
  iv_trend : Trend;
  iv_trendColor : string;
  iv_source : string
}.

(** The table [mockIVDEX]. *)
Definition mockIVDEX (symbol : string) : option Q :=
  if String.eqb symbol "NIFTY" then Some (155 # 10)
  else if String.eqb symbol "BANKNIFTY" then Some (182 # 10)
  else if String.eqb symbol "FINNIFTY" then Some (168 # 10)
  else if String.eqb symbol "MIDCAPNIFTY" then Some (175 # 10)
  else if String.eqb symbol "SENSEX" then Some (149 # 10)
  else None.

(** What [await dhanClient.getIVData(upperSymbol)] does: it throws, or it
    resolves; [ltp] is [None] when [ivData] or [ivData.ltp] is missing. *)
Inductive IVFetch := Throws | Answers (ltp : option Q).

(** [x && x.v]: a missing value and 0 are falsy. *)
Definition truthy (x : option Q) : option Q :=
  match x with
  | Some v => if Qeq_bool v 0 then None else Some v
  | None => None
  end.

(** The block that turns the two values into the arrow and its colour. *)
Definition trendOf (currentIV previousIV : Q) : Q * Trend * string :=
  let ivChange := toFixed 2 (currentIV - previousIV) in
  if Qltb 0 ivChange then
    (ivChange, Up, if Qltb 1 ivChange then "#f44336" else "#ff9800")
  else if Qltb ivChange 0 then (ivChange, Down, "#4caf50")
  else (ivChange, Flat, "#999").

(** [fetchAndBroadcastIV(symbol)] up to the call of
    [websocketService.broadcast], [getDhanStream()] having returned a
    client: the payload and the cache it leaves.  The cache holds the
    objects [{ iv }], kept as the number; the two cache calls never
    throw. *)
Definition fetchAndBroadcastIV (symbol : string) (fetch : IVFetch) (now : Z)
    (r : Redis Q) : IVBroadcast * Redis Q :=
  let upperSymbol := toUpperCase symbol in
  let '(currentIV, previousIV, isRealData, r) :=
    match fetch with
    | Answers ltp =>
        match truthy ltp with
        | Some currentIV =>
            let cacheKey := "iv_" +:+ upperSymbol in
            let cachedIV := getLatest cacheKey "iv" now r in
            let previousIV :=
              match truthy cachedIV with
              | Some iv => iv
              | None => currentIV
              end in
            (currentIV, previousIV, true, store cacheKey "iv" currentIV now r)
        | None => (0, 0, false, r)
        end
    | Throws =>
        let currentIV := js_or (mockIVDEX upperSymbol) 15 in
        (currentIV, currentIV * (98 # 100), false, r)
    end in
  let '(ivChange, trend, trendColor) := trendOf currentIV previousIV in
  (mkIVBroadcast (toFixed 2 currentIV) (toFixed 2 previousIV) ivChange trend
                 trendColor (if isRealData : bool then "dhan" else "mock"),
   r).

End IVTick.

Module PollerNotions.
Import MarketDataPoller.

(** A call of [startPolling] or [startIVPolling]. *)
Definition is_start (ev : event) : Prop :=
  match ev with
  | StartPolling _ _ _ | StartIVPolling _ _ => True
  | _ => False
  end.

End PollerNotions.

(** ** utils/optionsPricing.ts: delta and the average IV *)
Module Greeks.
Import BlackScholes.
Local Open Scope R_scope.

Definition calculateDelta (spotPrice strikePrice timeToExpiry volatility riskFreeRate : R)
    (optionType : OptionKind) : R :=
  let d1 := d1_of spotPrice strikePrice timeToExpiry volatility riskFreeRate in
  match optionType with
  | call => normalCDF d1
  | put => normalCDF d1 - 1
  end.

(** An element of the [options] array. *)
Record IVOption := mkIVOption {
  ltp : R;
  strike : R;
  type : OptionKind
}.

Definition has_price (opt : IVOption) : bool :=
  if Rlt_dec 0 (ltp opt) then true else false.

(** [calculateAverageIV]; [riskFreeRate] defaults to 0.065 at the call. *)
Definition calculateAverageIV (options : list IVOption)
    (spotPrice timeToExpiry riskFreeRate : R) : R :=
  match options with
  | [] => 0
  | _ =>
      let ivValues :=
        List.map
          (fun opt =>
             calculateImpliedVolatility (ltp opt) spotPrice (strike opt)
                                        timeToExpiry riskFreeRate (type opt))
          (List.filter has_price options) in
      match ivValues with
      | [] => 0
      | _ =>
          let averageIV :=
            fold_left Rplus ivValues 0 / INR (length ivValues) in
          toFixed2 averageIV
      end
  end.

End Greeks.

(** ** routes/auth.ts: the [/market/polling] routes, the only callers of
    the poller *)
Module PollingRoutes.
Import MarketDataPoller.

(** A field of [req.body] holding a string; [None] is a missing field.
    [!field] holds for a missing field and for the empty string. *)
Definition present (field : option string) : option string :=
  match field with
  | Some s => if String.eqb s EmptyString then None else Some s
  | None => None
  end.

Inductive Response :=
| BadRequest
| Started (interval : Z)
| Stopped
| Status (activePolls : list string) (count : nat).

(** [POST /polling/start]: [interval] defaults to 2000 in the route. *)
Definition pollingStart (symbol expiry : option string) (interval : option Z)
    (p : Poller) : Response * Poller :=
  let interval := default 2000%Z interval in
  match present symbol, present expiry with
  | Some symbol, Some expiry =>
      (Started interval, startPolling (toUpperCase symbol) expiry (Some interval) p)
  | _, _ => (BadRequest, p)
  end.

(** [POST /polling/stop] *)
Definition pollingStop (symbol expiry : option string) (p : Poller)
    : Response * Poller :=
  match present symbol, present expiry with
  | Some symbol, Some expiry => (Stopped, stopPolling (toUpperCase symbol) expiry p)
  | _, _ => (BadRequest, p)
  end.

(** [GET /polling/status] *)
Definition pollingStatus (p : Poller) : Response * Poller :=
  let activePolls := getActivePolls p in
  (Status activePolls (length activePolls), p).

(** What happens to a server that is driven through the routes: the three
    requests, and the runtime firing timers and settling fetches. *)
Inductive request :=
| PostStart (symbol expiry : option string) (interval : option Z)
| PostStop (symbol expiry : option string)
| GetStatus
| Fires (timerId : nat)
| Settles (i : nat) (completes : bool).

Definition serve (p : Poller) (rq : request) : Poller :=
  match rq with
  | PostStart symbol expiry interval => (pollingStart symbol expiry interval p).2
  | PostStop symbol expiry => (pollingStop symbol expiry p).2
  | GetStatus => (pollingStatus p).2
  | Fires timerId => timerFires timerId p
  | Settles i completes => fetchSettles i completes p
  end.

Definition served (rqs : list request) : Poller := foldl serve init rqs.

(** A task as the routes start it: a chain tick of an upper-cased symbol. *)
Definition upper_chain (t : Task) : Prop :=
  match t with
  | ChainTick symbol _ => toUpperCase symbol = symbol
  | IVTick _ => False
  end.

(** The poller calls a request amounts to. *)
Definition calls (rq : request) : list event :=
  match rq with
  | PostStart symbol expiry interval =>
      match present symbol, present expiry with
      | Some symbol, Some expiry =>
          [StartPolling (toUpperCase symbol) expiry (Some (default 2000%Z interval))]
      | _, _ => []
      end
  | PostStop symbol expiry =>
      match present symbol, present expiry with
      | Some symbol, Some expiry => [StopPolling (toUpperCase symbol) expiry]
      | _, _ => []
      end
  | GetStatus => []
  | Fires timerId => [TimerFires timerId]
  | Settles i completes => [FetchSettles i completes]
  end.

(** An event the routes can cause. *)
Definition routed (ev : event) : Prop :=
  match ev with
  | StartPolling symbol _ _ => toUpperCase symbol = symbol
  | StopPolling _ _ | TimerFires _ | FetchSettles _ _ => True
  | _ => False
  end.

End PollingRoutes.

(** ** services/moodCalculator.ts *)
Module MoodCalculator.
Import Num.
Local Open Scope Q_scope.

Record OHLCCandle := mkCandle { open : Q; high : Q; low : Q; close : Q }.

Record MoodIndex := mkMood { bull : Q; bear : Q; neutral : Q; m_timestamp : Z }.

Inductive CandleType := Bull | Bear | Neutral.

(** The private fields.  [candleCount] is an integer here; a count that
    is not a number is outside the model. *)
Record Service := mkService {
  smoothingFactor : Q;
  previousMood : option MoodIndex;
  candleCount : Z
}.

Definition init : Service := mkService (3 # 10) None 50.

Definition classifyCandle (candle : OHLCCandle) : CandleType :=
  if Qltb (open candle) (close candle) then Bull
  else if Qltb (close candle) (open candle) then Bear
  else Neutral.

(** [candles.slice(-count)]: the last [count] elements for a positive
    count, everything for 0, and [slice] from the front for a negative
    one. *)
Definition slice_neg {A} (count : Z) (l : list A) : list A :=
  if (0 <? count)%Z then drop (length l - Z.to_nat count) l
  else drop (Z.to_nat (- count)) l.

(** The three counters of the [forEach]. *)
Definition tally (acc : nat * nat * nat) (candle : OHLCCandle) : nat * nat * nat :=
  let '(bulls, bears, neutrals) := acc in
  match classifyCandle candle with
  | Bull => (S bulls, bears, neutrals)
  | Bear => (bulls, S bears, neutrals)
  | Neutral => (bulls, bears, S neutrals)
  end.

Definition percent (n total : nat) : Q :=
  if (0 <? total)%nat
  then (inject_Z (Z.of_nat n) / inject_Z (Z.of_nat total)) * 100
  else 0.

Definition calculateRawMood (svc : Service) (candles : list OHLCCandle) (now : Z)
    : MoodIndex :=
  let recentCandles := slice_neg (candleCount svc) candles in
  let '(bulls, bears, neutrals) := foldl tally (0, 0, 0)%nat recentCandles in
  let total := (bulls + bears + neutrals)%nat in
  mkMood (toFixed 1 (percent bulls total))
         (toFixed 1 (percent bears total))
         (toFixed 1 (percent neutrals total))
         now.

Definition smoothMood (svc : Service) (rawMood : MoodIndex) : MoodIndex * Service :=
  match previousMood svc with
  | None =>
      (rawMood, mkService (smoothingFactor svc) (Some rawMood) (candleCount svc))
  | Some prev =>
      let alpha := smoothingFactor svc in
      let smoothedMood :=
        mkMood (toFixed 1 (bull prev + alpha * (bull rawMood - bull prev)))
               (toFixed 1 (bear prev + alpha * (bear rawMood - bear prev)))
               (toFixed 1 (neutral prev + alpha * (neutral rawMood - neutral prev)))
               (m_timestamp rawMood) in
      (smoothedMood,
       mkService (smoothingFactor svc) (Some smoothedMood) (candleCount svc))
  end.

Definition calculateMood (svc : Service) (candles : list OHLCCandle)
    (useSmoothing : bool) (now : Z) : MoodIndex * Service :=
  match candles with
  | [] => (mkMood 0 0 0 now, svc)
  | _ =>
      let rawMood := calculateRawMood svc candles now in
      if useSmoothing then smoothMood svc rawMood else (rawMood, svc)
  end.

Definition setCandleCount (count : Z) (svc : Service) : Service :=
  mkService (smoothingFactor svc) (previousMood svc) (Z.max 10 (Z.min 200 count)).

Definition setSmoothingFactor (factor : Q) (svc : Service) : Service :=
  mkService (Qmax 0 (Qmin 1 factor)) (previousMood svc) (candleCount svc).

Definition resetSmoothing (svc : Service) : Service :=
  mkService (smoothingFactor svc) None (candleCount svc).

Inductive op :=
| CalculateMood (candles : list OHLCCandle) (useSmoothing : bool) (now : Z)
| SetCandleCount (count : Z)
| SetSmoothingFactor (factor : Q)
| ResetSmoothing.

Definition step (svc : Service) (o : op) : Service :=
  match o with
  | CalculateMood candles useSmoothing now =>
      (calculateMood svc candles useSmoothing now).2
  | SetCandleCount count => setCandleCount count svc
  | SetSmoothingFactor factor => setSmoothingFactor factor svc
  | ResetSmoothing => resetSmoothing svc
  end.

Definition run (ops : list op) : Service := foldl step init ops.

(** All three figures are percentages. *)
Definition in_range (m : MoodIndex) : Prop :=
  (0 <= bull m ∧ bull m <= 100) ∧ (0 <= bear m ∧ bear m <= 100)
  ∧ (0 <= neutral m ∧ neutral m <= 100).

(** What holds of the service whatever it is asked. *)
Definition invariant (svc : Service) : Prop :=
  (0 <= smoothingFactor svc ∧ smoothingFactor svc <= 1)
  ∧ (10 ≤ candleCount svc ≤ 200)%Z
  ∧ ∀ m, previousMood svc = Some m → in_range m.

End MoodCalculator.

(** ** services/oiSpurtService.ts *)
Module OISpurt.
Import Num OptionsPricing.
Local Open Scope Q_scope.

(** Strikes are whole numbers here. *)
Record OIData := mkOIData {
  strike : Z;
  optionType : OptionType;
  openInterest : Q;
  oi_timestamp : Z
}.

(** [active] is always [true]; [strike] is the text [`${strike}${optionType}`],
    kept as its two parts. *)
Record OISpurtAlert := mkAlert {
  a_strike : Z * OptionType;
  a_percent : Q;
  a_timestamp : Z;
  a_optionType : OptionType
}.

Record OIEntry := mkOIEntry { current : Q; previous : Q; e_timestamp : Z }.

(** [`${strike}_${optionType}`], kept as a pair. *)
Definition getKey (strike : Z) (optionType : OptionType) : Z * bool :=
  (strike, match optionType with CE => true | PE => false end).

Record Service := mkService {
  oiHistory : gmap (Z * bool) OIEntry;
  spurtThreshold : Q;
  lastSpurt : option OISpurtAlert
}.

Definition init : Service := mkService ∅ 10 None.

Definition alert_of (item : OIData) (percentChange : Q) : OISpurtAlert :=
  mkAlert (strike item, optionType item) (toFixed 1 percentChange)
          (oi_timestamp item) (optionType item).

(** The body of the [forEach] in [updateOI], on the history, [maxSpurt]
    and [maxSpurtPercent].  The division by [history.current] is checked:
    [None] stands for a zero divisor. *)
Definition visit (threshold : Q)
    (acc : gmap (Z * bool) OIEntry * option OISpurtAlert * Q) (item : OIData)
    : option (gmap (Z * bool) OIEntry * option OISpurtAlert * Q) :=
  let '(history, maxSpurt, maxSpurtPercent) := acc in
  let key := getKey (strike item) (optionType item) in
  match history !! key with
  | Some h =>
      let* ratio := checked_div (openInterest item - current h) (current h) in
      let percentChange := ratio * 100 in
      let '(maxSpurt, maxSpurtPercent) :=
        if Qle_bool threshold percentChange then
          if Qltb maxSpurtPercent percentChange
          then (Some (alert_of item percentChange), percentChange)
          else (maxSpurt, maxSpurtPercent)
        else (maxSpurt, maxSpurtPercent) in
      Some (<[key := mkOIEntry (openInterest item) (current h) (oi_timestamp item)]> history,
            maxSpurt, maxSpurtPercent)
  | None =>
      Some (<[key := mkOIEntry (openInterest item) (openInterest item)
                               (oi_timestamp item)]> history,
            maxSpurt, maxSpurtPercent)
  end.

Fixpoint visitAll (threshold : Q) (data : list OIData)
    (acc : gmap (Z * bool) OIEntry * option OISpurtAlert * Q)
    : option (gmap (Z * bool) OIEntry * option OISpurtAlert * Q) :=
  match data with
  | [] => Some acc
  | item :: rest =>
      let* acc := visit threshold acc item in
      visitAll threshold rest acc
  end.

Definition updateOI (svc : Service) (data : list OIData)
    : option (option OISpurtAlert * Service) :=
  let* res := visitAll (spurtThreshold svc) data
                       (oiHistory svc, None, spurtThreshold svc) in
  let maxSpurt := res.1.2 in
  Some (maxSpurt,
        mkService res.1.1 (spurtThreshold svc)
                  (match maxSpurt with
                   | Some alert => Some alert
                   | None => lastSpurt svc
                   end)).

Definition getLastSpurt (svc : Service) : option OISpurtAlert := lastSpurt svc.

Definition setThreshold (threshold : Q) (svc : Service) : Service :=
  mkService (oiHistory svc) (Qmax 0 threshold) (lastSpurt svc).

Definition clearHistory (svc : Service) : Service :=
  mkService ∅ (spurtThreshold svc) None.

(** [getSpurtPercent]; [None] is [null]. *)
Definition getSpurtPercent (strike : Z) (optionType : OptionType) (svc : Service)
    : option Q :=
  match oiHistory svc !! getKey strike optionType with
  | None => None
  | Some h =>
      if Qeq_bool (previous h) 0 then None
      else Some (toFixed 1 ((current h - previous h) / previous h * 100))
  end.

Definition key_of (item : OIData) : Z * bool :=
  getKey (strike item) (optionType item).

(** The percent change of an item against the history, for an item whose
    key is known. *)
Definition change_of (history : gmap (Z * bool) OIEntry) (item : OIData) : option Q :=
  match history !! key_of item with
  | Some h => Some ((openInterest item - current h) / current h * 100)
  | None => None
  end.

(** No entry that an item of [data] is compared with has a current open
    interest of 0. *)
Definition comparable (history : gmap (Z * bool) OIEntry) (data : list OIData) : Prop :=
  ∀ item h, item ∈ data → history !! key_of item = Some h → ¬ current h == 0.

End OISpurt.

(* ===================================================================== *)
(** * Properties of the implied-volatility solver *)
(* ===================================================================== *)

Module BlackScholesProps.
Import BlackScholes.
Local Open Scope R_scope.

(** ** Rounding *)

Lemma toFixed2_range y : 1 <= y <= 500 → 1 <= toFixed2 y <= 500.
Proof.
  intros [Hlo Hhi]. unfold toFixed2.
  destruct (Rlt_dec y 0) as [Hneg|_]; [Lra.lra|].
  pose proof (Zfloor_bound (y * 100 + 1 / 2)) as [Hfl _].
  assert (H1 : (100 <= Zfloor (y * 100 + 1 / 2))%Z) by (apply Zfloor_lub; Lra.lra).
  assert (H2 : (Zfloor (y * 100 + 1 / 2) < 50001)%Z) by (apply lt_IZR; Lra.lra).
  apply IZR_le in H1. assert (H3 : (Zfloor (y * 100 + 1 / 2) <= 50000)%Z) by lia.
  apply IZR_le in H3. Lra.lra.
Qed.

Lemma toFixed2_30 : toFixed2 (0.3 * 100) = 30.
Proof.
  unfold toFixed2. destruct (Rlt_dec (0.3 * 100) 0) as [Hneg|_]; [Lra.lra|].
  rewrite (Zfloor_eq 3000); [Lra.lra|]. Lra.lra.
Qed.

(** ** The loop *)

Lemma iterate_S fuel marketPrice S K T r kind volatility :
  iterate (Datatypes.S fuel) marketPrice S K T r kind volatility =
    if Rlt_dec (Rabs (marketPrice - blackScholes S K T volatility r kind)) tolerance
    then (Converged, volatility)
    else if Rlt_dec (S * normalCDF (d1_of S K T volatility r) * sqrt T) 0.0001
    then (FlatVega, volatility)
    else iterate fuel marketPrice S K T r kind
           (Rmax 0.01
              (Rmin (volatility
                     + (marketPrice - blackScholes S K T volatility r kind)
                       / (S * normalCDF (d1_of S K T volatility r) * sqrt T * 100))
                    5.0)).
Proof. reflexivity. Qed.

(** A price within the tolerance at the current volatility ends the loop
    at once. *)
Lemma iterate_converged fuel marketPrice S K T r kind volatility :
  Rabs (marketPrice - blackScholes S K T volatility r kind) < tolerance →
  iterate (Datatypes.S fuel) marketPrice S K T r kind volatility
  = (Converged, volatility).
Proof. intros H. rewrite iterate_S. by destruct (Rlt_dec _ _). Qed.

(** The volatility stays in the clamp range, and the tolerance exit is
    taken only on a price within the tolerance. *)
Lemma iterate_spec fuel marketPrice S K T r kind volatility :
  0.01 <= volatility <= 5 →
  let '(exit, v) := iterate fuel marketPrice S K T r kind volatility in
  0.01 <= v <= 5
  ∧ (exit = Converged →
     Rabs (marketPrice - blackScholes S K T v r kind) < tolerance).
Proof.
  revert volatility. induction fuel as [|fuel IH]; intros volatility Hv.
  - cbn. split; [done|]. discriminate.
  - rewrite iterate_S.
    destruct (Rlt_dec _ tolerance) as [Hconv|_]; [by split|].
    destruct (Rlt_dec _ 0.0001) as [_|_]; [split; [done | discriminate]|].
    apply IH. split.
    + apply Rmax_l.
    + apply Rmax_lub; [Lra.lra|].
      eapply Rle_trans; [apply Rmin_r | Lra.lra].
Qed.

(** A price within the tolerance at the initial guess: the solver answers
    30 without taking a step. *)
Lemma solver_flat_start marketPrice S K T r kind :
  Rabs (marketPrice - blackScholes S K T 0.3 r kind) < tolerance →
  calculateImpliedVolatility marketPrice S K T r kind = 30.
Proof.
  intros Hfirst. unfold calculateImpliedVolatility, maxIterations.
  rewrite iterate_converged by done. apply toFixed2_30.
Qed.

(** ** The tail of the normal distribution *)

Lemma exp_128 : 6975757441 <= exp 128.
Proof.
  assert (H16 : 17 <= exp 16).
  { left. replace 17 with (1 + 16) by Lra.lra. apply exp_ineq1. Lra.lra. }
  assert (H32 : 289 <= exp 32).
  { replace 32 with (16 + 16) by Lra.lra. rewrite exp_plus. Lra.nra. }
  assert (H64 : 83521 <= exp 64).
  { replace 64 with (32 + 32) by Lra.lra. rewrite exp_plus. Lra.nra. }
  replace 128 with (64 + 64) by Lra.lra. rewrite exp_plus. Lra.nra.
Qed.

Lemma exp_le_mono x y : x <= y → exp x <= exp y.
Proof.
  intros [Hlt | ->]; [left; by apply exp_increasing | apply Rle_refl].
Qed.

(** Sixteen standard deviations out, the approximation is below 4.4e-10 in
    magnitude. *)
Lemma normalCDF_tail x : x <= -16 → Rabs (normalCDF x) * 6975757441 <= 3.
Proof.
  intros Hx. unfold normalCDF.
  destruct (Rlt_dec 0 x) as [Hpos|_]; [Lra.lra|].
  set (t := 1 / (1 + 0.2316419 * Rabs x)).
  set (e := exp (- x * x / 2)).
  set (poly := 0.3193815 +
               t * (-0.3565638 + t * (1.781478 + t * (-1.821256 + t * 1.330274)))).
  assert (Ht : 0 < t <= 1).
  { pose proof (Rabs_pos x) as Ha. unfold t, Rdiv. rewrite Rmult_1_l.
    set (den := 1 + 0.2316419 * Rabs x).
    assert (Hden : 1 <= den) by (unfold den; Lra.lra).
    assert (Hinv : 0 < / den) by (apply Rinv_0_lt_compat; Lra.lra).
    assert (Hone : / den * den = 1) by (field; Lra.lra).
    split; [done | Lra.nra]. }
  assert (He : 0 < e ∧ e * 6975757441 <= 1).
  { split; [apply exp_pos|].
    assert (Hle : e <= / exp 128).
    { rewrite <- exp_Ropp. apply exp_le_mono. Lra.nra. }
    pose proof exp_128 as H128.
    pose proof (exp_pos 128) as Hp.
    assert (Hinv : / exp 128 * exp 128 = 1) by (field; Lra.lra).
    Lra.nra. }
  assert (Hpoly : -6 <= poly <= 6) by (unfold poly; split; Lra.nra).
  assert (Hu : -6 <= t * poly <= 6) by (split; Lra.nra).
  set (u := t * poly) in *.
  replace (0.3989423 * e * t * poly) with (0.3989423 * (e * u)) by (unfold u; ring).
  destruct He as [He0 He1].
  assert (Heu : -6 * e <= e * u <= 6 * e) by (split; Lra.nra).
  assert (Habs : Rabs (0.3989423 * (e * u)) <= 3 * e).
  { apply Rabs_le. split; Lra.nra. }
  Lra.nra.
Qed.

(** ** A deep out-of-the-money call *)

Lemma sqrt_hundredth : sqrt 0.01 = 0.1.
Proof.
  replace 0.01 with (0.1 * 0.1) by Lra.lra. apply sqrt_square. Lra.lra.
Qed.

Lemma ln_half : ln (100 / 200) < - (1 / 2).
Proof.
  replace (100 / 200) with (/ 2) by Lra.lra.
  rewrite ln_Rinv by Lra.lra. pose proof ln_lt_2. Lra.lra.
Qed.

(** Spot 100, strike 200, 0.01 years to expiry, no interest: for every
    volatility from 10% to 30%, [d1] and [d2] are below -16. *)
Lemma deep_otm_d1 vol :
  0.1 <= vol <= 0.3 →
  d1_of 100 200 0.01 vol 0 <= -16
  ∧ d1_of 100 200 0.01 vol 0 - vol * sqrt 0.01 <= -16.
Proof.
  intros Hvol. unfold d1_of. rewrite sqrt_hundredth.
  pose proof ln_half as Hln.
  set (num := ln (100 / 200) + (0 + vol * vol / 2) * 0.01) in *.
  assert (Hnum : num <= -0.49) by (unfold num; Lra.nra).
  assert (Hd : num / (vol * 0.1) * (vol * 0.1) = num) by (field; Lra.lra).
  set (q := num / (vol * 0.1)) in *.
  assert (q <= -16) by Lra.nra.
  split; Lra.nra.
Qed.

Lemma deep_otm_price vol :
  0.1 <= vol <= 0.3 →
  Rabs (blackScholes 100 200 0.01 vol 0 call) * 6975757441 <= 900.
Proof.
  intros Hvol. unfold blackScholes.
  destruct (deep_otm_d1 vol Hvol) as [H1 H2].
  pose proof (normalCDF_tail _ H1) as N1.
  pose proof (normalCDF_tail _ H2) as N2.
  replace (- 0 * 0.01) with 0 by Lra.lra. rewrite exp_0.
  set (n1 := normalCDF (d1_of 100 200 0.01 vol 0)) in *.
  set (n2 := normalCDF (d1_of 100 200 0.01 vol 0 - vol * sqrt 0.01)) in *.
  assert (Htri : Rabs (100 * n1 - 200 * 1 * n2) <= 100 * Rabs n1 + 200 * Rabs n2).
  { apply Rabs_le.
    pose proof (Rle_abs n1). pose proof (Rle_abs (- n1)) as A1.
    pose proof (Rle_abs n2). pose proof (Rle_abs (- n2)) as A2.
    rewrite Rabs_Ropp in A1, A2. split; Lra.lra. }
  Lra.lra.
Qed.

(** The prices of that call at 10% and at 30% volatility are closer than
    the tolerance of the solver. *)
Lemma deep_otm_prices_close :
  Rabs (blackScholes 100 200 0.01 0.1 0 call - blackScholes 100 200 0.01 0.3 0 call)
  < tolerance.
Proof.
  pose proof (deep_otm_price 0.1 ltac:(Lra.lra)) as P1.
  pose proof (deep_otm_price 0.3 ltac:(Lra.lra)) as P3.
  set (p1 := blackScholes 100 200 0.01 0.1 0 call) in *.
  set (p3 := blackScholes 100 200 0.01 0.3 0 call) in *.
  assert (Htri : Rabs (p1 - p3) <= Rabs p1 + Rabs p3).
  { apply Rabs_le.
    pose proof (Rle_abs p1). pose proof (Rle_abs (- p1)) as A1.
    pose proof (Rle_abs p3). pose proof (Rle_abs (- p3)) as A3.
    rewrite Rabs_Ropp in A1, A3. split; Lra.lra. }
  unfold tolerance. Lra.lra.
Qed.




End BlackScholesProps.

(* ===================================================================== *)
(** * Properties of the snapshot caches *)
(* ===================================================================== *)

Module CacheProps.

(** ** The in-process cache *)
Section InProcess.
Import OptionChainCache.
Context {A : Type}.
Implicit Types (cache : gmap string (list (CacheEntry A))) (l : list (CacheEntry A)).

Lemma getAll_store s e d now cache :
  getAll s e (store s e d now cache) = pushed (getAll s e cache) d now.
Proof. unfold getAll, store. by rewrite lookup_insert_eq. Qed.

Lemma getPrevious_getAll s e cache :
  getPrevious s e cache =
    let l := getAll s e cache in
    if (2 <=? length l)%nat then data <$> l !! (length l - 2)%nat else None.
Proof. reflexivity. Qed.

Lemma pushed_length l d now :
  (length l ≤ 3 → length (pushed l d now) ≤ 3)%nat.
Proof.
  intros Hl. unfold pushed, MAX_ENTRIES, shift.
  rewrite length_app. simpl.
  destruct (3 <? length l + 1)%nat eqn:E.
  - destruct l; simpl in *; [lia|]. rewrite length_app. simpl. lia.
  - apply Nat.ltb_ge in E. rewrite length_app. simpl. lia.
Qed.

Lemma bounded_getAll s e cache : bounded cache → (length (getAll s e cache) ≤ 3)%nat.
Proof.
  intros Hb. unfold getAll.
  destruct (cache !! getCacheKey s e) eqn:E; simpl; [by eapply Hb | lia].
Qed.

Lemma step_bounded cache o : bounded cache → bounded (step cache o).
Proof.
  intros Hb k l. destruct o as [s e d now | s e |]; simpl.
  - unfold store. destruct (decide (getCacheKey s e = k)) as [<-|Hne].
    + rewrite lookup_insert_eq. intros [= <-].
      apply (pushed_length (default [] (cache !! getCacheKey s e))).
      apply (bounded_getAll s e cache Hb).
    + rewrite lookup_insert_ne by done. apply Hb.
  - unfold clear. intros Hl. apply lookup_delete_Some in Hl as [_ Hl]. by eapply Hb.
  - unfold clearAll. by rewrite lookup_empty.
Qed.

Lemma run_from_bounded (ops : list (op A)) cache : bounded cache → bounded (foldl step cache ops).
Proof.
  revert cache. induction ops as [|o ops IH]; intros cache Hb; simpl; [done|].
  apply IH. by apply step_bounded.
Qed.

Lemma run_bounded (ops : list (op A)) : bounded (run ops).
Proof. apply run_from_bounded. intros k l. by rewrite lookup_empty. Qed.

Lemma four_pushes l a b c d t1 t2 t3 t4 :
  (length l ≤ 3)%nat →
  pushed (pushed (pushed (pushed l a t1) b t2) c t3) d t4
  = [mkEntry t2 b; mkEntry t3 c; mkEntry t4 d].
Proof.
  intros Hl.
  destruct l as [|x [|y [|z [|w l]]]]; simpl in Hl; try lia; reflexivity.
Qed.

Lemma getPrevious_two s e cache l e1 e2 :
  getAll s e cache = l ++ [e1; e2] → getPrevious s e cache = Some (data e1).
Proof.
  intros Hl. rewrite getPrevious_getAll. cbv zeta. rewrite Hl, length_app.
  simpl length.
  replace (2 <=? length l + 2)%nat with true by (symmetry; apply Nat.leb_le; lia).
  replace (length l + 2 - 2)%nat with (length l) by lia.
  rewrite lookup_app_r by lia. by rewrite Nat.sub_diag.
Qed.

Lemma getPrevious_short s e cache :
  (length (getAll s e cache) < 2)%nat → getPrevious s e cache = None.
Proof.
  intros Hl. rewrite getPrevious_getAll. cbv zeta.
  destruct (2 <=? _)%nat eqn:E; [apply Nat.leb_le in E; lia | done].
Qed.
End InProcess.

(** ** The Redis-backed cache *)
Section Redis.
Import RedisCache.
Context {A : Type}.
Implicit Types (r : Redis A) (l : list (CacheEntry A)).

Lemma redis_store_not_ready s e d now r :
  status r ≠ Ready → store s e d now r = r.
Proof. intros H. unfold store. by destruct (status r). Qed.

Lemma redis_getPrevious_not_ready s e now r :
  status r ≠ Ready → getPrevious s e now r = None.
Proof. intros H. unfold getPrevious. by destruct (status r). Qed.

Lemma redis_store_ready s e d now r :
  status r = Ready →
  store s e d now r =
    setex (getCacheKey s e) TTL_SECONDS (pushed (getAll s e now r) d now) now r.
Proof. intros H. unfold store. by rewrite H. Qed.

Lemma redis_status_store s e d now r : status (store s e d now r) = status r.
Proof. unfold store. by destruct (is_ready (status r)). Qed.

Lemma redis_getAll_setex key l now now' r s e :
  key = getCacheKey s e → (now' < now + TTL_MS)%Z →
  getAll s e now' (setex key TTL_SECONDS l now r) = l.
Proof.
  intros -> Hlt. unfold getAll, get, setex. simpl.
  rewrite lookup_insert_eq.
  fold TTL_MS. by apply Z.ltb_lt in Hlt as ->.
Qed.

(** Reading a key less than a TTL after a store on a ready client. *)
Lemma redis_getAll_store s e d now now' r :
  status r = Ready → (now' < now + TTL_MS)%Z →
  getAll s e now' (store s e d now r) = pushed (getAll s e now r) d now.
Proof.
  intros Hr Hlt. rewrite redis_store_ready by done.
  by apply redis_getAll_setex.
Qed.

Lemma slice_last_short n l : (length l ≤ n)%nat → slice_last n l = l.
Proof.
  intros H. unfold slice_last.
  by replace (length l - n)%nat with 0%nat by lia.
Qed.

Lemma pushed_slice l d now : pushed l d now = slice_last 3 (l ++ [mkEntry now d]).
Proof.
  unfold pushed, MAX_ENTRIES.
  destruct (3 <? _)%nat eqn:E; [done|].
  apply Nat.ltb_ge in E. by rewrite slice_last_short.
Qed.

Lemma slice_last_app n l l2 :
  slice_last n (slice_last n l ++ l2) = slice_last n (l ++ l2).
Proof.
  unfold slice_last. rewrite !length_app, length_drop, !drop_app, drop_drop, length_drop.
  f_equal;
    match goal with |- drop ?i ?x = drop ?j ?x => by replace i with j by lia end.
Qed.

Lemma pushed_after_slice l d now :
  pushed (slice_last 3 l) d now = slice_last 3 (l ++ [mkEntry now d]).
Proof. by rewrite pushed_slice, slice_last_app. Qed.

Lemma slice_last_length n l : (length (slice_last n l) ≤ n)%nat.
Proof. unfold slice_last. rewrite length_drop. lia. Qed.

Lemma redis_four_pushes l a b c d t1 t2 t3 t4 :
  pushed (pushed (pushed (pushed l a t1) b t2) c t3) d t4
  = [mkEntry t2 b; mkEntry t3 c; mkEntry t4 d].
Proof.
  rewrite (pushed_slice l), !pushed_after_slice, <- !(assoc_L (++)). simpl.
  unfold slice_last. rewrite length_app. simpl.
  replace (length l + 4 - 3)%nat with (length l + 1)%nat by lia.
  rewrite drop_app, drop_ge by lia.
  by replace (length l + 1 - length l)%nat with 1%nat by lia.
Qed.

Lemma redis_getPrevious_getAll s e now r :
  status r = Ready →
  getPrevious s e now r =
    let l := getAll s e now r in
    if (2 <=? length l)%nat then data <$> l !! (length l - 2)%nat else None.
Proof.
  intros Hr. unfold getPrevious, getAll. rewrite Hr. simpl.
  by destruct (get _ _ _).
Qed.

Lemma redis_getPrevious_two s e now r l e1 e2 :
  status r = Ready →
  getAll s e now r = l ++ [e1; e2] → getPrevious s e now r = Some (data e1).
Proof.
  intros Hr Hl. rewrite redis_getPrevious_getAll by done. cbv zeta.
  rewrite Hl, length_app. simpl length.
  replace (2 <=? length l + 2)%nat with true by (symmetry; apply Nat.leb_le; lia).
  replace (length l + 2 - 2)%nat with (length l) by lia.
  rewrite lookup_app_r by lia. by rewrite Nat.sub_diag.
Qed.

Lemma redis_getPrevious_short s e now r :
  (length (getAll s e now r) < 2)%nat → getPrevious s e now r = None.
Proof.
  unfold getPrevious, getAll. destruct (is_ready (status r)); cbn [negb]; [|done].
  destruct (get _ _ _) as [l|]; [|done].
  intros Hl. simpl in Hl.
  by replace (2 <=? length l)%nat with false by (symmetry; apply Nat.leb_gt; lia).
Qed.

Lemma redis_step_bounded r o : bounded r → bounded (step r o).
Proof.
  intros Hb k expires l. destruct o as [s e d now | s e | st]; simpl.
  - unfold store. destruct (is_ready (status r)); simpl; [|apply Hb].
    destruct (decide (getCacheKey s e = k)) as [<-|Hne].
    + rewrite lookup_insert_eq. intros [= _ <-].
      fold (pushed (default [] (get (getCacheKey s e) now r)) d now).
      rewrite pushed_slice. apply slice_last_length.
    + rewrite lookup_insert_ne by done. apply Hb.
  - intros Hl. apply lookup_delete_Some in Hl as [_ Hl]. by eapply Hb.
  - apply Hb.
Qed.

Lemma redis_run_bounded ops : bounded (A:=A) (run ops).
Proof.
  unfold run. assert (Hi : bounded (A:=A) init).
  { intros k expires l. simpl. by rewrite lookup_empty. }
  revert Hi. generalize (init (A:=A)).
  induction ops as [|o ops IH]; intros r Hb; simpl; [done|].
  apply IH. by apply redis_step_bounded.
Qed.

Lemma redis_getAll_bounded s e now r :
  bounded r → (length (getAll s e now r) ≤ 3)%nat.
Proof.
  intros Hb. unfold getAll, get.
  destruct (db r !! getCacheKey s e) as [[expires l]|] eqn:E; simpl; [|lia].
  destruct (now <? expires)%Z; simpl; [by eapply Hb | lia].
Qed.
End Redis.

(** C3 (as amended).  For the in-process [OptionChainCache] always, and for
    [RedisCache] while its client is ready and every call comes less than
    the 24 h TTL after the store before it: after [store a], [store b],
    [store c], [store d] on one key, the key holds exactly the snapshots
    [b, c, d] in that order and [getPrevious] returns [c].  Both caches
    never hold more than three snapshots under a key; [getPrevious] returns
    the payload of the entry before the last one when the key holds two or
    more (on Redis: when the client is ready), and null when it holds fewer
    than two.  While the Redis client is not ready, [store] changes nothing
    and [getPrevious] returns null. *)
Theorem C3_snapshot_history {A : Type}
    (s e : string) (a b c d : A) (t1 t2 t3 t4 : Z) :
  (∀ ops : list (OptionChainCache.op A),
     let cache := OptionChainCache.run ops in
     let cache' :=
       OptionChainCache.store s e d t4 (OptionChainCache.store s e c t3
         (OptionChainCache.store s e b t2 (OptionChainCache.store s e a t1 cache))) in
     OptionChainCache.getAll s e cache' = [mkEntry t2 b; mkEntry t3 c; mkEntry t4 d]
     ∧ OptionChainCache.getPrevious s e cache' = Some c
     ∧ (∀ s' e', length (OptionChainCache.getAll s' e' cache') ≤ 3)%nat)
  ∧ (∀ (cache : gmap string (list (CacheEntry A))) s' e',
       (∀ l e1 e2, OptionChainCache.getAll s' e' cache = l ++ [e1; e2] →
                   OptionChainCache.getPrevious s' e' cache = Some (data e1))
       ∧ ((length (OptionChainCache.getAll s' e' cache) < 2)%nat →
          OptionChainCache.getPrevious s' e' cache = None))
  ∧ (∀ (r : RedisCache.Redis A) (t : Z),
       RedisCache.status r = RedisCache.Ready →
       (t2 < t1 + RedisCache.TTL_MS)%Z →
       (t3 < t2 + RedisCache.TTL_MS)%Z →
       (t4 < t3 + RedisCache.TTL_MS)%Z →
       (t < t4 + RedisCache.TTL_MS)%Z →
       let r' :=
         RedisCache.store s e d t4 (RedisCache.store s e c t3
           (RedisCache.store s e b t2 (RedisCache.store s e a t1 r))) in
       RedisCache.getAll s e t r' = [mkEntry t2 b; mkEntry t3 c; mkEntry t4 d]
       ∧ RedisCache.getPrevious s e t r' = Some c)
  ∧ (∀ (rops : list (RedisCache.op A)) s' e' now,
       (length (RedisCache.getAll s' e' now (RedisCache.run rops)) ≤ 3)%nat)
  ∧ (∀ (r : RedisCache.Redis A) s' e' now,
       (RedisCache.status r = RedisCache.Ready →
        ∀ l e1 e2, RedisCache.getAll s' e' now r = l ++ [e1; e2] →
                   RedisCache.getPrevious s' e' now r = Some (data e1))
       ∧ ((length (RedisCache.getAll s' e' now r) < 2)%nat →
          RedisCache.getPrevious s' e' now r = None)
       ∧ (RedisCache.status r ≠ RedisCache.Ready →
          RedisCache.store s' e' a now r = r
          ∧ RedisCache.getPrevious s' e' now r = None)).
Proof.
  split; [|split; [|split; [|split]]].
  - intros ops. cbv zeta. split; [|split].
    + rewrite !getAll_store. apply four_pushes, bounded_getAll, run_bounded.
    + apply (getPrevious_two _ _ _ [mkEntry t2 b] (mkEntry t3 c) (mkEntry t4 d)).
      rewrite !getAll_store. apply four_pushes, bounded_getAll, run_bounded.
    + intros s' e'. apply bounded_getAll.
      apply (step_bounded _ (OptionChainCache.Store s e d t4)).
      apply (step_bounded _ (OptionChainCache.Store s e c t3)).
      apply (step_bounded _ (OptionChainCache.Store s e b t2)).
      apply (step_bounded _ (OptionChainCache.Store s e a t1)).
      apply run_bounded.
  - intros cache s' e'. split; [apply getPrevious_two | apply getPrevious_short].
  - intros r t Hready H12 H23 H34 H4. cbv zeta.
    assert (Hall : RedisCache.getAll s e t
              (RedisCache.store s e d t4 (RedisCache.store s e c t3
                (RedisCache.store s e b t2 (RedisCache.store s e a t1 r))))
            = [mkEntry t2 b; mkEntry t3 c; mkEntry t4 d]).
    { rewrite !redis_getAll_store, redis_four_pushes;
        rewrite ?redis_status_store; done. }
    split; [done|].
    apply (redis_getPrevious_two _ _ _ _ [mkEntry t2 b] (mkEntry t3 c) (mkEntry t4 d));
      [by rewrite !redis_status_store | done].
  - intros. apply redis_getAll_bounded, redis_run_bounded.
  - intros r s' e' now. split; [|split].
    + intros Hr l e1 e2. by apply redis_getPrevious_two.
    + apply redis_getPrevious_short.
    + intros Hr. split;
        [by apply redis_store_not_ready | by apply redis_getPrevious_not_ready].
Qed.

(** The theorem at work: four stores one second apart on a ready client. *)
Lemma C3_snapshot_history_witness :
  RedisCache.getPrevious "NIFTY" "2025-11-28" 5000
    (RedisCache.store "NIFTY" "2025-11-28" "d" 4000
      (RedisCache.store "NIFTY" "2025-11-28" "c" 3000
        (RedisCache.store "NIFTY" "2025-11-28" "b" 2000
          (RedisCache.store "NIFTY" "2025-11-28" "a" 1000
            (RedisCache.mkRedis RedisCache.Ready ∅)))))
  = Some "c".
Proof.
  refine (proj2 (proj1 (proj2 (proj2
    (C3_snapshot_history (A:=string)
       "NIFTY" "2025-11-28" "a" "b" "c" "d" 1000 2000 3000 4000)))
    (RedisCache.mkRedis RedisCache.Ready ∅) 5000%Z _ _ _ _ _));
    reflexivity.
Defined.

(** C3 as stated fails on the Redis-backed cache: a client that has not
    reached ['ready'] skips every store, so after four stores the key holds
    nothing and [getPrevious] is null, not the third payload. *)
Lemma C3_redis_not_ready_counterexample :
  let r := RedisCache.run
    [RedisCache.Store "NIFTY" "2025-11-28" "a" 1000;
     RedisCache.Store "NIFTY" "2025-11-28" "b" 2000;
     RedisCache.Store "NIFTY" "2025-11-28" "c" 3000;
     RedisCache.Store "NIFTY" "2025-11-28" "d" 4000] in
  RedisCache.getAll "NIFTY" "2025-11-28" 5000 r = []
  ∧ RedisCache.getPrevious "NIFTY" "2025-11-28" 5000 r = None
  ∧ RedisCache.getPrevious "NIFTY" "2025-11-28" 5000 r ≠ Some "c".
Proof. vm_compute. repeat split; discriminate. Qed.

End CacheProps.

(* ===================================================================== *)
(** * Properties of the pricing helpers and the colour rules *)
(* ===================================================================== *)

Module NumProps.
Import Num.
Local Open Scope Q_scope.

Lemma Qltb_lt x y : Qltb x y = true ↔ x < y.
Proof.
  unfold Qltb. rewrite negb_true_iff, <- not_true_iff_false, Qle_bool_iff.
  split; [apply Qnot_le_lt | apply Qlt_not_le].
Qed.

Lemma Qltb_ge x y : Qltb x y = false ↔ y <= x.
Proof. unfold Qltb. by rewrite negb_false_iff, Qle_bool_iff. Qed.

Lemma Qle_bool_gt x y : Qle_bool x y = false ↔ y < x.
Proof.
  rewrite <- not_true_iff_false, Qle_bool_iff.
  split; [apply Qnot_le_lt | apply Qlt_not_le].
Qed.

Lemma Qeq_bool_false x y : Qeq_bool x y = false ↔ ¬ x == y.
Proof. by rewrite <- not_true_iff_false, Qeq_bool_iff. Qed.

Lemma checked_div_nonzero a b : ¬ b == 0 → checked_div a b = Some (a / b).
Proof. intros H. unfold checked_div. by apply Qeq_bool_false in H as ->. Qed.

(** Rounding a non-negative number to [f] = 2 places: the result is a
    whole number of hundredths, at most half a hundredth away, ties going
    up. *)
Lemma toFixed2_spec x :
  0 <= x →
  toFixed 2 x = inject_Z (Qfloor (x * 100 + (1 # 2))) / 100
  ∧ x - (1 # 200) < toFixed 2 x ∧ toFixed 2 x <= x + (1 # 200).
Proof.
  intros Hx. unfold toFixed.
  apply Qltb_ge in Hx as Hs. rewrite Hs.
  change (inject_Z (10 ^ Z.of_nat 2)) with 100.
  assert (Ha : Qabs x * 100 + (1 # 2) == x * 100 + (1 # 2)) by (by rewrite Qabs_pos).
  rewrite (Qfloor_comp _ _ Ha).
  split; [done|].
  pose proof (Qfloor_le (x * 100 + (1 # 2))) as Hlo.
  pose proof (Qlt_floor (x * 100 + (1 # 2))) as Hhi.
  rewrite inject_Z_plus in Hhi. change (inject_Z 1) with 1 in Hhi.
  set (n := inject_Z (Qfloor (x * 100 + (1 # 2)))) in *.
  split.
  - apply Qlt_shift_div_l; [reflexivity|]. lra.
  - apply Qle_shift_div_r; [reflexivity|]. lra.
Qed.

Lemma toFixed2_nonneg x : 0 <= x → 0 <= toFixed 2 x.
Proof.
  intros Hx. destruct (toFixed2_spec x Hx) as (-> & _ & _).
  apply Qle_shift_div_l; [reflexivity|]. rewrite Qmult_0_l.
  change 0 with (inject_Z 0). rewrite <- Zle_Qle.
  change 0%Z with (Qfloor 0). apply Qfloor_resp_le. lra.
Qed.

(** A whole number of hundredths is left as it is. *)
Lemma toFixed2_exact (n : Z) : (0 <= n)%Z → toFixed 2 (inject_Z n / 100) == inject_Z n / 100.
Proof.
  intros Hn.
  assert (Hx : 0 <= inject_Z n / 100).
  { apply Qle_shift_div_l; [reflexivity|]. rewrite Qmult_0_l.
    change 0 with (inject_Z 0). by rewrite <- Zle_Qle. }
  destruct (toFixed2_spec _ Hx) as (-> & _ & _).
  assert (Hf : Qfloor (inject_Z n / 100 * 100 + (1 # 2)) = n).
  { assert (He : inject_Z n / 100 * 100 + (1 # 2) == inject_Z n + (1 # 2)) by field.
    rewrite (Qfloor_comp _ _ He).
    apply Z.le_antisymm.
    - apply Z.lt_succ_r. rewrite Zlt_Qlt.
      eapply Qle_lt_trans; [apply Qfloor_le|].
      unfold Z.succ. rewrite inject_Z_plus. change (inject_Z 1) with 1. lra.
    - rewrite <- (Qfloor_Z n) at 1.
      apply Qfloor_resp_le. lra. }
  by rewrite Hf.
Qed.

End NumProps.

Module PricingProps.
Import Num NumProps OptionsPricing.
Local Open Scope Q_scope.

Lemma spec_timeValue_nonneg premium S K kind : 0 <= spec_timeValue premium S K kind.
Proof. destruct kind; apply Q.le_max_l. Qed.

Lemma calculateTimeValue_rounds premium S K kind :
  calculateTimeValue premium S K kind = toFixed 2 (spec_timeValue premium S K kind).
Proof. by destruct kind. Qed.

(** C8 (as amended).  For every premium, spot and strike, and for calls
    and puts alike, [calculateTimeValue] is [max(0, premium - intrinsic)]
    rounded to two decimals: a non-negative whole number of hundredths,
    less than 0.005 below and at most 0.005 above that value, and equal to
    it whenever that value is itself a whole number of hundredths. *)
Theorem C8_time_value_rounded (premium S K : Q) (kind : OptionType) :
  let exact := spec_timeValue premium S K kind in
  let tv := calculateTimeValue premium S K kind in
  (∃ n : Z, (0 <= n)%Z ∧ tv = inject_Z n / 100)
  ∧ exact - (1 # 200) < tv
  ∧ tv <= exact + (1 # 200)
  ∧ (∀ m : Z, exact == inject_Z m / 100 → tv == exact).
Proof.
  cbv zeta. rewrite calculateTimeValue_rounds.
  pose proof (spec_timeValue_nonneg premium S K kind) as Hv.
  set (v := spec_timeValue premium S K kind) in *.
  destruct (toFixed2_spec v Hv) as (Heq & Hlo & Hhi).
  repeat split; try done.
  - exists (Qfloor (v * 100 + (1 # 2))). split; [|done].
    change 0%Z with (Qfloor 0). apply Qfloor_resp_le. lra.
  - intros m Hm.
    assert (Hm0 : (0 <= m)%Z).
    { rewrite Zle_Qle. change (inject_Z 0) with 0.
      assert (inject_Z m == v * 100) by (rewrite Hm; field). lra. }
    rewrite Heq.
    assert (He : v * 100 + (1 # 2) == inject_Z m / 100 * 100 + (1 # 2)) by (by rewrite Hm).
    rewrite (Qfloor_comp _ _ He).
    pose proof (toFixed2_exact m Hm0) as Hx.
    destruct (toFixed2_spec (inject_Z m / 100)) as (Heq' & _).
    { rewrite <- Hm. done. }
    rewrite Heq' in Hx. by rewrite Hx.
Qed.

(** The last part of the theorem at work: a premium of 2.50 one point in
    the money has a time value of exactly 1.50. *)
Lemma C8_time_value_rounded_witness : calculateTimeValue (5 # 2) 100 99 CE == 3 # 2.
Proof.
  apply (proj2 (proj2 (proj2 (C8_time_value_rounded (5 # 2) 100 99 CE))) 150%Z).
  reflexivity.
Defined.

(** C8 as stated fails: a premium of 0.001 at the money has the exact time
    value 0.001, and the code returns 0. *)
Lemma C8_rounding_counterexample :
  calculateTimeValue (1 # 1000) 100 100 CE == 0
  ∧ Qmax 0 ((1 # 1000) - Qmax 0 (100 - 100)) == 1 # 1000
  ∧ ¬ calculateTimeValue (1 # 1000) 100 100 CE
      == Qmax 0 ((1 # 1000) - Qmax 0 (100 - 100)).
Proof. repeat split; vm_compute; congruence. Qed.

End PricingProps.

Module ColorProps.
Import Num NumProps OptionChainUtils.
Local Open Scope Q_scope.

(** Settle the boolean tests of the goal that a hypothesis decides. *)
Ltac qbool :=
  repeat match goal with
  | H : ?x <= ?y |- context [Qle_bool ?x ?y] =>
      rewrite (proj2 (Qle_bool_iff x y) H)
  | H : ?y < ?x |- context [Qle_bool ?x ?y] =>
      rewrite (proj2 (Qle_bool_gt x y) H)
  | H : ?x == ?y |- context [Qeq_bool ?x ?y] =>
      rewrite (proj2 (Qeq_bool_iff x y) H)
  | H : ¬ ?x == ?y |- context [Qeq_bool ?x ?y] =>
      rewrite (proj2 (Qeq_bool_false x y) H)
  | H : ?x < ?y |- context [Qltb ?x ?y] =>
      rewrite (proj2 (Qltb_lt x y) H)
  end.

Lemma isHighest_true oi highest :
  oi == highest → 0 < highest → Qeq_bool oi highest && Qltb 0 highest = true.
Proof.
  intros He Hh. apply andb_true_iff.
  split; [by apply Qeq_bool_iff | by apply Qltb_lt].
Qed.

Lemma isHighest_false oi highest :
  ¬ (oi == highest ∧ 0 < highest) → Qeq_bool oi highest && Qltb 0 highest = false.
Proof.
  intros Hn. apply not_true_iff_false. intros [He Hh]%andb_true_iff.
  apply Hn. split; [by apply Qeq_bool_iff | by apply Qltb_lt].
Qed.

(** The colour functions never divide by zero. *)
Lemma calculateVolumeColor_total volume previous highest isCE :
  is_Some (calculateVolumeColor volume previous highest isCE).
Proof.
  unfold calculateVolumeColor.
  destruct (Qltb 0 previous) eqn:Hp; [|by eexists].
  apply Qltb_lt in Hp. rewrite checked_div_nonzero by lra. by eexists.
Qed.

Lemma calculateOIColor_total oi previous highest isCE :
  is_Some (calculateOIColor oi previous highest isCE).
Proof.
  unfold calculateOIColor.
  destruct (Qeq_bool previous 0) eqn:Hp.
  - destruct (_ && _); by eexists.
  - apply Qeq_bool_false in Hp. rewrite checked_div_nonzero by done. by eexists.
Qed.

(** C5.  [calculateOIColor] for every [oi], [previous], [highest] and side:
    - [oi] equal to a positive [highest]: the strong colour, no fade,
      whatever the change;
    - otherwise, with [previous > 0]: the lighter tint without fade for a
      change of at least +60%, the decay colour with fade for a change of
      -60% or lower, neutral without fade in between;
    - with [previous == 0]: only the highest-check decides and fade is
      false; in particular [(100, 0, 500)] is neutral without fade. *)
Theorem C5_oi_color (oi previous highest : Q) (isCE : bool) :
  (oi == highest → 0 < highest →
     calculateOIColor oi previous highest isCE
     = Some (mkOIColor (strongColor isCE) false))
  ∧ (¬ (oi == highest ∧ 0 < highest) → 0 < previous →
       ((6 # 10) <= (oi - previous) / previous →
          calculateOIColor oi previous highest isCE
          = Some (mkOIColor (oiTint isCE) false))
       ∧ ((oi - previous) / previous <= - (6 # 10) →
          calculateOIColor oi previous highest isCE
          = Some (mkOIColor decayColor true))
       ∧ (- (6 # 10) < (oi - previous) / previous →
          (oi - previous) / previous < (6 # 10) →
          calculateOIColor oi previous highest isCE
          = Some (mkOIColor neutralColor false)))
  ∧ (previous == 0 →
       (¬ (oi == highest ∧ 0 < highest) →
          calculateOIColor oi previous highest isCE
          = Some (mkOIColor neutralColor false))
       ∧ ∃ c, calculateOIColor oi previous highest isCE = Some (mkOIColor c false))
  ∧ calculateOIColor 100 0 500 isCE = Some (mkOIColor neutralColor false).
Proof.
  split; [|split; [|split]].
  - intros He Hh. unfold calculateOIColor. rewrite isHighest_true by done.
    destruct (Qeq_bool previous 0) eqn:Hp; [done|].
    apply Qeq_bool_false in Hp. by rewrite checked_div_nonzero.
  - intros Hn Hp. unfold calculateOIColor.
    rewrite isHighest_false by done.
    assert (Hp0 : ¬ previous == 0) by lra.
    qbool. rewrite checked_div_nonzero by done.
    cbn [bind]. set (change := (oi - previous) / previous).
    repeat split.
    + intros Hinc. by qbool.
    + intros Hdec. assert (Hlt : change < 6 # 10) by lra. by qbool.
    + intros Hlo Hhi. by qbool.
  - intros Hp. unfold calculateOIColor. qbool.
    split.
    + intros Hn. by rewrite isHighest_false.
    + destruct (_ && _); by eexists.
  - by destruct isCE.
Qed.

(** The theorem at work on the scenario of the specification: open
    interest falling from 2800 to 1000 fades, 1000 to 1650 is tinted. *)
Lemma C5_oi_color_witness :
  calculateOIColor 1000 2800 5000 true = Some (mkOIColor decayColor true)
  ∧ calculateOIColor 1650 1000 5000 false = Some (mkOIColor (oiTint false) false)
  ∧ calculateOIColor 5000 1 5000 true = Some (mkOIColor (strongColor true) false).
Proof.
  split; [|split].
  - apply (proj1 (proj2 (proj1 (proj2 (C5_oi_color 1000 2800 5000 true))
             ltac:(intros [H _]; vm_compute in H; discriminate)
             ltac:(reflexivity)))).
    vm_compute. discriminate.
  - apply (proj1 (proj1 (proj2 (C5_oi_color 1650 1000 5000 false))
             ltac:(intros [H _]; vm_compute in H; discriminate)
             ltac:(reflexivity))).
    vm_compute. discriminate.
  - apply (proj1 (C5_oi_color 5000 1 5000 true)); reflexivity.
Defined.

End ColorProps.

Module EnrichmentProps.
Import Num NumProps OptionChainUtils Enrichment ColorProps.
Local Open Scope Q_scope.

(** A value compared with itself is neither rising nor falling. *)
Lemma volume_color_unchanged v highest isCE :
  calculateVolumeColor v v highest isCE = Some (highestOrNeutral v highest isCE).
Proof.
  unfold calculateVolumeColor, highestOrNeutral.
  destruct (Qltb 0 v) eqn:Hv.
  - apply Qltb_lt in Hv. rewrite checked_div_nonzero by lra. cbn [bind].
    assert (Hc : (v - v) / v < 7 # 10).
    { assert (Hz : (v - v) / v == 0) by (field; lra). rewrite Hz. reflexivity. }
    qbool. by destruct (_ && _).
  - cbn [bind]. by destruct (_ && _).
Qed.

Lemma oi_color_unchanged v highest isCE :
  calculateOIColor v v highest isCE
  = Some (mkOIColor (highestOrNeutral v highest isCE) false).
Proof.
  unfold calculateOIColor, highestOrNeutral.
  destruct (Qeq_bool v 0) eqn:Hv.
  - by destruct (_ && _).
  - apply Qeq_bool_false in Hv. rewrite checked_div_nonzero by done. cbn [bind].
    assert (Hz : (v - v) / v == 0) by (by field).
    assert (Hc : (v - v) / v < 6 # 10) by (rewrite Hz; reflexivity).
    assert (Hd : - (6 # 10) < (v - v) / v) by (rewrite Hz; reflexivity).
    qbool. by destruct (_ && _).
Qed.

Lemma enrichStrike_no_history spot atm hcv hpv hco hpo strike :
  ∃ es, enrichStrike spot atm hcv hpv hco hpo None strike = Some es
        ∧ highest_check_only hcv hpv hco hpo es.
Proof.
  unfold enrichStrike. cbn [findPrevious fmap option_fmap option_map mbind option_bind js_or].
  rewrite !volume_color_unchanged, !oi_color_unchanged. cbn [bind].
  eexists. split; [reflexivity|]. by repeat split.
Qed.

Lemma enrichStrike_total spot atm hcv hpv hco hpo previousData strike :
  is_Some (enrichStrike spot atm hcv hpv hco hpo previousData strike).
Proof.
  unfold enrichStrike.
  repeat match goal with
  | |- context [calculateVolumeColor ?a ?b ?c ?d] =>
      destruct (calculateVolumeColor_total a b c d) as [? ->]; cbn [bind]
  | |- context [calculateOIColor ?a ?b ?c ?d] =>
      destruct (calculateOIColor_total a b c d) as [? ->]; cbn [bind]
  end.
  by eexists.
Qed.

Lemma mapFault_Forall {A B} (f : A → option B) (P : B → Prop) (l : list A) :
  (∀ a, ∃ b, f a = Some b ∧ P b) →
  ∃ bs, mapFault f l = Some bs ∧ Forall P bs ∧ length bs = length l.
Proof.
  intros Hf. induction l as [|a l (bs & Hbs & HP & Hlen)]; simpl.
  - exists []. by repeat split.
  - destruct (Hf a) as (b & -> & Hb). rewrite Hbs. cbn [bind].
    exists (b :: bs). repeat split; [by constructor | simpl; by rewrite Hlen].
Qed.

Lemma calculatePCR_total strikes : is_Some (calculatePCR strikes).
Proof.
  unfold calculatePCR. destruct (Qeq_bool _ 0) eqn:E; [by eexists|].
  apply Qeq_bool_false in E. rewrite checked_div_nonzero by done. by eexists.
Qed.

(** C4 (as amended).  A tick never divides by zero, whatever the cache
    returned.  On a tick with no previous snapshot every strike is
    compared with itself, so the percent rules never fire: each volume
    colour and each OI colour of the published payload is the strong
    colour when the strike holds the positive highest value of its side
    among the published strikes and transparent otherwise, and both fade
    flags are false. *)
Theorem C4_no_history (upperSymbol expiry : string) (spotPrice : Q)
    (allStrikes : list StrikeData) (isRealData : bool) :
  (∀ previousData,
     is_Some (buildBroadcast upperSymbol expiry spotPrice allStrikes isRealData
                             previousData))
  ∧ ∃ payload,
      buildBroadcast upperSymbol expiry spotPrice allStrikes isRealData None
      = Some payload
      ∧ let filtered := filterStrikeRange allStrikes spotPrice in
        length (b_strikes payload) = length filtered
        ∧ Forall (highest_check_only
                    (findHighestVolumes filtered).1 (findHighestVolumes filtered).2
                    (findHighestOI filtered).1 (findHighestOI filtered).2)
                 (b_strikes payload).
Proof.
  split.
  - intros previousData. unfold buildBroadcast.
    destruct (findHighestVolumes _) as [hcv hpv], (findHighestOI _) as [hco hpo].
    destruct (mapFault_Forall
                (enrichStrike spotPrice
                   (findATMStrike (filterStrikeRange allStrikes spotPrice) spotPrice)
                   hcv hpv hco hpo previousData)
                (fun _ => True) (filterStrikeRange allStrikes spotPrice))
      as (bs & -> & _).
    { intros a. destruct (enrichStrike_total spotPrice
        (findATMStrike (filterStrikeRange allStrikes spotPrice) spotPrice)
        hcv hpv hco hpo previousData a) as [b ->]. by exists b. }
    cbn [bind]. destruct (calculatePCR_total (filterStrikeRange allStrikes spotPrice))
      as [pcr ->]. by eexists.
  - unfold buildBroadcast.
    destruct (findHighestVolumes _) as [hcv hpv], (findHighestOI _) as [hco hpo].
    destruct (mapFault_Forall
                (enrichStrike spotPrice
                   (findATMStrike (filterStrikeRange allStrikes spotPrice) spotPrice)
                   hcv hpv hco hpo None)
                (highest_check_only hcv hpv hco hpo)
                (filterStrikeRange allStrikes spotPrice))
      as (bs & -> & HP & Hlen).
    { intros a. apply enrichStrike_no_history. }
    cbn [bind]. destruct (calculatePCR_total (filterStrikeRange allStrikes spotPrice))
      as [pcr ->]. cbn [bind].
    eexists. split; [reflexivity|]. by split.
Qed.

(** C4 as stated fails: with no previous snapshot, a strike that holds
    the highest volume and open interest of its side is published in the
    strong colours, not in the neutral one. *)
Lemma C4_highest_counterexample :
  ∃ payload es,
    buildBroadcast "NIFTY" "2025-11-28" 19500
      [mkStrike 19500 1000 0 500 (Some 120) 800 0 300 (Some 95)] true None
    = Some payload
    ∧ b_strikes payload = [es]
    ∧ ceVolumeColor es = "#4caf50" ∧ peVolumeColor es = "#f44336"
    ∧ ceOIColor es = "#4caf50" ∧ peOIColor es = "#f44336"
    ∧ ceVolumeColor es ≠ "transparent".
Proof.
  eexists. eexists. split; [vm_compute; reflexivity|].
  repeat split. discriminate.
Qed.

End EnrichmentProps.

(* ===================================================================== *)
(** * Properties of the broadcaster *)
(* ===================================================================== *)

Module BroadcasterProps.
Import Exn WebSocketService.

Section Service.
Context {A : Type}.
Variable env : Sockets A.
Implicit Types (s : Service A) (ws : nat) (msg : Outbound A).

(** [sendToClient] only touches the log of sends, and never throws:
    the [catch] turns a throwing [ws.send] into [false]. *)
Lemma sendToClient_spec ws msg s :
  sendToClient env ws msg s =
    (Returned (is_open (readyState env ws) && negb (send_throws env ws msg)),
     mkService (clients s) (channelSubscribers s) (next_ws s)
               (sends s ++ fanout env msg [ws])).
Proof.
  unfold sendToClient, fanout. cbn [List.filter].
  destruct (is_open (readyState env ws)); cbn.
  - unfold try_catch, bind, ws_send, bind, modify, throw, ret. cbn.
    by destruct (send_throws env ws msg).
  - unfold ret. rewrite app_nil_r. by destruct s.
Qed.

Lemma fanout_cons msg ws l :
  fanout env msg (ws :: l) = fanout env msg [ws] ++ fanout env msg l.
Proof.
  unfold fanout. cbn [List.filter].
  by destruct (is_open (readyState env ws)).
Qed.

(** The loop of [broadcast] over any list of sockets. *)
Lemma forEach_send msg (l : list nat) s :
  forEach l (fun ws => let! _ok := sendToClient env ws msg in ret tt) s =
    (Returned tt,
     mkService (clients s) (channelSubscribers s) (next_ws s)
               (sends s ++ fanout env msg l)).
Proof.
  revert s. induction l as [|ws l IH]; intros s.
  - cbn. unfold ret, fanout. cbn. rewrite app_nil_r. by destruct s.
  - cbn [forEach]. unfold bind at 1 2. rewrite sendToClient_spec.
    unfold ret at 1. rewrite IH. cbn [clients channelSubscribers next_ws sends].
    by rewrite (fanout_cons msg ws l), (assoc_L (++)).
Qed.

Lemma fanout_delivers msg (l : list nat) ws :
  ws ∈ l → readyState env ws = OPEN → send_throws env ws msg = false →
  (ws, msg, true) ∈ fanout env msg l.
Proof.
  intros Hin Hopen Hsend. unfold fanout.
  apply list_elem_of_fmap. exists ws. rewrite Hsend. split; [done|].
  apply list_elem_of_In, filter_In. split; [by apply list_elem_of_In|].
  by rewrite Hopen.
Qed.

Lemma fanout_attempts msg (l : list nat) ws :
  ws ∈ l → readyState env ws = OPEN →
  ∃ ok, (ws, msg, ok) ∈ fanout env msg l.
Proof.
  intros Hin Hopen. exists (negb (send_throws env ws msg)). unfold fanout.
  apply list_elem_of_fmap. exists ws. split; [done|].
  apply list_elem_of_In, filter_In. split; [by apply list_elem_of_In|].
  by rewrite Hopen.
Qed.

Lemma broadcast_spec channel d now s :
  broadcast env channel d now s =
    (Returned tt,
     mkService (clients s) (channelSubscribers s) (next_ws s)
       (sends s ++ fanout env (Update channel d now)
                     (elements (default ∅ (channelSubscribers s !! channel))))).
Proof.
  unfold broadcast, bind, gets.
  destruct (channelSubscribers s !! channel) as [subscribers|] eqn:E; cbn.
  - destruct (decide (size subscribers = 0%nat)) as [Hz|Hnz].
    + apply size_empty_iff in Hz. apply leibniz_equiv in Hz. subst.
      rewrite elements_empty. unfold ret, fanout. cbn.
      rewrite app_nil_r. by destruct s.
    + apply forEach_send.
  - rewrite elements_empty. unfold ret, fanout. cbn.
    rewrite app_nil_r. by destruct s.
Qed.
End Service.

(** C7.  [broadcast] on any channel, payload and state, whatever the
    sockets do: it returns without throwing; it calls [ws.send] exactly
    once for every subscriber of the channel whose socket is open, in
    iteration order, a call that throws being followed by the calls for
    the remaining subscribers; every open subscriber whose own send does
    not throw gets the update; and the subscription maps are untouched. *)
Theorem C7_broadcast_isolates_failures {A : Type} (env : Sockets A)
    (channel : string) (d : A) (now : Z) (s : Service A) :
  let subscribers := default ∅ (channelSubscribers s !! channel) in
  let message := Update channel d now in
  ∃ s',
    broadcast env channel d now s = (Returned tt, s')
    ∧ sends s' = sends s ++ fanout env message (elements subscribers)
    ∧ (∀ ws, ws ∈ subscribers → readyState env ws = OPEN →
             ∃ ok, (ws, message, ok) ∈ fanout env message (elements subscribers))
    ∧ (∀ ws, ws ∈ subscribers → readyState env ws = OPEN →
             send_throws env ws message = false →
             (ws, message, true) ∈ sends s')
    ∧ clients s' = clients s
    ∧ channelSubscribers s' = channelSubscribers s.
Proof.
  cbv zeta. eexists. split; [apply broadcast_spec|]. cbn.
  repeat split.
  - intros ws Hin Hopen. apply fanout_attempts; [by apply elem_of_elements | done].
  - intros ws Hin Hopen Hsend. apply elem_of_app. right.
    apply fanout_delivers; [by apply elem_of_elements | done | done].
Qed.

(** The theorem at work: three subscribers, the second one's socket
    throws on every send; the third still gets the update. *)
Lemma C7_broadcast_isolates_failures_witness :
  let env := mkSockets (fun _ => OPEN) (fun ws (_ : Outbound string) => Nat.eqb ws 1) in
  let s := mkService (A:=string)
             {[ 0%nat := {["ticks"]}; 1%nat := {["ticks"]}; 2%nat := {["ticks"]} ]}
             {[ "ticks" := {[ 0%nat; 1%nat; 2%nat ]} ]} 3 [] in
  ∃ s', broadcast env "ticks" "payload" 7 s = (Returned tt, s')
        ∧ (2%nat, Update "ticks" "payload" 7, true) ∈ sends s'.
Proof.
  intros env s.
  destruct (C7_broadcast_isolates_failures env "ticks" "payload" 7 s)
    as (s' & Hrun & _ & _ & Hdel & _).
  exists s'. split; [exact Hrun|].
  apply Hdel; [|reflexivity|reflexivity].
  cbn. rewrite lookup_singleton_eq. cbn. set_solver.
Defined.

(** ** The two indices *)
Section Indices.
Context {A : Type}.
Implicit Types (s : Service A) (ws : nat) (key : string)
  (channels : gmap string (gset nat)).

Lemma dropSubscriber_mem ws key channels k w :
  mem (dropSubscriber ws key channels) k w
  ↔ mem channels k w ∧ ¬ (w = ws ∧ k = key).
Proof.
  unfold dropSubscriber, mem.
  destruct (channels !! key) as [S|] eqn:E.
  - destruct (decide (size (S ∖ {[ws]}) = 0%nat)) as [Hz|Hnz].
    + apply size_empty_iff in Hz.
      destruct (decide (k = key)) as [->|Hne].
      * rewrite lookup_delete_eq. split; [by intros (? & ? & ?)|].
        intros [(S' & HS' & Hw) Hn]. rewrite E in HS'. simplify_eq.
        destruct (decide (w = ws)) as [->|Hw']; [by destruct Hn|]. set_solver.
      * rewrite lookup_delete_ne by done. split; [|by intros [? _]].
        intros H. split; [done|]. by intros [_ ?].
    + destruct (decide (k = key)) as [->|Hne].
      * rewrite lookup_insert_eq, E. split.
        -- intros (S' & [= <-] & Hw). split; [exists S; set_solver|].
           intros [-> _]. set_solver.
        -- intros [(S' & [= <-] & Hw) Hn]. eexists. split; [done|].
           apply elem_of_difference. split; [done|].
           intros ->%elem_of_singleton. by apply Hn.
      * rewrite lookup_insert_ne by done. split; [|by intros [? _]].
        intros H. split; [done|]. by intros [_ ?].
  - split; [|by intros [? _]].
    intros (S & HS & Hw). split; [by exists S|].
    intros [_ ->]. by rewrite E in HS.
Qed.

Lemma dropSubscriber_no_empty ws key channels :
  no_empty channels → no_empty (dropSubscriber ws key channels).
Proof.
  intros Hne k S. unfold dropSubscriber.
  destruct (channels !! key) as [S0|] eqn:E; [|apply Hne].
  destruct (decide (size (S0 ∖ {[ws]}) = 0%nat)) as [Hz|Hnz].
  - intros [_ HS]%lookup_delete_Some. by eapply Hne.
  - destruct (decide (key = k)) as [<-|Hk].
    + rewrite lookup_insert_eq. intros [= <-] Hempty.
      apply Hnz. rewrite Hempty. apply size_empty.
    + rewrite lookup_insert_ne by done. apply Hne.
Qed.

(** The loop of [removeClient] over the client's subscriptions. *)
Lemma forEach_drop ws (keys : list string) s :
  forEach keys (fun key =>
    modify (fun s => mkService (clients s)
                       (dropSubscriber ws key (channelSubscribers s))
                       (next_ws s) (sends s))) s
  = (Returned tt,
     mkService (clients s)
       (foldl (fun channels key => dropSubscriber ws key channels)
              (channelSubscribers s) keys)
       (next_ws s) (sends s)).
Proof.
  revert s. induction keys as [|key keys IH]; intros s.
  - cbn. unfold ret. by destruct s.
  - cbn [forEach foldl]. unfold bind, modify at 1. by rewrite IH.
Qed.

Lemma foldl_drop_mem ws (keys : list string) channels k w :
  mem (foldl (fun channels key => dropSubscriber ws key channels) channels keys) k w
  ↔ mem channels k w ∧ ¬ (w = ws ∧ k ∈ keys).
Proof.
  revert channels. induction keys as [|key keys IH]; intros channels; cbn [foldl].
  - split; [|by intros [? _]]. intros H. split; [done|].
    intros [_ Hin]. by apply elem_of_nil in Hin.
  - rewrite IH, dropSubscriber_mem. rewrite elem_of_cons. tauto.
Qed.

Lemma foldl_drop_no_empty ws (keys : list string) channels :
  no_empty channels →
  no_empty (foldl (fun channels key => dropSubscriber ws key channels) channels keys).
Proof.
  revert channels. induction keys as [|key keys IH]; intros channels H; cbn [foldl].
  - done.
  - by apply IH, dropSubscriber_no_empty.
Qed.

Lemma invariant_init : invariant (init (A:=A)).
Proof.
  split; [split|].
  - intros ws key. unfold subscriber, subscription. cbn.
    setoid_rewrite lookup_empty. split; by intros (? & ? & _).
  - intros key S. cbn. by rewrite lookup_empty.
  - intros ws. cbn. rewrite lookup_empty. by intros [? ?].
Qed.

(** A send leaves the invariant alone. *)
Lemma invariant_sends s (l : list (nat * Outbound A * bool)) :
  invariant s →
  invariant (mkService (clients s) (channelSubscribers s) (next_ws s) l).
Proof. by intros [[H1 H2] H3]. Qed.

Lemma invariant_sendToClient env ws msg s :
  invariant s → invariant (sendToClient env ws msg s).2.
Proof.
  intros H. rewrite (sendToClient_spec env ws msg s). by apply invariant_sends.
Qed.

Lemma invariant_subscribe env ws channel symbol expiry now s :
  invariant s → invariant (subscribe env ws channel symbol expiry now s).2.
Proof.
  intros [[Hiff Hne] Hfresh]. unfold subscribe, bind at 1, gets.
  destruct (clients s !! ws) as [subscriptions|] eqn:Hc;
    [|exact (conj (conj Hiff Hne) Hfresh)].
  unfold bind, modify. rewrite sendToClient_spec. cbn.
  set (key := subscriptionKey channel symbol expiry).
  split; [split|]; cbn.
  - intros w k. unfold subscriber, subscription. cbn.
    specialize (Hiff w k). unfold subscriber, subscription in Hiff.
    destruct (decide (k = key)) as [->|Hk], (decide (w = ws)) as [->|Hw].
    + rewrite !lookup_insert_eq. split; intros _; eexists; split; try done; set_solver.
    + rewrite lookup_insert_eq, lookup_insert_ne by done.
      rewrite <- Hiff. split.
      * intros (S & [= <-] & Hin).
        destruct (channelSubscribers s !! key) as [S0|]; cbn in Hin; [|set_solver].
        exists S0. split; [done|]. set_solver.
      * intros (S & HS & Hin). rewrite HS. eexists. split; [done|]. cbn. set_solver.
    + rewrite lookup_insert_ne, lookup_insert_eq by done.
      rewrite Hiff, Hc. split.
      * intros (S & [= <-] & Hin). eexists. split; [done|]. set_solver.
      * intros (S & [= <-] & Hin). eexists. split; [done|]. set_solver.
    + by rewrite !lookup_insert_ne.
  - intros k S. destruct (decide (key = k)) as [<-|Hk].
    + rewrite lookup_insert_eq. intros [= <-]. set_solver.
    + rewrite lookup_insert_ne by done. apply Hne.
  - intros w. destruct (decide (ws = w)) as [<-|Hw].
    + intros _. apply Hfresh. by rewrite Hc.
    + rewrite lookup_insert_ne by done. apply Hfresh.
Qed.

Lemma invariant_unsubscribe env ws channel symbol expiry now s :
  invariant s → invariant (unsubscribe env ws channel symbol expiry now s).2.
Proof.
  intros [[Hiff Hne] Hfresh]. unfold unsubscribe, bind at 1, gets.
  destruct (clients s !! ws) as [subscriptions|] eqn:Hc;
    [|exact (conj (conj Hiff Hne) Hfresh)].
  unfold bind, modify. rewrite sendToClient_spec. cbn.
  set (key := subscriptionKey channel symbol expiry).
  split; [split|]; cbn.
  - intros w k. unfold subscriber. cbn.
    fold (mem (dropSubscriber ws key (channelSubscribers s)) k w).
    rewrite dropSubscriber_mem. unfold mem.
    specialize (Hiff w k). unfold subscriber in Hiff. rewrite Hiff.
    unfold subscription. cbn.
    destruct (decide (w = ws)) as [->|Hw].
    + rewrite lookup_insert_eq, Hc. split.
      * intros [(S & [= <-] & Hin) Hn]. eexists. split; [done|].
        apply elem_of_difference. split; [done|].
        intros ->%elem_of_singleton. by apply Hn.
      * intros (S & [= <-] & Hin). split; [exists subscriptions; set_solver|].
        intros [_ ->]. set_solver.
    + rewrite lookup_insert_ne by done. split; [by intros [? _]|].
      intros H. split; [done|]. by intros [? _].
  - by apply dropSubscriber_no_empty.
  - intros w. destruct (decide (ws = w)) as [<-|Hw].
    + intros _. apply Hfresh. by rewrite Hc.
    + rewrite lookup_insert_ne by done. apply Hfresh.
Qed.

Lemma subscribe_known env ws channel symbol expiry now s subscriptions :
  clients s !! ws = Some subscriptions →
  let key := subscriptionKey channel symbol expiry in
  subscribe env ws channel symbol expiry now s =
    (Returned tt,
     mkService (<[ws := subscriptions ∪ {[key]}]> (clients s))
       (<[key := default ∅ (channelSubscribers s !! key) ∪ {[ws]}]>
          (channelSubscribers s))
       (next_ws s) (sends s ++ fanout env (Subscribed key now) [ws])).
Proof.
  intros Hc. unfold subscribe, bind at 1, gets. rewrite Hc.
  unfold bind, modify. by rewrite sendToClient_spec.
Qed.

Lemma unsubscribe_known env ws channel symbol expiry now s subscriptions :
  clients s !! ws = Some subscriptions →
  let key := subscriptionKey channel symbol expiry in
  unsubscribe env ws channel symbol expiry now s =
    (Returned tt,
     mkService (<[ws := subscriptions ∖ {[key]}]> (clients s))
       (dropSubscriber ws key (channelSubscribers s))
       (next_ws s) (sends s ++ fanout env (Unsubscribed key now) [ws])).
Proof.
  intros Hc. unfold unsubscribe, bind at 1, gets. rewrite Hc.
  unfold bind, modify. by rewrite sendToClient_spec.
Qed.

Lemma subscribe_returns env ws channel symbol expiry now s :
  ∃ s', subscribe env ws channel symbol expiry now s = (Returned tt, s').
Proof.
  unfold subscribe, bind at 1, gets.
  destruct (clients s !! ws); [|by eexists].
  unfold bind, modify. rewrite sendToClient_spec. by eexists.
Qed.

Lemma unsubscribe_returns env ws channel symbol expiry now s :
  ∃ s', unsubscribe env ws channel symbol expiry now s = (Returned tt, s').
Proof.
  unfold unsubscribe, bind at 1, gets.
  destruct (clients s !! ws); [|by eexists].
  unfold bind, modify. rewrite sendToClient_spec. by eexists.
Qed.

Lemma invariant_removeClient ws s :
  invariant s → invariant (removeClient ws s).2.
Proof.
  intros [[Hiff Hne] Hfresh]. unfold removeClient, bind at 1, gets.
  destruct (clients s !! ws) as [subscriptions|] eqn:Hc;
    [|exact (conj (conj Hiff Hne) Hfresh)].
  unfold bind at 1. rewrite forEach_drop. unfold modify. cbn.
  split; [split|]; cbn.
  - intros w k. unfold subscriber. cbn.
    fold (mem (foldl (fun channels key => dropSubscriber ws key channels)
                     (channelSubscribers s) (elements subscriptions)) k w).
    rewrite foldl_drop_mem. unfold mem.
    specialize (Hiff w k). unfold subscriber in Hiff. rewrite Hiff.
    unfold subscription. cbn.
    destruct (decide (w = ws)) as [->|Hw].
    + rewrite lookup_delete_eq, Hc. split.
      * intros [(S & [= <-] & Hin) Hn]. destruct Hn.
        split; [done|]. by apply elem_of_elements.
      * by intros (? & ? & _).
    + rewrite lookup_delete_ne by done. split; [by intros [? _]|].
      intros H. split; [done|]. by intros [? _].
  - by apply foldl_drop_no_empty.
  - intros w [_ Hw]%lookup_delete_is_Some. by apply Hfresh.
Qed.

Lemma invariant_broadcast env channel d now s :
  invariant s → invariant (broadcast env channel d now s).2.
Proof. intros H. rewrite broadcast_spec. by apply invariant_sends. Qed.

Lemma invariant_connection env now s :
  invariant s → invariant (handle env (Connection now) s).2.
Proof.
  intros [[Hiff Hne] Hfresh]. cbn [handle]. unfold bind, gets, modify.
  rewrite sendToClient_spec. cbn.
  assert (Hnew : clients s !! next_ws s = None).
  { destruct (clients s !! next_ws s) eqn:E; [|done].
    assert (next_ws s < next_ws s)%nat by (apply Hfresh; by rewrite E). lia. }
  split; [split|]; cbn.
  - intros w k. unfold subscriber, subscription. cbn.
    specialize (Hiff w k). unfold subscriber, subscription in Hiff.
    rewrite Hiff. destruct (decide (w = next_ws s)) as [->|Hw].
    + rewrite lookup_insert_eq, Hnew. split.
      * by intros (? & ? & _).
      * intros (S & [= <-] & Hin). set_solver.
    + by rewrite lookup_insert_ne.
  - done.
  - intros w. destruct (decide (next_ws s = w)) as [<-|Hw]; [lia|].
    rewrite lookup_insert_ne by done. intros H. apply Hfresh in H. lia.
Qed.

Lemma invariant_handle env ev s :
  invariant s → invariant (handle env ev s).2.
Proof.
  intros H. destruct ev as [now | ws frame now | ws | ws | channel d now].
  - by apply invariant_connection.
  - cbn [handle]. unfold try_catch. destruct frame as [|type channel symbol expiry].
    + unfold throw, bind. rewrite sendToClient_spec. by apply invariant_sends.
    + assert (Hm : ∃ s', handleMessage env ws type channel symbol expiry now s
                        = (Returned tt, s') ∧ invariant s').
      { unfold handleMessage.
        destruct (String.eqb type "subscribe");
          [|destruct (String.eqb type "unsubscribe")].
        - destruct (subscribe_returns env ws channel symbol expiry now s) as [s' Hs'].
          exists s'. split; [done|]. change s' with (Returned tt, s').2.
          rewrite <- Hs'. by apply invariant_subscribe.
        - destruct (unsubscribe_returns env ws channel symbol expiry now s) as [s' Hs'].
          exists s'. split; [done|]. change s' with (Returned tt, s').2.
          rewrite <- Hs'. by apply invariant_unsubscribe.
        - unfold bind. rewrite sendToClient_spec. eexists. split; [done|].
          by apply invariant_sends. }
      destruct Hm as (s' & -> & Hs'). done.
  - by apply invariant_removeClient.
  - by apply invariant_removeClient.
  - by apply invariant_broadcast.
Qed.

Lemma invariant_run (evs : list (Sockets A * event)) : invariant (run evs).
Proof.
  unfold run. generalize (invariant_init). generalize (init (A:=A)).
  induction evs as [|[env ev] evs IH]; intros s Hs; cbn [foldl]; [done|].
  apply IH. by apply invariant_handle.
Qed.
End Indices.

(** C10.  After every sequence of connections, inbound frames
    (subscribe, unsubscribe, unknown or malformed), disconnects, socket
    errors and broadcasts, whatever the sockets do meanwhile: a client is
    in the subscriber set of a key exactly when the key is in that
    client's subscriptions, and no key is mapped to an empty set.  An
    emptied channel is deleted and comes back with the next subscribe. *)
Theorem C10_indices_consistent {A : Type} (evs : list (Sockets A * event)) :
  let s := run evs in
  (∀ ws key, subscriber s key ws ↔ subscription s ws key)
  ∧ (∀ key subscribers,
       channelSubscribers s !! key = Some subscribers → subscribers ≠ ∅)
  ∧ (∀ env ws channel symbol expiry now,
       let key := subscriptionKey channel symbol expiry in
       subscriber s key ws →
       (∀ w, subscriber s key w → w = ws) →
       let s1 := (unsubscribe env ws channel symbol expiry now s).2 in
       channelSubscribers s1 !! key = None
       ∧ channelSubscribers (subscribe env ws channel symbol expiry now s1).2 !! key
         = Some {[ws]}).
Proof.
  cbv zeta. destruct (invariant_run evs) as [[Hiff Hne] Hfresh].
  split; [done|]. split; [done|].
  intros env ws channel symbol expiry now Hsub Honly.
  set (key := subscriptionKey channel symbol expiry) in *.
  destruct (proj1 (Hiff ws key) Hsub) as (subscriptions & Hc & Hk).
  destruct Hsub as (S & HS & Hin).
  assert (HSeq : S = {[ws]}).
  { apply set_eq. intros w. rewrite elem_of_singleton. split.
    - intros Hw. apply Honly. by exists S.
    - by intros ->. }
  subst S.
  assert (Hdrop : dropSubscriber ws key (channelSubscribers (run evs))
                  = delete key (channelSubscribers (run evs))).
  { unfold dropSubscriber. rewrite HS.
    destruct (decide _) as [|Hnz]; [done|].
    exfalso. apply Hnz.
    replace ({[ws]} ∖ {[ws]} : gset nat) with (∅ : gset nat) by set_solver.
    apply size_empty. }
  rewrite (unsubscribe_known env ws channel symbol expiry now _ _ Hc).
  fold key. rewrite Hdrop. cbn [snd channelSubscribers].
  split; [apply lookup_delete_eq|].
  erewrite subscribe_known by (cbn [clients]; apply lookup_insert_eq).
  fold key. cbn [snd channelSubscribers].
  rewrite lookup_insert_eq, lookup_delete_eq. cbn. f_equal. set_solver.
Qed.

(** The last part of the theorem at work: the only subscriber of a channel
    leaves, the channel disappears, and it is back after a new subscribe. *)
Lemma C10_indices_consistent_witness :
  let env := mkSockets (fun _ => OPEN) (fun _ (_ : Outbound string) => false) in
  let frame := Frame "subscribe" "option-chain" (Some "NIFTY") (Some "2025-11-28") in
  let s := run [(env, Connection 1); (env, Message 0 frame 2)] in
  let s1 := (unsubscribe env 0 "option-chain" (Some "NIFTY") (Some "2025-11-28") 3 s).2 in
  channelSubscribers s1 !! "option-chain:NIFTY:2025-11-28" = None
  ∧ channelSubscribers
      (subscribe env 0 "option-chain" (Some "NIFTY") (Some "2025-11-28") 4 s1).2
      !! "option-chain:NIFTY:2025-11-28" = Some {[0%nat]}.
Proof.
  intros env frame s s1.
  refine (proj2 (proj2 (C10_indices_consistent
            [(env, Connection 1); (env, Message 0 frame 2)]))
            env 0%nat "option-chain" (Some "NIFTY") (Some "2025-11-28") 3%Z _ _).
  - exists {[0%nat]}. split; [by vm_compute|]. set_solver.
  - assert (Hch : channelSubscribers
                    (run [(env, Connection 1); (env, Message 0 frame 2)])
                    !! subscriptionKey "option-chain" (Some "NIFTY") (Some "2025-11-28")
                  = Some {[0%nat]}) by (by vm_compute).
    intros w (S & HS & Hw). rewrite Hch in HS. injection HS as <-.
    by apply elem_of_singleton in Hw.
Defined.

End BroadcasterProps.

(* ===================================================================== *)
(** * Properties of the scheduler *)
(* ===================================================================== *)

Module PollerProps.
Import MarketDataPoller.
Local Open Scope nat_scope.

Implicit Types (p : Poller) (key symbol expiry : string) (t : Task).

(** ** A map whose keys are all equal has at most one entry *)
Lemma map_size_le_1 {K V} `{Countable K} (m : gmap K V) :
  (∀ i j x y, m !! i = Some x → m !! j = Some y → i = j) → size m ≤ 1.
Proof.
  intros Huniq. destruct (map_choose_or_empty m) as [(i & x & Hi) | ->].
  - rewrite <- (insert_delete_id m i x Hi).
    rewrite map_size_insert_None by apply lookup_delete_eq.
    assert (Hempty : delete i m = ∅).
    { apply map_empty. intros j. destruct (decide (i = j)) as [<-|Hne].
      - apply lookup_delete_eq.
      - rewrite lookup_delete_ne by done.
        destruct (m !! j) as [y|] eqn:Hj; [|done].
        exfalso. apply Hne. by eapply Huniq. }
    rewrite Hempty, map_size_empty. lia.
  - rewrite map_size_empty. lia.
Qed.

(** ** The invariant *)

Lemma wellformed_init : wellformed init.
Proof.
  split; [|split]; cbn.
  - intros ???. by rewrite lookup_empty.
  - intros ??. by rewrite lookup_empty.
  - intros ?. rewrite lookup_empty. by intros [? ?].
Qed.

(** Taking the timer of a key out of both the runtime and [pollers]. *)
Lemma wellformed_remove p key timerId active inflight' published' :
  wellformed p → pollers p !! key = Some timerId →
  wellformed (mkPoller (delete key (pollers p)) active (delete timerId (timers p))
                       (next_timer p) inflight' published').
Proof.
  intros (H1 & H2 & H3) Hk. split; [|split]; cbn.
  - intros id t iv [Hne Hid]%lookup_delete_Some.
    specialize (H1 _ _ _ Hid).
    rewrite lookup_delete_ne; [done|]. intros Heq. rewrite <- Heq, Hk in H1. by simplify_eq.
  - intros k id [Hne Hid]%lookup_delete_Some.
    destruct (H2 _ _ Hid) as (t & iv & Ht & Hkey). exists t, iv. split; [|done].
    rewrite lookup_delete_ne; [done|]. intros <-.
    destruct (H2 _ _ Hk) as (t' & iv' & Ht' & Hkey'). rewrite Ht in Ht'. by simplify_eq.
  - intros id [_ Hid]%lookup_delete_is_Some. by apply H3.
Qed.

(** Changing only the bookkeeping of ticks keeps the invariant. *)
Lemma wellformed_ticks p active inflight' published' :
  wellformed p →
  wellformed (mkPoller (pollers p) active (timers p) (next_timer p) inflight' published').
Proof. by intros (H1 & H2 & H3). Qed.

(** Arming a fresh timer for a key that has none. *)
Lemma wellformed_arm p t interval active inflight' published' :
  wellformed p → pollers p !! task_key t = None →
  wellformed (mkPoller (<[task_key t := next_timer p]> (pollers p)) active
                       (<[next_timer p := (t, interval)]> (timers p))
                       (S (next_timer p)) inflight' published').
Proof.
  intros (H1 & H2 & H3) Hk.
  assert (Hfresh : timers p !! next_timer p = None).
  { destruct (timers p !! next_timer p) eqn:E; [|done].
    assert (next_timer p < next_timer p) by (apply H3; by rewrite E). lia. }
  split; [|split]; cbn.
  - intros id t' iv. destruct (decide (next_timer p = id)) as [<-|Hne].
    + rewrite lookup_insert_eq. intros [= <- <-]. apply lookup_insert_eq.
    + rewrite lookup_insert_ne by done. intros Hid.
      specialize (H1 _ _ _ Hid). rewrite lookup_insert_ne; [done|].
      intros Heq. rewrite <- Heq, Hk in H1. done.
  - intros k id. destruct (decide (task_key t = k)) as [<-|Hne].
    + rewrite lookup_insert_eq. intros [= <-]. exists t, interval.
      split; [apply lookup_insert_eq | done].
    + rewrite lookup_insert_ne by done. intros Hid.
      destruct (H2 _ _ Hid) as (t' & iv' & Ht' & Hkey). exists t', iv'. split; [|done].
      rewrite lookup_insert_ne; [done|]. intros <-. by rewrite Hfresh in Ht'.
  - intros id. destruct (decide (next_timer p = id)) as [<-|Hne]; [lia|].
    rewrite lookup_insert_ne by done. intros Hid. apply H3 in Hid. lia.
Qed.

Lemma wellformed_stopPolling p symbol expiry :
  wellformed p → wellformed (stopPolling symbol expiry p).
Proof.
  intros Hp. unfold stopPolling.
  destruct (pollers p !! chainKey symbol expiry) eqn:E; [|done].
  unfold clearInterval. cbn. by apply wellformed_remove.
Qed.

Lemma wellformed_stopIVPolling p symbol :
  wellformed p → wellformed (stopIVPolling symbol p).
Proof.
  intros Hp. unfold stopIVPolling.
  destruct (pollers p !! ivKey symbol) eqn:E; [|done].
  unfold clearInterval. cbn. by apply wellformed_remove.
Qed.

Lemma stopPolling_pollers p symbol expiry :
  pollers (stopPolling symbol expiry p) !! chainKey symbol expiry = None.
Proof.
  unfold stopPolling. destruct (pollers p !! chainKey symbol expiry) eqn:E; [|done].
  apply lookup_delete_eq.
Qed.

Lemma stopIVPolling_pollers p symbol :
  pollers (stopIVPolling symbol p) !! ivKey symbol = None.
Proof.
  unfold stopIVPolling. destruct (pollers p !! ivKey symbol) eqn:E; [|done].
  apply lookup_delete_eq.
Qed.

Lemma wellformed_startPolling p symbol expiry interval :
  wellformed p → wellformed (startPolling symbol expiry interval p).
Proof.
  intros Hp. unfold startPolling, setInterval, launch. cbn.
  apply (wellformed_arm (stopPolling symbol expiry p) (ChainTick symbol expiry)).
  - by apply wellformed_stopPolling.
  - apply stopPolling_pollers.
Qed.

Lemma wellformed_startIVPolling p symbol interval :
  wellformed p → wellformed (startIVPolling symbol interval p).
Proof.
  intros Hp. unfold startIVPolling, setInterval, launch. cbn.
  apply (wellformed_arm (stopIVPolling symbol p) (IVTick symbol)).
  - by apply wellformed_stopIVPolling.
  - apply stopIVPolling_pollers.
Qed.

(** The loop of [stopAll] clears exactly the timers held in [pollers]. *)
Lemma stopAll_loop p (m : gmap string nat) :
  let p' := map_fold (fun _ timerId acc => clearInterval timerId acc) p m in
  pollers p' = pollers p ∧ activePolls p' = activePolls p
  ∧ next_timer p' = next_timer p ∧ inflight p' = inflight p
  ∧ published p' = published p
  ∧ ∀ timerId x, timers p' !! timerId = Some x
                 ↔ timers p !! timerId = Some x ∧ ∀ key, m !! key ≠ Some timerId.
Proof.
  cbv zeta.
  apply (map_fold_weak_ind (fun (r : Poller) (m : gmap string nat) =>
    pollers r = pollers p ∧ activePolls r = activePolls p
    ∧ next_timer r = next_timer p ∧ inflight r = inflight p
    ∧ published r = published p
    ∧ ∀ timerId x, timers r !! timerId = Some x
                   ↔ timers p !! timerId = Some x ∧ ∀ key, m !! key ≠ Some timerId)).
  - do 5 (split; [done|]). intros id x. split; [|by intros [? _]].
    intros Hx. split; [done|]. intros key. by rewrite lookup_empty.
  - intros k id m' r Hk (E1 & E2 & E3 & E4 & E5 & Ht). cbn.
    do 5 (split; [done|]).
    intros id' x. rewrite lookup_delete_Some, Ht. split.
    + intros [Hne [Hx Hm]]. split; [done|]. intros key.
      destruct (decide (k = key)) as [<-|Hk'].
      * rewrite lookup_insert_eq. congruence.
      * rewrite lookup_insert_ne by done. apply Hm.
    + intros [Hx Hm]. split; [|split; [done|]].
      * intros <-. apply (Hm k). apply lookup_insert_eq.
      * intros key Hkey. apply (Hm key).
        rewrite lookup_insert_ne; [done|]. intros <-. by rewrite Hk in Hkey.
Qed.

Lemma wellformed_stopAll p : wellformed p → wellformed (stopAll p).
Proof.
  intros (H1 & H2 & H3). unfold stopAll.
  destruct (stopAll_loop p (pollers p)) as (_ & _ & Hn & _ & _ & Ht).
  split; [|split]; cbn.
  - intros id t iv [Hid Hm]%Ht. exfalso. apply (Hm (task_key t)). by eapply H1.
  - intros ??. by rewrite lookup_empty.
  - intros id [x [Hid _]%Ht]. rewrite Hn. apply H3. by rewrite Hid.
Qed.

Lemma wellformed_step p ev : wellformed p → wellformed (step p ev).
Proof.
  intros Hp. destruct ev; cbn [step].
  - by apply wellformed_startPolling.
  - by apply wellformed_stopPolling.
  - by apply wellformed_startIVPolling.
  - by apply wellformed_stopIVPolling.
  - by apply wellformed_stopAll.
  - unfold timerFires. destruct (timers p !! timerId) as [[t ?]|]; [|done].
    by apply wellformed_ticks.
  - unfold fetchSettles. destruct (inflight p !! i); [|done].
    by apply wellformed_ticks.
Qed.

Lemma wellformed_run_from p evs : wellformed p → wellformed (run_from p evs).
Proof.
  revert p. induction evs as [|ev evs IH]; intros p Hp; cbn; [done|].
  by apply IH, wellformed_step.
Qed.

Lemma wellformed_run evs : wellformed (run evs).
Proof. apply wellformed_run_from, wellformed_init. Qed.

(** ** Timers per key *)

Lemma timers_for_lookup key p timerId t interval :
  timers_for key p !! timerId = Some (t, interval)
  ↔ timers p !! timerId = Some (t, interval) ∧ task_key t = key.
Proof. unfold timers_for. by rewrite map_lookup_filter_Some. Qed.

Lemma timers_for_at_most_one p key : wellformed p → size (timers_for key p) ≤ 1.
Proof.
  intros (H1 & _ & _). apply map_size_le_1.
  intros i j [t iv] [t' iv'] [Hi Hk]%timers_for_lookup [Hj Hk']%timers_for_lookup.
  apply H1 in Hi, Hj. rewrite Hk in Hi. rewrite Hk' in Hj. by simplify_eq.
Qed.

Lemma timers_for_empty p key :
  wellformed p → pollers p !! key = None → timers_for key p = ∅.
Proof.
  intros (H1 & _ & _) Hk. apply map_empty. intros id.
  destruct (timers_for key p !! id) as [[t iv]|] eqn:E; [|done].
  apply timers_for_lookup in E as [Hid Hkey]. apply H1 in Hid.
  rewrite Hkey, Hk in Hid. done.
Qed.

Lemma timers_for_running p key timerId :
  wellformed p → pollers p !! key = Some timerId → size (timers_for key p) = 1.
Proof.
  intros Hp Hk. pose proof (timers_for_at_most_one p key Hp) as Hle.
  destruct Hp as (_ & H2 & _). destruct (H2 _ _ Hk) as (t & iv & Ht & Hkey).
  assert (size (timers_for key p) ≠ 0); [|lia].
  apply map_size_non_empty_iff. intros Hempty.
  assert (Hl : timers_for key p !! timerId = Some (t, iv)) by (by apply timers_for_lookup).
  by rewrite Hempty, lookup_empty in Hl.
Qed.

(** C6.  After any sequence of start, stop, stop-all, timer and fetch
    events, every key has at most one timer set.  Starting a key that is
    running clears its old timer and arms a new one, which is then the
    only timer of the key; stopping a key that is not running changes
    nothing, and so does stopping a key twice. *)
Theorem C6_one_timer_per_key (evs : list event) :
  let p := run evs in
  (∀ key, size (timers_for key p) ≤ 1)
  ∧ (∀ symbol expiry interval old,
       pollers p !! chainKey symbol expiry = Some old →
       let p' := startPolling symbol expiry interval p in
       timers p' !! old = None
       ∧ old ≠ next_timer p
       ∧ pollers p' !! chainKey symbol expiry = Some (next_timer p)
       ∧ timers p' !! next_timer p
         = Some (ChainTick symbol expiry, default 5000%Z interval)
       ∧ size (timers_for (chainKey symbol expiry) p') = 1)
  ∧ (∀ symbol expiry,
       pollers p !! chainKey symbol expiry = None → stopPolling symbol expiry p = p)
  ∧ (∀ symbol expiry,
       stopPolling symbol expiry (stopPolling symbol expiry p)
       = stopPolling symbol expiry p).
Proof.
  cbv zeta. pose proof (wellformed_run evs) as Hp.
  set (p := run evs) in *.
  split; [|split; [|split]].
  - intros key. by apply timers_for_at_most_one.
  - intros symbol expiry interval old Hold.
    pose proof (wellformed_startPolling p symbol expiry interval Hp) as Hp'.
    assert (Hlt : old < next_timer p).
    { destruct Hp as (_ & H2 & H3). destruct (H2 _ _ Hold) as (t & iv & Ht & _).
      apply H3. by rewrite Ht. }
    assert (Hnew : pollers (startPolling symbol expiry interval p)
                     !! chainKey symbol expiry = Some (next_timer p)).
    { unfold startPolling, stopPolling. rewrite Hold. cbn. apply lookup_insert_eq. }
    repeat split.
    + unfold startPolling, stopPolling. rewrite Hold. cbn.
      rewrite lookup_insert_ne by lia. apply lookup_delete_eq.
    + lia.
    + done.
    + unfold startPolling, stopPolling. rewrite Hold. cbn. apply lookup_insert_eq.
    + by eapply timers_for_running.
  - intros symbol expiry Hnone. unfold stopPolling. by rewrite Hnone.
  - intros symbol expiry. unfold stopPolling at 1.
    by rewrite stopPolling_pollers.
Qed.

(** The theorem at work: a second start for a running key. *)
Lemma C6_one_timer_per_key_witness :
  let p := run [StartPolling "NIFTY" "2025-11-28" (Some 1000%Z)] in
  let p' := startPolling "NIFTY" "2025-11-28" (Some 2000%Z) p in
  timers p' !! 0 = None
  ∧ pollers p' !! "NIFTY:2025-11-28" = Some 1
  ∧ size (timers_for "NIFTY:2025-11-28" p') = 1.
Proof.
  intros p p'.
  destruct (proj1 (proj2 (C6_one_timer_per_key
              [StartPolling "NIFTY" "2025-11-28" (Some 1000%Z)]))
              "NIFTY" "2025-11-28" (Some 2000%Z) 0 ltac:(reflexivity))
    as (H1 & _ & H3 & _ & H5).
  split; [exact H1|]. split; [exact H3 | exact H5].
Defined.

(** ** Ticks after a stop *)

Lemma count_key_app key (l1 l2 : list Task) :
  count_key key (l1 ++ l2) = count_key key l1 + count_key key l2.
Proof. unfold count_key. by rewrite filter_app, length_app. Qed.

Lemma count_key_other key t : task_key t ≠ key → count_key key [t] = 0.
Proof. intros Hne. unfold count_key. by rewrite filter_cons_False. Qed.

Lemma count_key_singleton_le key t : count_key key [t] ≤ 1.
Proof.
  unfold count_key. destruct (decide (task_key t = key)).
  - by rewrite filter_cons_True.
  - rewrite filter_cons_False by done. cbn. lia.
Qed.

Lemma count_key_delete key (l : list Task) i t :
  l !! i = Some t → count_key key l = count_key key [t] + count_key key (delete i l).
Proof.
  intros Hi. rewrite <- count_key_app. unfold count_key.
  apply Permutation_length, filter_Permutation.
  by apply delete_Permutation.
Qed.

Lemma stopPolling_ticks p symbol expiry :
  inflight (stopPolling symbol expiry p) = inflight p
  ∧ published (stopPolling symbol expiry p) = published p.
Proof. unfold stopPolling. by destruct (pollers p !! chainKey symbol expiry). Qed.

Lemma stopIVPolling_ticks p symbol :
  inflight (stopIVPolling symbol p) = inflight p
  ∧ published (stopIVPolling symbol p) = published p.
Proof. unfold stopIVPolling. by destruct (pollers p !! ivKey symbol). Qed.

Lemma startPolling_ticks p symbol expiry interval :
  inflight (startPolling symbol expiry interval p) = inflight p ++ [ChainTick symbol expiry]
  ∧ published (startPolling symbol expiry interval p) = published p.
Proof.
  destruct (stopPolling_ticks p symbol expiry) as [Hi Hp].
  unfold startPolling, setInterval, launch.
  cbn [pollers activePolls timers next_timer inflight published].
  by rewrite Hi, Hp.
Qed.

Lemma startIVPolling_ticks p symbol interval :
  inflight (startIVPolling symbol interval p) = inflight p ++ [IVTick symbol]
  ∧ published (startIVPolling symbol interval p) = published p.
Proof.
  destruct (stopIVPolling_ticks p symbol) as [Hi Hp].
  unfold startIVPolling, setInterval, launch.
  cbn [pollers activePolls timers next_timer inflight published].
  by rewrite Hi, Hp.
Qed.

Lemma startPolling_other p symbol expiry interval key :
  chainKey symbol expiry ≠ key →
  pollers (startPolling symbol expiry interval p) !! key
  = pollers (stopPolling symbol expiry p) !! key.
Proof.
  intros Hne. unfold startPolling, setInterval, launch.
  cbn [pollers activePolls timers next_timer inflight published].
  by rewrite lookup_insert_ne.
Qed.

Lemma startIVPolling_other p symbol interval key :
  ivKey symbol ≠ key →
  pollers (startIVPolling symbol interval p) !! key
  = pollers (stopIVPolling symbol p) !! key.
Proof.
  intros Hne. unfold startIVPolling, setInterval, launch.
  cbn [pollers activePolls timers next_timer inflight published].
  by rewrite lookup_insert_ne.
Qed.

(** One event after a stop, none of them a start of the key: the key
    stays without a timer, and what is published for the key is taken from
    what was in flight. *)
Lemma stopped_step key p ev :
  wellformed p → pollers p !! key = None → ¬ starts key ev →
  pollers (step p ev) !! key = None
  ∧ ∃ more, published (step p ev) = published p ++ more
            ∧ count_key key more + count_key key (inflight (step p ev))
              ≤ count_key key (inflight p).
Proof.
  intros Hp Hk Hstart.
  assert (Hstop : ∀ symbol expiry, pollers (stopPolling symbol expiry p) !! key = None).
  { intros s e. unfold stopPolling. destruct (pollers p !! chainKey s e); [|done].
    cbn. destruct (decide (chainKey s e = key)) as [->|];
      [apply lookup_delete_eq | by rewrite lookup_delete_ne]. }
  assert (HstopIV : ∀ symbol, pollers (stopIVPolling symbol p) !! key = None).
  { intros s. unfold stopIVPolling. destruct (pollers p !! ivKey s); [|done].
    cbn. destruct (decide (ivKey s = key)) as [->|];
      [apply lookup_delete_eq | by rewrite lookup_delete_ne]. }
  assert (Hnil : ∀ l : list Task, l = l ++ []) by (intros; by rewrite app_nil_r).
  destruct ev as [s e iv | s e | s iv | s | | id | i completes]; cbn [step starts] in *.
  - destruct (startPolling_ticks p s e iv) as [-> ->].
    split; [by rewrite startPolling_other|].
    exists []. split; [apply Hnil|].
    rewrite count_key_app, (count_key_other key (ChainTick s e)) by done. cbn. lia.
  - destruct (stopPolling_ticks p s e) as [-> ->].
    split; [apply Hstop|]. exists []. split; [apply Hnil | cbn; lia].
  - destruct (startIVPolling_ticks p s iv) as [-> ->].
    split; [by rewrite startIVPolling_other|].
    exists []. split; [apply Hnil|].
    rewrite count_key_app, (count_key_other key (IVTick s)) by done. cbn. lia.
  - destruct (stopIVPolling_ticks p s) as [-> ->].
    split; [apply HstopIV|]. exists []. split; [apply Hnil | cbn; lia].
  - unfold stopAll.
    destruct (stopAll_loop p (pollers p)) as (_ & _ & _ & Hi & Hpub & _).
    cbn [pollers inflight published]. split; [apply lookup_empty|]. exists [].
    rewrite Hi, Hpub. split; [apply Hnil | cbn; lia].
  - unfold timerFires. destruct (timers p !! id) as [[t iv]|] eqn:Ht.
    + unfold launch. cbn [pollers inflight published].
      split; [done|]. exists []. split; [apply Hnil|].
      destruct Hp as (H1 & _ & _). apply H1 in Ht.
      rewrite count_key_app, (count_key_other key t); [cbn; lia|].
      intros Heq. rewrite Heq, Hk in Ht. done.
    + split; [done|]. exists []. split; [apply Hnil | cbn; lia].
  - unfold fetchSettles. destruct (inflight p !! i) as [t|] eqn:Hi.
    + cbn [pollers inflight published]. split; [done|].
      rewrite (count_key_delete key (inflight p) i t Hi).
      destruct completes.
      * exists [t]. split; [done | lia].
      * exists []. split; [apply Hnil | cbn; lia].
    + split; [done|]. exists []. split; [apply Hnil | cbn; lia].
Qed.

Lemma stopped_run key evs p :
  wellformed p → pollers p !! key = None → Forall (fun ev => ¬ starts key ev) evs →
  pollers (run_from p evs) !! key = None
  ∧ ∃ more, published (run_from p evs) = published p ++ more
            ∧ count_key key more + count_key key (inflight (run_from p evs))
              ≤ count_key key (inflight p).
Proof.
  intros Hp Hk Hevs. revert p Hp Hk.
  induction Hevs as [|ev evs Hev Hevs IH]; intros p Hp Hk.
  - split; [done|]. exists []. rewrite app_nil_r. split; [done | cbn; lia].
  - change (run_from p (ev :: evs)) with (run_from (step p ev) evs).
    destruct (stopped_step key p ev Hp Hk Hev) as (Hk' & more & Hpub & Hle).
    destruct (IH (step p ev) (wellformed_step _ _ Hp) Hk') as (Hk'' & more' & Hpub' & Hle').
    split; [done|]. exists (more ++ more'). split.
    + by rewrite Hpub', Hpub, (assoc_L (++)).
    + rewrite count_key_app. lia.
Qed.

(** C2 (as amended).  Once [stopPolling] has returned for a key, and until
    that key is started again, no timer is set for the key, so no new tick
    of the key begins; the ticks of the key published after the stop are
    among those that were in flight when it returned, each at most once:
    their number is bounded by the number of such ticks, and is zero when
    none was in flight. *)
Theorem C2_stop_cancels_future_ticks (history : list event)
    (symbol expiry : string) (evs : list event)
    (Hquiet : Forall (fun ev => ¬ starts (chainKey symbol expiry) ev) evs) :
  let key := chainKey symbol expiry in
  let stopped := stopPolling symbol expiry (run history) in
  let later := run_from stopped evs in
  timers_for key stopped = ∅
  ∧ timers_for key later = ∅
  ∧ ∃ more,
      published later = published stopped ++ more
      ∧ count_key key more ≤ count_key key (inflight stopped)
      ∧ (count_key key (inflight stopped) = 0 → count_key key more = 0).
Proof.
  cbv zeta.
  pose proof (wellformed_stopPolling _ symbol expiry (wellformed_run history)) as Hp.
  pose proof (stopPolling_pollers (run history) symbol expiry) as Hk.
  destruct (stopped_run _ evs _ Hp Hk Hquiet) as (Hk' & more & Hpub & Hle).
  split; [by apply timers_for_empty|].
  split; [apply timers_for_empty; [by apply wellformed_run_from | done]|].
  exists more. split; [done|]. split; lia.
Qed.

(** The theorem at work: the key is stopped with one tick in flight; the
    timer of another key fires and both ticks settle. *)
Lemma C2_stop_cancels_future_ticks_witness :
  let history := [StartPolling "NIFTY" "2025-11-28" None;
                  StartPolling "BANKNIFTY" "2025-11-28" None] in
  let stopped := stopPolling "NIFTY" "2025-11-28" (run history) in
  let later := run_from stopped [TimerFires 1; FetchSettles 0 true; FetchSettles 0 true] in
  timers_for "NIFTY:2025-11-28" later = ∅
  ∧ ∃ more, published later = published stopped ++ more
            ∧ count_key "NIFTY:2025-11-28" more ≤ 1.
Proof.
  intros history stopped later.
  destruct (C2_stop_cancels_future_ticks history "NIFTY" "2025-11-28"
              [TimerFires 1; FetchSettles 0 true; FetchSettles 0 true])
    as (_ & Hlater & more & Hpub & Hle & _).
  - repeat constructor; cbn; tauto.
  - split; [exact Hlater|]. exists more. split; [exact Hpub | exact Hle].
Defined.

(** C2 as stated fails: the tick that [startPolling] launched is in flight
    when [stopPolling] returns; when its fetch settles it broadcasts on the
    key's channel, after the stop. *)
Lemma C2_inflight_publish_counterexample :
  let stopped :=
    stopPolling "NIFTY" "2025-11-28" (run [StartPolling "NIFTY" "2025-11-28" (Some 1000%Z)]) in
  let later := run_from stopped [FetchSettles 0 true] in
  pollers stopped !! "NIFTY:2025-11-28" = None
  ∧ published stopped = []
  ∧ published later = [ChainTick "NIFTY" "2025-11-28"]
  ∧ channel_of <$> published later = ["option-chain:NIFTY:2025-11-28"].
Proof. by vm_compute. Qed.

(** ** What [getActivePolls] lists *)

Lemma getActivePolls_elem p key :
  key ∈ getActivePolls p ↔ is_Some (activePolls p !! key).
Proof.
  unfold getActivePolls. rewrite list_elem_of_fmap. split.
  - intros ([k cfg] & -> & Hin). apply elem_of_map_to_list in Hin. by exists cfg.
  - intros [cfg Hcfg]. exists (key, cfg). split; [done|].
    by apply elem_of_map_to_list.
Qed.

(** The chain poller keeps [activePolls] in step with [pollers]. *)
Lemma chain_step_listed p ev :
  chain_event ev →
  (∀ key, is_Some (activePolls p !! key) ↔ is_Some (pollers p !! key)) →
  ∀ key, is_Some (activePolls (step p ev) !! key) ↔ is_Some (pollers (step p ev) !! key).
Proof.
  intros Hev Hp.
  assert (Hstop : ∀ s e key,
            is_Some (activePolls (stopPolling s e p) !! key)
            ↔ is_Some (pollers (stopPolling s e p) !! key)).
  { intros s e key. unfold stopPolling.
    destruct (pollers p !! chainKey s e); [|apply Hp].
    cbn. rewrite !lookup_delete_is_Some, Hp. done. }
  destruct ev as [s e iv | s e | s iv | s | | id | i completes];
    cbn [step chain_event] in *; try done.
  - intros key. unfold startPolling, setInterval, launch. cbn.
    rewrite !lookup_insert_is_Some, Hstop. done.
  - unfold stopAll. cbn. intros key. rewrite !lookup_empty. split; by intros [? ?].
  - unfold timerFires. by destruct (timers p !! id) as [[t ?]|].
  - unfold fetchSettles. by destruct (inflight p !! i).
Qed.

(** As long as only the chain poller is used, [getActivePolls] lists
    exactly the running keys. *)
Lemma chain_pollers_listed evs key :
  Forall chain_event evs →
  key ∈ getActivePolls (run evs) ↔ is_Some (pollers (run evs) !! key).
Proof.
  intros Hevs. rewrite getActivePolls_elem. revert key.
  unfold run. assert (Hinit : ∀ key, is_Some (activePolls init !! key)
                                     ↔ is_Some (pollers init !! key)).
  { intros k. cbn. rewrite !lookup_empty. split; by intros [? ?]. }
  revert Hinit. generalize init.
  induction Hevs as [|ev evs Hev Hevs IH]; intros p Hp; [done|].
  change (run_from p (ev :: evs)) with (run_from (step p ev) evs).
  apply IH. by apply chain_step_listed.
Qed.

(** C9 on the code: after [startIVPolling("NIFTY")] the key [iv:NIFTY] is
    running, with its timer set, and [getActivePolls] returns the empty
    list; the chain poller started next to it is listed. *)
Lemma C9_iv_poller_not_listed :
  let p := run [StartIVPolling "NIFTY" None] in
  let p2 := run [StartIVPolling "NIFTY" None; StartPolling "NIFTY" "2025-11-28" None] in
  pollers p !! "iv:NIFTY" = Some 0
  ∧ timers p !! 0 = Some (IVTick "NIFTY", 10000%Z)
  ∧ getActivePolls p = []
  ∧ dom (pollers p2) = {["iv:NIFTY"; "NIFTY:2025-11-28"]}
  ∧ getActivePolls p2 = ["NIFTY:2025-11-28"].
Proof. by vm_compute. Qed.

End PollerProps.

(* ===================================================================== *)
(** * Further properties of the option-chain helpers *)
(* ===================================================================== *)

Module ChainUtilsProps.
Import Num NumProps OptionChainUtils ChainNotions ColorProps.
Local Open Scope Q_scope.

(** ** Built-up classification *)

(** X1.  The four quadrants, and the fallback: the neutral colour is returned
    exactly when one of the two changes is zero, and then the
    classification is LB. *)
Theorem calculateBuiltUp_quadrants (oiChange priceChange : Q) :
  (0 < oiChange → 0 < priceChange →
     calculateBuiltUp oiChange priceChange = mkBuiltUp LB "#4caf50")
  ∧ (0 < oiChange → priceChange < 0 →
     calculateBuiltUp oiChange priceChange = mkBuiltUp SB "#f44336")
  ∧ (oiChange < 0 → priceChange < 0 →
     calculateBuiltUp oiChange priceChange = mkBuiltUp LU "#ff9800")
  ∧ (oiChange < 0 → 0 < priceChange →
     calculateBuiltUp oiChange priceChange = mkBuiltUp SC "#c8e6c9")
  ∧ (oiChange == 0 ∨ priceChange == 0 ↔
     calculateBuiltUp oiChange priceChange = mkBuiltUp LB "#ffffff").
Proof.
  unfold calculateBuiltUp.
  destruct (Qltb 0 oiChange) eqn:E1, (Qltb 0 priceChange) eqn:E2,
           (Qltb oiChange 0) eqn:E3, (Qltb priceChange 0) eqn:E4;
    cbn [andb];
    repeat match goal with
    | H : Qltb _ _ = true |- _ => apply Qltb_lt in H
    | H : Qltb _ _ = false |- _ => apply Qltb_ge in H
    end;
    repeat split; intros; try done; try lra;
    try (exfalso; lra); try (left; lra); try (right; lra);
    try (match goal with H : _ ∨ _ |- _ => destruct H; lra end).
Qed.

(** ** The at-the-money strike *)

Implicit Types (strikes l : list StrikeData) (s : StrikeData) (spot : Q).

(** The loop leaves the pair alone on strikes that are not strictly
    nearer than the current choice. *)
Lemma atm_fold_keep spot l m a :
  (∀ x, x ∈ l → m <= distance spot x) →
  foldl (atm_step spot) (m, a) l = (m, a).
Proof.
  revert m a. induction l as [|x l IH]; intros m a Hl; [done|].
  cbn [foldl]. unfold atm_step at 2.
  assert (Hx : m <= distance spot x) by (apply Hl; left).
  fold (distance spot x). rewrite (proj2 (Qltb_ge _ _) Hx).
  apply IH. intros y Hy. apply Hl. by right.
Qed.

(** On strikes that are all farther than [d], a bound that is above [d]
    stays above [d]. *)
Lemma atm_fold_above spot l m a d :
  d < m → (∀ x, x ∈ l → d < distance spot x) →
  d < (foldl (atm_step spot) (m, a) l).1.
Proof.
  revert m a. induction l as [|x l IH]; intros m a Hm Hl; [done|].
  cbn [foldl]. unfold atm_step at 2. fold (distance spot x).
  assert (Hx : d < distance spot x) by (apply Hl; left).
  destruct (Qltb (distance spot x) m); apply IH; try done;
    intros y Hy; apply Hl; by right.
Qed.

(** [findATMStrike] returns the strike price of the first strike whose
    distance to the spot is minimal: a strike that is strictly nearer than
    everything before it and at least as near as everything after it. *)
Theorem findATMStrike_first_nearest l1 s l2 spot :
  (∀ x, x ∈ l1 → distance spot s < distance spot x) →
  (∀ x, x ∈ l2 → distance spot s <= distance spot x) →
  findATMStrike (l1 ++ s :: l2) spot = strikePrice s.
Proof.
  intros H1 H2. unfold findATMStrike.
  destruct l1 as [|s0 l1]; cbn [app].
  - cbn [foldl]. unfold atm_step at 2. fold (distance spot s).
    rewrite (proj2 (Qltb_ge _ _) (Qle_refl _)).
    by rewrite atm_fold_keep.
  - change (s0 :: (l1 ++ s :: l2)) with ((s0 :: l1) ++ s :: l2).
    rewrite foldl_app. fold (distance spot s0).
    destruct (foldl (atm_step spot) (distance spot s0, strikePrice s0) (s0 :: l1))
      as [m a] eqn:E.
    assert (Hm : distance spot s < m).
    { change m with (m, a).1. rewrite <- E. cbn [foldl].
      unfold atm_step at 2. fold (distance spot s0).
      rewrite (proj2 (Qltb_ge _ _) (Qle_refl _)).
      apply atm_fold_above; [apply H1; left|].
      intros x Hx. apply H1. by right. }
    cbn [foldl]. unfold atm_step at 2. fold (distance spot s).
    rewrite (proj2 (Qltb_lt _ _) Hm).
    by rewrite atm_fold_keep.
Qed.

(** Every non-empty chain has such a first nearest strike. *)
Lemma first_nearest_exists l spot :
  l ≠ [] →
  ∃ l1 s l2, l = l1 ++ s :: l2
    ∧ (∀ x, x ∈ l1 → distance spot s < distance spot x)
    ∧ (∀ x, x ∈ l2 → distance spot s <= distance spot x).
Proof.
  induction l as [|x l IH]; [done|]. intros _.
  destruct l as [|y l].
  - exists [], x, []. split; [done|]. split; intros z Hz; by apply elem_of_nil in Hz.
  - destruct IH as (l1 & s & l2 & Hl & H1 & H2); [done|].
    destruct (Qlt_le_dec (distance spot s) (distance spot x)) as [Hlt|Hle].
    + exists (x :: l1), s, l2. rewrite Hl. split; [done|]. split; [|done].
      intros z [->|Hz]%elem_of_cons; [done | by apply H1].
    + exists [], x, (y :: l). split; [done|].
      split; [intros z Hz; by apply elem_of_nil in Hz|].
      intros z Hz. rewrite Hl in Hz.
      apply elem_of_app in Hz as [Hz|Hz].
      * apply H1 in Hz. lra.
      * apply elem_of_cons in Hz as [->|Hz]; [done|]. apply H2 in Hz. lra.
Qed.

(** X2.  [findATMStrike] on the empty chain is 0; on any other chain it is the
    strike price of a member, and no member is nearer to the spot. *)
Theorem findATMStrike_nearest strikes spot :
  findATMStrike [] spot = 0
  ∧ (strikes ≠ [] →
     ∃ s, s ∈ strikes ∧ findATMStrike strikes spot = strikePrice s
          ∧ ∀ x, x ∈ strikes → distance spot s <= distance spot x).
Proof.
  split; [done|]. intros Hne.
  destruct (first_nearest_exists strikes spot Hne) as (l1 & s & l2 & -> & H1 & H2).
  exists s. split; [|split].
  - apply elem_of_app. right. left.
  - by apply findATMStrike_first_nearest.
  - intros x [Hx|Hx]%elem_of_app.
    + apply Qlt_le_weak. by apply H1.
    + apply elem_of_cons in Hx as [->|Hx]; [apply Qle_refl | by apply H2].
Qed.

(** ** The window around the at-the-money strike *)

Lemma distance_price_eq spot x s :
  strikePrice x == strikePrice s → distance spot x == distance spot s.
Proof. intros H. unfold distance. by rewrite H. Qed.

Lemma findIndex_first_nearest l1 s l2 spot :
  (∀ x, x ∈ l1 → distance spot s < distance spot x) →
  findIndex (strikePrice s) (l1 ++ s :: l2) = Some (length l1).
Proof.
  intros H1. induction l1 as [|x l1 IH]; cbn [app findIndex length].
  - by rewrite (proj2 (Qeq_bool_iff _ _) (Qeq_refl _)).
  - assert (Hx : ¬ strikePrice x == strikePrice s).
    { intros Heq. apply (distance_price_eq spot) in Heq.
      assert (distance spot s < distance spot x) by (apply H1; left). lra. }
    rewrite (proj2 (Qeq_bool_false _ _) Hx), IH; [done|].
    intros y Hy. apply H1. by right.
Qed.

(** The window is what is left of the 15 strikes before the first nearest
    strike, that strike, and what is left of the 15 strikes after it. *)
Lemma filterStrikeRange_first_nearest l1 s l2 spot :
  (∀ x, x ∈ l1 → distance spot s < distance spot x) →
  (∀ x, x ∈ l2 → distance spot s <= distance spot x) →
  filterStrikeRange (l1 ++ s :: l2) spot
  = drop (length l1 - 15) l1 ++ s :: take 15 l2.
Proof.
  intros H1 H2. unfold filterStrikeRange.
  rewrite (findATMStrike_first_nearest l1 s l2 spot H1 H2).
  rewrite (findIndex_first_nearest l1 s l2 spot H1).
  unfold slice. rewrite length_app. cbn [length].
  rewrite drop_app_le by lia.
  rewrite take_app, length_drop.
  rewrite take_ge by (rewrite length_drop; lia).
  f_equal.
  replace (Nat.min (length l1 + S (length l2)) (length l1 + 16) - (length l1 - 15)
           - (length l1 - (length l1 - 15)))%nat
    with (S (Nat.min (length l2) 15)) by lia.
  cbn [take]. f_equal. destruct (Nat.min_spec (length l2) 15) as [[Hlt ->]|[Hge ->]];
    [by rewrite !take_ge by lia | done].
Qed.

(** The fall-back branch of [filterStrikeRange] is taken on the empty
    chain only. *)
Theorem filterStrikeRange_fallback_only_empty strikes spot :
  findIndex (findATMStrike strikes spot) strikes = None ↔ strikes = [].
Proof.
  split; [|by intros ->].
  intros Hnone. destruct strikes as [|s0 strikes]; [done|]. exfalso.
  destruct (first_nearest_exists (s0 :: strikes) spot) as (l1 & s & l2 & Hl & H1 & H2);
    [done|].
  rewrite Hl, (findATMStrike_first_nearest l1 s l2 spot H1 H2) in Hnone.
  by rewrite (findIndex_first_nearest l1 s l2 spot H1) in Hnone.
Qed.

Lemma filterStrikeRange_window_spec strikes spot :
  let window := filterStrikeRange strikes spot in
  (length window ≤ 31)%nat
  ∧ (∃ before after, strikes = before ++ window ++ after)
  ∧ ((length strikes ≤ 16)%nat → window = strikes)
  ∧ (strikes ≠ [] →
     ∃ w1 s w2, window = w1 ++ s :: w2
       ∧ strikePrice s = findATMStrike strikes spot
       ∧ (length w1 ≤ 15)%nat ∧ (length w2 ≤ 15)%nat).
Proof.
  cbv zeta. destruct strikes as [|s0 strikes].
  - repeat split; [cbn; lia | by exists [], [] | done].
  - destruct (first_nearest_exists (s0 :: strikes) spot) as (l1 & s & l2 & Hl & H1 & H2);
      [done|].
    rewrite Hl, (filterStrikeRange_first_nearest l1 s l2 spot H1 H2).
    split; [|split; [|split]].
    + rewrite length_app, length_drop. cbn [length]. rewrite length_take. lia.
    + exists (take (length l1 - 15) l1), (drop 15 l2).
      rewrite <- (assoc_L (++)). cbn [app].
      rewrite (assoc_L (++)), take_drop.
      by rewrite <- (take_drop 15 l2) at 1.
    + rewrite length_app. cbn [length]. intros Hlen.
      replace (length l1 - 15)%nat with 0%nat by lia.
      by rewrite drop_0, take_ge by lia.
    + intros _. exists (drop (length l1 - 15) l1), s, (take 15 l2).
      split; [done|].
      split; [by rewrite (findATMStrike_first_nearest l1 s l2 spot H1 H2)|].
      rewrite length_drop, length_take. lia.
Qed.

(** X3.  The window holds at most 31 strikes, is a run of consecutive strikes
    of the chain, keeps the whole chain when that has at most 16 strikes,
    and, unless the chain is empty, holds the first nearest strike with at
    most 15 strikes on either side. *)
Theorem filterStrikeRange_window strikes spot :
  let window := filterStrikeRange strikes spot in
  (length window ≤ 31)%nat
  ∧ (∃ before after, strikes = before ++ window ++ after)
  ∧ ((length strikes ≤ 16)%nat → window = strikes)
  ∧ (strikes ≠ [] →
     ∃ w1 s w2, window = w1 ++ s :: w2
       ∧ strikePrice s = findATMStrike strikes spot
       ∧ (length w1 ≤ 15)%nat ∧ (length w2 ≤ 15)%nat).
Proof. exact (filterStrikeRange_window_spec strikes spot). Qed.

(** The poller computes the at-the-money strike on the window: it is the
    at-the-money strike of the whole chain. *)
Theorem findATMStrike_window strikes spot :
  findATMStrike (filterStrikeRange strikes spot) spot = findATMStrike strikes spot.
Proof.
  destruct strikes as [|s0 strikes]; [done|].
  destruct (first_nearest_exists (s0 :: strikes) spot) as (l1 & s & l2 & Hl & H1 & H2);
    [done|].
  rewrite Hl, (filterStrikeRange_first_nearest l1 s l2 spot H1 H2).
  rewrite !findATMStrike_first_nearest; try done.
  - intros x Hx. apply H1. by eapply subseteq_drop.
  - intros x Hx. apply H2. by eapply subseteq_take.
Qed.

(** ** Highest volume and open interest *)

Lemma highest_of_from (f : StrikeData → Q) l (h0 : Q) :
  let h := foldl (fun hi s => if Qltb hi (f s) then f s else hi) h0 l in
  h0 <= h ∧ (∀ s, s ∈ l → f s <= h) ∧ (h = h0 ∨ ∃ s, s ∈ l ∧ h = f s).
Proof.
  cbv zeta. revert h0. induction l as [|x l IH]; intros h0; cbn [foldl].
  - split; [apply Qle_refl|]. split; [|by left].
    intros s Hs. by apply elem_of_nil in Hs.
  - destruct (Qltb h0 (f x)) eqn:E.
    + apply Qltb_lt in E. destruct (IH (f x)) as (Hle & Hall & Hin).
      split; [lra|]. split.
      * intros s [->|Hs]%elem_of_cons; [done | by apply Hall].
      * right. destruct Hin as [->|(s & Hs & ->)].
        -- exists x. split; [left | done].
        -- exists s. split; [by right | done].
    + apply Qltb_ge in E. destruct (IH h0) as (Hle & Hall & Hin).
      split; [done|]. split.
      * intros s [->|Hs]%elem_of_cons; [lra | by apply Hall].
      * destruct Hin as [->|(s & Hs & ->)]; [by left|].
        right. exists s. split; [by right | done].
Qed.

(** X4.  Each of the four maxima is non-negative, bounds the value of every
    strike, and is 0 or the value of some strike. *)
Theorem findHighest_max strikes :
  is_highest ceVolume strikes (findHighestVolumes strikes).1
  ∧ is_highest peVolume strikes (findHighestVolumes strikes).2
  ∧ is_highest ceOI strikes (findHighestOI strikes).1
  ∧ is_highest peOI strikes (findHighestOI strikes).2.
Proof.
  unfold findHighestVolumes, findHighestOI, is_highest. cbn [fst snd].
  repeat split; try apply (highest_of_from _ strikes 0).
Qed.

(** ** Volume colour *)

(** X5.  [calculateVolumeColor] never divides by zero and returns: the strong
    colour for a volume equal to a positive highest volume; otherwise the
    tint when the previous volume is positive and the rise is at least
    70%; otherwise transparent, in particular whenever the previous volume
    is not positive or the volume has not risen. *)
Theorem calculateVolumeColor_cases (volume previous highest : Q) (isCE : bool) :
  (volume == highest → 0 < highest →
     calculateVolumeColor volume previous highest isCE
     = Some (if isCE then "#4caf50" else "#f44336"))
  ∧ (¬ (volume == highest ∧ 0 < highest) →
       (0 < previous → (7 # 10) <= (volume - previous) / previous →
          calculateVolumeColor volume previous highest isCE
          = Some (if isCE then "#c8e6c9" else "#ffcdd2"))
       ∧ (0 < previous → (volume - previous) / previous < (7 # 10) →
          calculateVolumeColor volume previous highest isCE = Some "transparent")
       ∧ (previous <= 0 →
          calculateVolumeColor volume previous highest isCE = Some "transparent")
       ∧ (0 < previous → volume <= previous →
          calculateVolumeColor volume previous highest isCE = Some "transparent")).
Proof.
  split.
  - intros He Hh. unfold calculateVolumeColor. rewrite isHighest_true by done.
    destruct (Qltb 0 previous) eqn:Hp; [|done].
    apply Qltb_lt in Hp. by rewrite checked_div_nonzero by lra.
  - intros Hn. unfold calculateVolumeColor. rewrite isHighest_false by done.
    assert (Hlow : 0 < previous → (volume - previous) / previous < (7 # 10) →
                   (let* isRising :=
                      (if Qltb 0 previous
                       then let* change := checked_div (volume - previous) previous in
                            Some (Qle_bool (7 # 10) change)
                       else Some false) in
                    Some (if false then (if isCE then "#4caf50" else "#f44336")
                          else if isRising then (if isCE then "#c8e6c9" else "#ffcdd2")
                          else "transparent")) = Some "transparent").
    { intros Hp Hlt. qbool. rewrite checked_div_nonzero by lra. cbn [bind]. by qbool. }
    split; [|split; [|split]].
    + intros Hp Hrise. qbool. rewrite checked_div_nonzero by lra. cbn [bind]. by qbool.
    + done.
    + intros Hp. by rewrite (proj2 (Qltb_ge _ _) Hp).
    + intros Hp Hle. apply Hlow; [done|].
      apply Qlt_shift_div_r; [done | lra].
Qed.

Lemma calculateVolumeColor_cases_witness :
  calculateVolumeColor 1700 1000 5000 true = Some "#c8e6c9"
  ∧ calculateVolumeColor 900 1000 5000 false = Some "transparent".
Proof.
  split.
  - apply (proj1 (proj2 (calculateVolumeColor_cases 1700 1000 5000 true)
             ltac:(intros [H _]; vm_compute in H; discriminate)));
      [reflexivity | vm_compute; discriminate].
  - apply (proj2 (proj2 (proj2 (proj2 (calculateVolumeColor_cases 900 1000 5000 false)
             ltac:(intros [H _]; vm_compute in H; discriminate)))));
      [reflexivity | vm_compute; discriminate].
Defined.

End ChainUtilsProps.

(* ===================================================================== *)
(** * Further properties of a tick *)
(* ===================================================================== *)

Module TickProps.
Import Num NumProps OptionChainUtils ChainNotions ColorProps Enrichment
       EnrichmentProps ChainUtilsProps.
Local Open Scope Q_scope.

Lemma enrichStrike_fields spot atm hcv hpv hco hpo previousData strike :
  ∃ es, enrichStrike spot atm hcv hpv hco hpo previousData strike = Some es
        ∧ e_strikePrice es = strikePrice strike
        ∧ isATM es = Qeq_bool (strikePrice strike) atm.
Proof.
  unfold enrichStrike.
  repeat match goal with
  | |- context [calculateVolumeColor ?a ?b ?c ?d] =>
      destruct (calculateVolumeColor_total a b c d) as [? ->]; cbn [bind]
  | |- context [calculateOIColor ?a ?b ?c ?d] =>
      destruct (calculateOIColor_total a b c d) as [? ->]; cbn [bind]
  end.
  eexists. split; [reflexivity|]. by split.
Qed.

Lemma mapFault_Forall2 {A B} (f : A → option B) (R : A → B → Prop) (l : list A) :
  (∀ a, ∃ b, f a = Some b ∧ R a b) →
  ∃ bs, mapFault f l = Some bs ∧ Forall2 R l bs.
Proof.
  intros Hf. induction l as [|a l (bs & Hbs & HR)]; cbn [mapFault].
  - exists []. by split.
  - destruct (Hf a) as (b & -> & Hb). rewrite Hbs. cbn [bind].
    exists (b :: bs). split; [done | by constructor].
Qed.

(** X6.  What a tick publishes, whatever the cache returned: one enriched
    strike per strike of the window, in the same order and with the same
    strike price, hence at most 31; the at-the-money strike of the whole
    chain; the at-the-money flag on exactly the strikes whose price equals
    it, and on at least one strike unless the chain is empty. *)
Theorem buildBroadcast_strikes (upperSymbol expiry : string) (spotPrice : Q)
    (allStrikes : list StrikeData) (isRealData : bool)
    (previousData : option ChainSnapshot) :
  ∃ payload,
    buildBroadcast upperSymbol expiry spotPrice allStrikes isRealData previousData
    = Some payload
    ∧ e_strikePrice <$> b_strikes payload
      = strikePrice <$> filterStrikeRange allStrikes spotPrice
    ∧ (length (b_strikes payload) ≤ 31)%nat
    ∧ b_atmStrike payload = findATMStrike allStrikes spotPrice
    ∧ (∀ es, es ∈ b_strikes payload →
             isATM es = true ↔ e_strikePrice es == b_atmStrike payload)
    ∧ (allStrikes ≠ [] → ∃ es, es ∈ b_strikes payload ∧ isATM es = true).
Proof.
  unfold buildBroadcast.
  destruct (findHighestVolumes _) as [hcv hpv], (findHighestOI _) as [hco hpo].
  set (window := filterStrikeRange allStrikes spotPrice).
  set (atm := findATMStrike window spotPrice).
  destruct (mapFault_Forall2
              (enrichStrike spotPrice atm hcv hpv hco hpo previousData)
              (fun strike es => e_strikePrice es = strikePrice strike
                                ∧ isATM es = Qeq_bool (strikePrice strike) atm)
              window) as (bs & -> & HR).
  { intros a. apply enrichStrike_fields. }
  cbn [bind]. destruct (calculatePCR_total window) as [pcr ->]. cbn [bind].
  eexists. split; [reflexivity|]. cbn [b_strikes b_atmStrike].
  assert (Hprices : e_strikePrice <$> bs = strikePrice <$> window).
  { induction HR as [|a b l bs' [Hp _] _ IH]; [done|]. cbn. by rewrite Hp, IH. }
  assert (Hatm : atm = findATMStrike allStrikes spotPrice)
    by apply findATMStrike_window.
  split; [done|]. split.
  { replace (length bs) with (length (e_strikePrice <$> bs)) by apply length_fmap.
    rewrite Hprices, length_fmap. apply (filterStrikeRange_window_spec allStrikes spotPrice). }
  split; [done|]. split.
  - intros es Hes. apply list_elem_of_lookup in Hes as [i Hi].
    destruct (Forall2_lookup_r _ _ _ _ _ HR Hi) as (strike & _ & Hp & Hflag).
    rewrite Hflag, Hp. apply Qeq_bool_iff.
  - intros Hne.
    destruct (proj2 (proj2 (proj2 (filterStrikeRange_window_spec allStrikes spotPrice))) Hne)
      as (w1 & s & w2 & Hw & Hs & _).
    assert (Hin : s ∈ window) 
      by (fold window in Hw; rewrite Hw; apply elem_of_app; right; left).
    apply list_elem_of_lookup in Hin as [i Hi].
    destruct (Forall2_lookup_l _ _ _ _ _ HR Hi) as (es & Hes & Hp & Hflag).
    exists es. split; [by eapply list_elem_of_lookup_2|].
    rewrite Hflag, Hs, Hatm. apply Qeq_bool_iff, Qeq_refl.
Qed.

End TickProps.

(* ===================================================================== *)
(** * Further properties of the snapshot caches *)
(* ===================================================================== *)

Module CacheMoreProps.
Import CacheProps.
Local Open Scope nat_scope.

(** The last entry and the one before it, as the getters read them. *)
Lemma last_two_app {A} (l : list (CacheEntry A)) (e : CacheEntry A) :
  (l ++ [e]) !! (length (l ++ [e]) - 1) = Some e
  ∧ (l ++ [e]) !! (length (l ++ [e]) - 2) = l !! (length l - 1)
    ∨ l = [].
Proof.
  destruct l as [|x l] using rev_ind; [by right|]. left.
  rewrite !length_app. cbn [length]. split.
  - rewrite lookup_app_r by (rewrite length_app; cbn; lia).
    rewrite length_app. cbn [length].
    by replace (length l + 1 + 1 - 1 - (length l + 1)) with 0 by lia.
  - replace (length l + 1 + 1 - 2) with (length l) by lia.
    replace (length l + 1 - 1) with (length l) by lia.
    rewrite lookup_app_l by (rewrite length_app; cbn; lia). done.
Qed.

Section InProcess.
Import OptionChainCache.
Context {A : Type}.
Implicit Types (cache : gmap string (list (CacheEntry A))) (l : list (CacheEntry A)).

Lemma getLatest_getAll s e cache :
  getLatest s e cache = data <$> last (getAll s e cache).
Proof.
  unfold getLatest, getAll. destruct (default [] _) as [|x l] using rev_ind; [done|].
  rewrite length_app, last_snoc. cbn [length].
  replace (0 <? length l + 1) with true by (symmetry; apply Nat.ltb_lt; lia).
  replace (length l + 1 - 1) with (length l + 0) by lia.
  by rewrite lookup_app_r, Nat.add_0_r, Nat.sub_diag by lia.
Qed.

Lemma getPrevious_last s e cache :
  getPrevious s e cache = data <$> last (removelast (getAll s e cache)).
Proof.
  rewrite getPrevious_getAll. cbv zeta.
  destruct (getAll s e cache) as [|x l] using rev_ind; [done|].
  rewrite removelast_last.
  destruct l as [|y l _] using rev_ind; [done|].
  rewrite last_snoc, !length_app. cbn [length].
  replace (2 <=? length l + 1 + 1) with true by (symmetry; apply Nat.leb_le; lia).
  replace (length l + 1 + 1 - 2) with (length l) by lia.
  rewrite <- (assoc_L (++)).
  by rewrite lookup_app_r, Nat.sub_diag by lia.
Qed.

Lemma pushed_last l d now : last (pushed l d now) = Some (mkEntry now d).
Proof.
  unfold pushed, MAX_ENTRIES, shift.
  destruct (3 <? length (l ++ [mkEntry now d])) eqn:E; [|apply last_snoc].
  destruct l as [|x l]; [done|]. cbn [app tail]. apply last_snoc.
Qed.

Lemma pushed_removelast l d now :
  last (removelast (pushed l d now)) = last l.
Proof.
  unfold pushed, MAX_ENTRIES, shift.
  destruct (3 <? length (l ++ [mkEntry now d])) eqn:E.
  - apply Nat.ltb_lt in E. rewrite length_app in E. cbn in E.
    destruct l as [|x [|y l]]; cbn in E; try lia.
    cbn [app tail]. change (y :: l ++ [mkEntry now d]) with ((y :: l) ++ [mkEntry now d]).
    rewrite removelast_last. by rewrite (last_cons_cons x y l).
  - by rewrite removelast_last.
Qed.

(** X7.  Storing and reading back, in any cache: the latest snapshot is the
    one just stored and the previous one is what was the latest before.
    After two stores [getPrevious] returns the first payload and
    [getLatest] the second. *)
Theorem store_then_read s e (d1 d2 : A) t1 t2 cache :
  let cache1 := store s e d1 t1 cache in
  let cache2 := store s e d2 t2 cache1 in
  getLatest s e cache1 = Some d1
  ∧ getPrevious s e cache1 = getLatest s e cache
  ∧ getLatest s e cache2 = Some d2
  ∧ getPrevious s e cache2 = Some d1.
Proof.
  cbv zeta.
  assert (H1 : ∀ (d : A) t cache, getLatest s e (store s e d t cache) = Some d).
  { intros d t c. by rewrite getLatest_getAll, getAll_store, pushed_last. }
  assert (H2 : ∀ (d : A) t cache, getPrevious s e (store s e d t cache) = getLatest s e cache).
  { intros d t c.
    by rewrite getPrevious_last, getAll_store, pushed_removelast, getLatest_getAll. }
  by rewrite !H2, !H1.
Qed.

(** Keys do not interfere: a store or a clear under another cache key
    leaves what a key holds; a clear empties its own key and
    [clearAll] every key. *)
Theorem cache_keys_independent s e s' e' (d : A) now cache :
  (getCacheKey s e ≠ getCacheKey s' e' →
     getAll s e (store s' e' d now cache) = getAll s e cache
     ∧ getAll s e (clear s' e' cache) = getAll s e cache)
  ∧ getAll s e (clear s e cache) = []
  ∧ getLatest s e (clear s e cache) = None
  ∧ getPrevious s e (clear s e cache) = None
  ∧ getAll s e (clearAll cache) = [].
Proof.
  split; [intros Hne; split|repeat split].
  - unfold getAll, store. by rewrite lookup_insert_ne.
  - unfold getAll, clear. by rewrite lookup_delete_ne.
  - unfold getAll, clear. by rewrite lookup_delete_eq.
  - unfold getLatest, clear. by rewrite lookup_delete_eq.
  - unfold getPrevious, clear. by rewrite lookup_delete_eq.
Qed.

End InProcess.

Lemma cache_keys_independent_witness :
  OptionChainCache.getAll "NIFTY" "2025-11-28"
    (OptionChainCache.store "BANKNIFTY" "2025-11-28" 7%nat 2000
       (OptionChainCache.store "NIFTY" "2025-11-28" 5%nat 1000 ∅))
  = [mkEntry 1000 5%nat].
Proof.
  rewrite (proj1 (proj1 (cache_keys_independent
             "NIFTY" "2025-11-28" "BANKNIFTY" "2025-11-28" 7%nat 2000
             (OptionChainCache.store "NIFTY" "2025-11-28" 5%nat 1000 ∅)) ltac:(by vm_compute))).
  reflexivity.
Defined.

(** ** Statistics of the in-process cache *)
Section Stats.
Import OptionChainCache CacheStats.
Context {A : Type}.
Implicit Types (cache : gmap string (list (CacheEntry A))).

Lemma totalEntries_bound cache :
  bounded cache → (getStats cache).2 ≤ 3 * (getStats cache).1.
Proof.
  unfold getStats. cbn [fst snd].
  apply (map_fold_weak_ind
           (λ r (m : gmap string (list (CacheEntry A))), bounded m → r ≤ 3 * size m)).
  - intros _. rewrite map_size_empty. lia.
  - intros k l m r Hk IH Hb. rewrite map_size_insert_None by done.
    assert (length l ≤ 3) by (apply (Hb k); apply lookup_insert_eq).
    assert (bounded m).
    { intros k' l' Hl'. apply (Hb k').
      rewrite lookup_insert_ne; [done|]. intros ->. congruence. }
    specialize (IH ltac:(done)). lia.
Qed.

(** [getStats] after any sequence of stores and clears: never more than
    three entries per key on average, and none without a key. *)
Theorem getStats_bound (ops : list (op A)) :
  let '(totalKeys, totalEntries) := getStats (run ops) in
  totalEntries ≤ 3 * totalKeys.
Proof.
  pose proof (totalEntries_bound (run ops) (run_bounded ops)) as H.
  by destruct (getStats (run ops)).
Qed.
End Stats.

(** ** The Redis-backed cache *)
Section Redis.
Import RedisCache TickCache.
Context {A : Type}.
Implicit Types (r : Redis A) (l h : list (CacheEntry A)).

Lemma redis_getLatest_getAll s e now r :
  status r = Ready →
  getLatest s e now r = data <$> last (getAll s e now r).
Proof.
  intros Hr. unfold getLatest, getAll. rewrite Hr. cbn [is_ready negb].
  destruct (get _ _ _) as [l|]; [|done]. simpl.
  destruct l as [|x l _] using rev_ind; [done|].
  rewrite length_app, last_snoc. cbn [length].
  replace (0 <? length l + 1) with true by (symmetry; apply Nat.ltb_lt; lia).
  replace (length l + 1 - 1) with (length l + 0) by lia.
  by rewrite lookup_app_r, Nat.add_0_r, Nat.sub_diag by lia.
Qed.

Lemma penultimate_snoc l x : penultimate (l ++ [x]) = last l.
Proof.
  unfold penultimate. rewrite length_app. cbn [length].
  destruct l as [|y l _] using rev_ind; [done|].
  rewrite length_app, last_snoc. cbn [length].
  replace (2 <=? length l + 1 + 1) with true by (symmetry; apply Nat.leb_le; lia).
  replace (length l + 1 + 1 - 2) with (length l) by lia.
  rewrite <- (assoc_L (++)).
  by rewrite lookup_app_r, Nat.sub_diag by lia.
Qed.

Lemma penultimate_slice h : penultimate (slice_last 3 h) = penultimate h.
Proof.
  unfold penultimate, slice_last. rewrite length_drop.
  destruct (decide (length h ≤ 3)) as [Hs|Hs].
  - replace (length h - 3) with 0 by lia. by rewrite Nat.sub_0_r, drop_0.
  - replace (length h - (length h - 3)) with 3 by lia.
    replace (2 <=? length h) with true by (symmetry; apply Nat.leb_le; lia).
    cbn [Nat.leb Nat.sub]. rewrite lookup_drop. f_equal. lia.
Qed.

Lemma last_slice h : last (slice_last 3 h) = last h.
Proof.
  unfold slice_last. rewrite !last_lookup, length_drop, lookup_drop.
  destruct h as [|x h]; [done|]. f_equal. cbn [length]. lia.
Qed.

Lemma redis_getPrevious_penultimate s e now r :
  status r = Ready →
  getPrevious s e now r = data <$> penultimate (getAll s e now r).
Proof.
  intros Hr. rewrite redis_getPrevious_getAll by done. cbv zeta.
  unfold penultimate. by destruct (2 <=? _).
Qed.

(** X8.  Storing and reading back on a ready client, each read less than a
    TTL after the store before it: the latest snapshot is the one just
    stored, the previous one is what was the latest before, and after
    two stores [getPrevious] returns the first payload. *)
Theorem redis_store_then_read s e (d1 d2 : A) (t1 t2 t3 : Z) r :
  status r = Ready → (t2 < t1 + TTL_MS)%Z → (t3 < t2 + TTL_MS)%Z →
  let r1 := store s e d1 t1 r in
  let r2 := store s e d2 t2 r1 in
  getLatest s e t2 r1 = Some d1
  ∧ getPrevious s e t2 r1 = getLatest s e t1 r
  ∧ getLatest s e t3 r2 = Some d2
  ∧ getPrevious s e t3 r2 = Some d1.
Proof.
  intros Hr H12 H23. cbv zeta.
  assert (H1 : ∀ (d : A) t t' r, status r = Ready → (t' < t + TTL_MS)%Z →
             getLatest s e t' (store s e d t r) = Some d).
  { intros d t t' r' Hr' Ht.
    rewrite redis_getLatest_getAll by by rewrite redis_status_store.
    rewrite redis_getAll_store, pushed_slice, last_slice, last_snoc by done. done. }
  assert (H2 : ∀ (d : A) t t' r, status r = Ready → (t' < t + TTL_MS)%Z →
             getPrevious s e t' (store s e d t r) = getLatest s e t r).
  { intros d t t' r' Hr' Ht.
    rewrite redis_getPrevious_penultimate by by rewrite redis_status_store.
    rewrite redis_getAll_store, pushed_slice, penultimate_slice, penultimate_snoc by done.
    by rewrite redis_getLatest_getAll. }
  assert (Hr1 : status (store s e d1 t1 r) = Ready) by by rewrite redis_status_store.
  by rewrite !H2, !H1.
Qed.

Lemma redis_getAll_lapsed s e (d : A) now now' r :
  status r = Ready → (now + TTL_MS ≤ now')%Z →
  getAll s e now' (store s e d now r) = [].
Proof.
  intros Hr Hle. rewrite redis_store_ready by done.
  unfold getAll, get, setex. cbn [db]. rewrite lookup_insert_eq.
  fold TTL_MS.
  by replace (now' <? now + TTL_MS)%Z with false by (symmetry; apply Z.ltb_ge; lia).
Qed.

(** X9.  A snapshot is gone a TTL (24 hours) after the last store under its
    key: every getter then answers as for a key never written, and the
    next store starts a new history of one entry. *)
Theorem redis_ttl_lapse s e (d d' : A) (now now' now'' : Z) r :
  status r = Ready → (now + TTL_MS ≤ now')%Z → (now'' < now' + TTL_MS)%Z →
  getAll s e now' (store s e d now r) = []
  ∧ getLatest s e now' (store s e d now r) = None
  ∧ getPrevious s e now' (store s e d now r) = None
  ∧ getAll s e now'' (store s e d' now' (store s e d now r)) = [mkEntry now' d'].
Proof.
  intros Hr Hle Hlt.
  assert (Hr1 : status (store s e d now r) = Ready) by by rewrite redis_status_store.
  pose proof (redis_getAll_lapsed s e d now now' r Hr Hle) as Hall.
  repeat split.
  - done.
  - by rewrite redis_getLatest_getAll, Hall.
  - by rewrite redis_getPrevious_penultimate, Hall.
  - by rewrite redis_getAll_store, Hall.
Qed.
End Redis.

Lemma redis_store_then_read_witness :
  RedisCache.getPrevious "NIFTY" "2025-11-28" 10000
    (RedisCache.store "NIFTY" "2025-11-28" 7%nat 5000
       (RedisCache.store "NIFTY" "2025-11-28" 5%nat 0
          (RedisCache.mkRedis RedisCache.Ready ∅)))
  = Some 5%nat.
Proof.
  apply (redis_store_then_read "NIFTY" "2025-11-28" 5%nat 7%nat 0 5000 10000
           (RedisCache.mkRedis RedisCache.Ready ∅));
    [reflexivity | by vm_compute | by vm_compute].
Defined.

Lemma redis_ttl_lapse_witness :
  RedisCache.getLatest "NIFTY" "2025-11-28" 86400000
    (RedisCache.store "NIFTY" "2025-11-28" 5%nat 0
       (RedisCache.mkRedis RedisCache.Ready ∅))
  = None.
Proof.
  apply (redis_ttl_lapse "NIFTY" "2025-11-28" 5%nat 7%nat 0 86400000 86405000
           (RedisCache.mkRedis RedisCache.Ready ∅));
    [reflexivity | by vm_compute | by vm_compute].
Defined.

(** ** What successive ticks read from the cache *)
Section Ticks.
Import RedisCache TickCache.
Context {A : Type}.
Implicit Types (r : Redis A) (h : list (CacheEntry A)) (ticks : list (Z * A)).

Lemma previousSeen_length s e r ticks :
  length (previousSeen s e r ticks) = length ticks.
Proof.
  revert r. induction ticks as [|[now d] rest IH]; intros r; [done|].
  cbn [previousSeen length]. by rewrite IH.
Qed.

Lemma previousSeen_not_ready s e r ticks :
  status r ≠ Ready → previousSeen s e r ticks = replicate (length ticks) None.
Proof.
  intros Hr. induction ticks as [|[now d] rest IH]; [done|].
  cbn [previousSeen length replicate].
  by rewrite redis_getPrevious_not_ready, redis_store_not_ready, IH.
Qed.

Lemma previousSeen_from s e ticks : ∀ r h k,
  status r = Ready →
  (∀ now d rest, ticks = (now, d) :: rest → getAll s e now r = slice_last 3 h) →
  within_ttl ticks.*1 →
  k < length ticks →
  previousSeen s e r ticks !! k
  = Some (data <$> penultimate (h ++ take k (entries_of ticks))).
Proof.
  induction ticks as [|[now d] rest IH]; intros r h k Hr Hall Hw Hk;
    [cbn in Hk; lia|].
  cbn [previousSeen]. destruct k as [|k].
  - cbn [lookup list_lookup take]. rewrite app_nil_r.
    rewrite redis_getPrevious_penultimate, (Hall now d rest eq_refl) by done.
    by rewrite penultimate_slice.
  - cbn [lookup list_lookup].
    rewrite (IH _ (h ++ [mkEntry now d]) k).
    + cbn [entries_of fmap list_fmap take fst snd].
      by rewrite <- (assoc_L (++)).
    + by rewrite redis_status_store.
    + intros now' d' rest' ->. cbn in Hw. destruct Hw as [Hlt _].
      rewrite redis_getAll_store, (Hall now d _ eq_refl) by done.
      apply pushed_after_slice.
    + destruct rest as [|[??] ?]; [done|]. by destruct Hw.
    + cbn in Hk. lia.
Qed.

Lemma penultimate_entries ticks k :
  k < length ticks →
  data <$> penultimate (take k (entries_of ticks))
  = default None ((None :: None :: ((λ td, Some td.2) <$> ticks)) !! k).
Proof.
  intros Hk. destruct k as [|[|k]].
  - done.
  - by destruct ticks.
  - change ((None :: None :: ?l) !! S (S k)) with (l !! k).
    unfold penultimate, entries_of.
    rewrite length_take, length_fmap.
    replace (S (S k) `min` length ticks) with (S (S k)) by lia.
    cbn [Nat.leb Nat.sub]. rewrite Nat.sub_0_r.
    rewrite lookup_take_lt, !list_lookup_fmap by lia.
    by destruct (ticks !! k) as [[??]|].
Qed.

(** X10.  What the ticks of one symbol and expiry get from [getPrevious],
    which each tick calls before it stores its own snapshot.  On a
    client that is not ready every tick gets nothing.  On a ready
    client, starting from a key not yet written and with each tick less
    than a TTL after the one before, the first two ticks get nothing and
    every later tick gets the snapshot stored two ticks before it, not
    the one of the tick just before. *)
Theorem previousSeen_two_back s e r ticks :
  (status r ≠ Ready →
     previousSeen s e r ticks = replicate (length ticks) None)
  ∧ (status r = Ready → db r !! getCacheKey s e = None → within_ttl ticks.*1 →
     previousSeen s e r ticks
     = take (length ticks) (None :: None :: ((λ td, Some td.2) <$> ticks))).
Proof.
  split; [apply previousSeen_not_ready|].
  intros Hr Hfresh Hw. apply list_eq. intros k.
  destruct (decide (k < length ticks)) as [Hk|Hk].
  - rewrite (previousSeen_from s e ticks r [] k Hr); [|  |done|done].
    + rewrite lookup_take_lt by done. cbn [app].
      rewrite penultimate_entries by done.
      destruct (_ !! k) as [o|] eqn:E; [done|].
      apply lookup_ge_None in E. cbn [length] in E. rewrite length_fmap in E. lia.
    + intros now d rest _. unfold getAll, get. by rewrite Hfresh.
  - rewrite !(proj2 (lookup_ge_None _ _)); [done| |].
    + rewrite length_take. lia.
    + rewrite previousSeen_length. lia.
Qed.
End Ticks.

Lemma previousSeen_two_back_witness :
  TickCache.previousSeen "NIFTY" "2025-11-28"
    (RedisCache.mkRedis RedisCache.Ready ∅)
    [(0%Z, 1); (5000%Z, 2); (10000%Z, 3); (15000%Z, 4)]
  = [None; None; Some 1; Some 2].
Proof.
  apply (proj2 (previousSeen_two_back "NIFTY" "2025-11-28"
                  (RedisCache.mkRedis RedisCache.Ready ∅)
                  [(0%Z, 1); (5000%Z, 2); (10000%Z, 3); (15000%Z, 4)]));
    [reflexivity | reflexivity | by vm_compute].
Defined.

End CacheMoreProps.

(* ===================================================================== *)
(** * Further properties of the broadcaster *)
(* ===================================================================== *)

Module BroadcasterMoreProps.
Import Exn WebSocketService WebSocketStats BroadcasterProps.
Local Open Scope nat_scope.

Section Handlers.
Context {A : Type}.
Implicit Types (s : Service A) (ws : nat) (env : Sockets A) (key : string).

Lemma removeClient_spec ws s :
  removeClient ws s =
    (Returned tt,
     match clients s !! ws with
     | None => s
     | Some subscriptions =>
         mkService (delete ws (clients s))
           (foldl (fun channels key => dropSubscriber ws key channels)
                  (channelSubscribers s) (elements subscriptions))
           (next_ws s) (sends s)
     end).
Proof.
  unfold removeClient, bind at 1, gets.
  destruct (clients s !! ws) as [subscriptions|]; [|done].
  unfold bind. rewrite forEach_drop. done.
Qed.

Lemma handleMessage_returns env ws type channel symbol expiry now s :
  ∃ s', handleMessage env ws type channel symbol expiry now s = (Returned tt, s')
        ∧ next_ws s' = next_ws s ∧ ∃ l, sends s' = sends s ++ l.
Proof.
  unfold handleMessage.
  destruct (String.eqb type "subscribe"); [|destruct (String.eqb type "unsubscribe")].
  - unfold subscribe, bind at 1, gets.
    destruct (clients s !! ws).
    + unfold bind, modify. rewrite sendToClient_spec. cbn. eexists. split; [done|]. cbn. split; [done|]. by eexists.
    + eexists. split; [done|]. split; [done|]. exists []. by rewrite app_nil_r.
  - unfold unsubscribe, bind at 1, gets.
    destruct (clients s !! ws).
    + unfold bind, modify. rewrite sendToClient_spec. cbn. eexists. split; [done|]. cbn. split; [done|]. by eexists.
    + eexists. split; [done|]. split; [done|]. exists []. by rewrite app_nil_r.
  - unfold bind. rewrite sendToClient_spec. cbn. eexists. split; [done|]. cbn. split; [done|]. by eexists.
Qed.

Lemma handle_returns env ev s :
  ∃ s', handle env ev s = (Returned tt, s')
        ∧ next_ws s' = next_ws s + (if is_connection (env, ev) then 1 else 0)
        ∧ ∃ l, sends s' = sends s ++ l.
Proof.
  destruct ev as [now | ws frame now | ws | ws | channel d now]; cbn [handle].
  - unfold bind, gets, modify. rewrite sendToClient_spec. cbn.
    eexists. split; [done|]. cbn. split; [lia|]. by eexists.
  - unfold try_catch. destruct frame as [|type channel symbol expiry].
    + unfold throw, bind. rewrite sendToClient_spec. cbn.
      eexists. split; [done|]. cbn. split; [lia|]. by eexists.
    + destruct (handleMessage_returns env ws type channel symbol expiry now s)
        as (s' & -> & Hn & Hl).
      exists s'. split; [done|]. split; [cbn; lia|done].
  - rewrite removeClient_spec. eexists. split; [done|].
    destruct (clients s !! ws); cbn; (split; [lia|]); exists []; by rewrite app_nil_r.
  - rewrite removeClient_spec. eexists. split; [done|].
    destruct (clients s !! ws); cbn; (split; [lia|]); exists []; by rewrite app_nil_r.
  - rewrite broadcast_spec. cbn. eexists. split; [done|]. cbn. split; [lia|]. by eexists.
Qed.

(** X11.  No handler installed by [initialize] and no [broadcast] throws,
    whatever the frame and whatever the sockets do, and each one only
    appends to the log of [ws.send] calls. *)
Theorem handle_never_throws env ev s :
  ∃ s', handle env ev s = (Returned tt, s')
        ∧ ∃ l, sends s' = sends s ++ l.
Proof.
  destruct (handle_returns env ev s) as (s' & H & _ & Hl). eauto.
Qed.

(** X12.  Frames that are not a subscription.  A frame on which [JSON.parse]
    throws and a frame of an unknown type change no subscription and are
    answered by one error message, sent if the socket is open.  A
    subscribe or unsubscribe frame from a socket that is not a known
    client does nothing at all: no reply is sent. *)
Theorem frames_without_effect env ws now s :
  handle env (Message ws Malformed now) s
  = (Returned tt,
     mkService (clients s) (channelSubscribers s) (next_ws s)
       (sends s ++ fanout env (ErrorMsg "Invalid message format") [ws]))
  ∧ (∀ type channel symbol expiry,
       type ≠ "subscribe"%string → type ≠ "unsubscribe"%string →
       handle env (Message ws (Frame type channel symbol expiry) now) s
       = (Returned tt,
          mkService (clients s) (channelSubscribers s) (next_ws s)
            (sends s ++ fanout env (ErrorMsg ("Unknown message type: " +:+ type)) [ws])))
  ∧ (∀ type channel symbol expiry,
       clients s !! ws = None →
       type = "subscribe"%string ∨ type = "unsubscribe"%string →
       handle env (Message ws (Frame type channel symbol expiry) now) s
       = (Returned tt, s)).
Proof.
  split; [|split].
  - cbn [handle]. unfold try_catch, throw, bind. by rewrite sendToClient_spec.
  - intros type channel symbol expiry H1 H2. cbn [handle].
    unfold try_catch, handleMessage.
    apply String.eqb_neq in H1, H2. rewrite H1, H2.
    unfold bind. by rewrite sendToClient_spec.
  - intros type channel symbol expiry Hc [-> | ->]; cbn [handle];
      unfold try_catch, handleMessage; cbn [String.eqb Ascii.eqb Bool.eqb];
      unfold subscribe, unsubscribe, bind, gets; by rewrite Hc.
Qed.

(** A broadcast sends nothing to a socket that is not subscribed. *)
Lemma broadcast_not_subscribed env channel d now s ws :
  ¬ subscriber s channel ws →
  ∀ msg ok, (ws, msg, ok) ∉ sent_by s (broadcast env channel d now s).2.
Proof.
  intros Hn msg ok. rewrite broadcast_spec. unfold sent_by. cbn [snd sends].
  rewrite drop_app_length. unfold fanout.
  intros (w & [= <- _ _] & Hin)%list_elem_of_fmap.
  apply list_elem_of_In, filter_In in Hin as [Hin%list_elem_of_In _].
  apply elem_of_elements in Hin. apply Hn.
  destruct (channelSubscribers s !! channel) as [S|] eqn:E; [|set_solver].
  by exists S.
Qed.

(** X13.  Subscribe, broadcast, unsubscribe.  After a known client subscribes,
    a broadcast on the key built from channel, symbol and expiry reaches
    it when its socket is open and the send does not throw; after it
    unsubscribes from the same key, a broadcast sends it nothing. *)
Theorem subscribe_broadcast_unsubscribe env env' ws channel symbol expiry
    (d : A) now now' s subscriptions :
  clients s !! ws = Some subscriptions →
  let key := subscriptionKey channel symbol expiry in
  let s1 := (subscribe env ws channel symbol expiry now s).2 in
  let s2 := (unsubscribe env ws channel symbol expiry now s1).2 in
  (readyState env' ws = OPEN → send_throws env' ws (Update key d now') = false →
     (ws, Update key d now', true) ∈ sent_by s1 (broadcast env' key d now' s1).2)
  ∧ (∀ msg ok, (ws, msg, ok) ∉ sent_by s2 (broadcast env' key d now' s2).2).
Proof.
  intros Hc key s1 s2. split.
  - intros Hopen Hsend. subst s1.
    rewrite (subscribe_known env ws channel symbol expiry now s _ Hc).
    fold key. cbn [snd]. rewrite broadcast_spec. unfold sent_by.
    cbn [snd sends channelSubscribers]. rewrite drop_app_length.
    rewrite lookup_insert_eq. cbn.
    apply fanout_delivers; [|done|done].
    apply elem_of_elements. set_solver.
  - apply broadcast_not_subscribed. subst s2 s1.
    rewrite (subscribe_known env ws channel symbol expiry now s _ Hc).
    fold key. cbn [snd].
    erewrite unsubscribe_known by (cbn [clients]; apply lookup_insert_eq).
    fold key. cbn [snd]. unfold subscriber. cbn [channelSubscribers].
    intros Hm.
    apply (dropSubscriber_mem ws key _ key ws) in Hm as [_ Hm]. by apply Hm.
Qed.

(** Subscribing a second time to the same key changes neither map; only
    a second confirmation is sent. *)
Theorem subscribe_idempotent env ws channel symbol expiry now now' s :
  let s1 := (subscribe env ws channel symbol expiry now s).2 in
  let s2 := (subscribe env ws channel symbol expiry now' s1).2 in
  clients s2 = clients s1 ∧ channelSubscribers s2 = channelSubscribers s1.
Proof.
  cbv zeta. destruct (clients s !! ws) as [subscriptions|] eqn:Hc.
  - rewrite (subscribe_known env ws channel symbol expiry now s _ Hc).
    cbn [snd].
    erewrite subscribe_known by (cbn [clients]; apply lookup_insert_eq).
    cbn [snd clients channelSubscribers].
    rewrite lookup_insert_eq. cbn. rewrite !insert_insert_eq.
    split; f_equal; set_solver.
  - assert (H : subscribe env ws channel symbol expiry now s = (Returned tt, s)).
    { unfold subscribe, bind, gets. by rewrite Hc. }
    rewrite H. cbn [snd].
    assert (H' : subscribe env ws channel symbol expiry now' s = (Returned tt, s)).
    { unfold subscribe, bind, gets. by rewrite Hc. }
    by rewrite H'.
Qed.
End Handlers.

Lemma frames_without_effect_witness :
  let env := mkSockets (fun _ => OPEN) (fun _ (_ : Outbound string) => false) in
  handle env (Message 0 (Frame "ping" "option-chain" None None) 2)
    (run [(env, Connection 1)])
  = (Returned tt,
     mkService {[ 0 := ∅ ]} ∅ 1
       [(0, Connected 1, true); (0, ErrorMsg "Unknown message type: ping", true)])
  ∧ handle env (Message 7 (Frame "subscribe" "option-chain" None None) 2)
      (run [(env, Connection 1)])
    = (Returned tt, run [(env, Connection 1)]).
Proof.
  intros env. split.
  - apply (proj1 (proj2 (frames_without_effect env 0 2 (run [(env, Connection 1)])))
             "ping"%string "option-chain"%string None None);
      by vm_compute.
  - apply (proj2 (proj2 (frames_without_effect env 7 2 (run [(env, Connection 1)])))
             "subscribe"%string "option-chain"%string None None);
      [by vm_compute | by left].
Defined.

Lemma subscribe_broadcast_unsubscribe_witness :
  let env := mkSockets (fun _ => OPEN) (fun _ (_ : Outbound string) => false) in
  let s := run [(env, Connection 1)] in
  let s1 := (subscribe env 0 "option-chain" (Some "NIFTY") (Some "2025-11-28") 2 s).2 in
  (0, Update "option-chain:NIFTY:2025-11-28" "payload" 3, true)
    ∈ sent_by s1 (broadcast env "option-chain:NIFTY:2025-11-28" "payload" 3 s1).2.
Proof.
  intros env s s1.
  apply (proj1 (subscribe_broadcast_unsubscribe env env 0
                  "option-chain" (Some "NIFTY") (Some "2025-11-28")
                  "payload" 2 3 s ∅ ltac:(by vm_compute)));
    reflexivity.
Defined.

Section Reachable.
Context {A : Type}.
Implicit Types (s : Service A) (ws : nat) (evs : list (Sockets A * event (A:=A))).

(** X14.  A disconnect or a socket error on any reachable state: the client
    is forgotten, it is a subscriber of no channel any more, so that no
    broadcast sends to it, and the other clients keep their
    subscriptions. *)
Theorem close_forgets_client evs env ws :
  let s := run evs in
  let s' := (handle env (Close ws) s).2 in
  handle env (SocketError ws) s = handle env (Close ws) s
  ∧ clients s' !! ws = None
  ∧ (∀ key, ¬ subscriber s' key ws)
  ∧ (∀ env' channel d now msg ok,
       (ws, msg, ok) ∉ sent_by s' (broadcast env' channel d now s').2)
  ∧ (∀ w key, w ≠ ws →
       clients s' !! w = clients s !! w
       ∧ (subscriber s' key w ↔ subscriber s key w)).
Proof.
  cbv zeta. destruct (invariant_run evs) as [[Hiff Hne] Hfresh].
  split; [done|]. cbn [handle]. rewrite removeClient_spec. cbn [snd].
  assert (Hnot : ∀ key,
    ¬ subscriber match clients (run evs) !! ws with
                 | Some subscriptions =>
                     mkService (delete ws (clients (run evs)))
                       (foldl (λ channels key, dropSubscriber ws key channels)
                          (channelSubscribers (run evs)) (elements subscriptions))
                       (next_ws (run evs)) (sends (run evs))
                 | None => run evs
                 end key ws).
  { intros key. destruct (clients (run evs) !! ws) as [subscriptions|] eqn:Hc.
    - unfold subscriber. cbn [channelSubscribers].
      intros Hm. apply (foldl_drop_mem ws _ _ key ws) in Hm as [Hm Hn].
      apply Hn. split; [done|]. apply elem_of_elements.
      apply Hiff in Hm as (S & HS & Hin). by simplify_eq.
    - intros Hm. apply Hiff in Hm as (S & HS & _). by simplify_eq. }
  split; [|split; [done|split]].
  - destruct (clients (run evs) !! ws) eqn:Hc; [|done]. apply lookup_delete_eq.
  - intros env' channel d now msg ok. apply broadcast_not_subscribed, Hnot.
  - intros w key Hw. destruct (clients (run evs) !! ws) as [subscriptions|]; [|done].
    cbn [clients]. split; [by rewrite lookup_delete_ne|].
    unfold subscriber. cbn [channelSubscribers].
    split.
    + intros Hm. by apply (foldl_drop_mem ws _ _ key w) in Hm as [Hm _].
    + intros Hm. apply (foldl_drop_mem ws _ _ key w). split; [done|]. by intros [? _].
Qed.

Lemma next_ws_run evs :
  next_ws (run evs) = length (List.filter is_connection evs).
Proof.
  assert (H : ∀ s, next_ws (foldl step s evs)
                   = next_ws s + length (List.filter is_connection evs)).
  { induction evs as [|[env ev] evs IH]; intros s; cbn [foldl List.filter];
      [cbn; lia|].
    rewrite IH. unfold step. cbn [fst snd].
    destruct (handle_returns env ev s) as (s' & -> & Hn & _). cbn [snd].
    rewrite Hn. destruct (is_connection (env, ev)); cbn; lia. }
  apply H.
Qed.

(** X15.  [getStats] on any reachable state: the channels listed are exactly
    the keys some connected client is subscribed to, each listed once,
    [activeSubscriptions] is the number of those channels (not of
    subscriptions), and [connectedClients] is at most the number of
    connections accepted. *)
Theorem getStats_reachable evs :
  let s := run evs in
  let stats := getStats s in
  (∀ key, key ∈ channels stats ↔ ∃ ws, subscription s ws key)
  ∧ NoDup (channels stats)
  ∧ activeSubscriptions stats = length (channels stats)
  ∧ activeSubscriptions stats = getActiveSubscriptionsCount s
  ∧ connectedClients stats = getConnectedClientsCount s
  ∧ connectedClients stats ≤ length (List.filter is_connection evs).
Proof.
  cbv zeta. destruct (invariant_run evs) as [[Hiff Hne] Hfresh].
  unfold getStats. cbn [channels activeSubscriptions connectedClients].
  split; [|split; [|split; [|split; [|split]]]].
  - intros key. rewrite list_elem_of_fmap. split.
    + intros ([k S] & -> & Hin). apply elem_of_map_to_list in Hin. cbn.
      assert (∃ ws, ws ∈ S) as [ws Hws].
      { apply set_choose_L. by eapply Hne. }
      exists ws. apply Hiff. by exists S.
    + intros (ws & Hs). apply Hiff in Hs as (S & HS & _).
      exists (key, S). split; [done|]. by apply elem_of_map_to_list.
  - apply NoDup_fst_map_to_list.
  - by rewrite length_fmap, length_map_to_list.
  - done.
  - done.
  - rewrite <- next_ws_run. rewrite <- size_dom.
    rewrite <- (size_set_seq (C:=gset nat) 0 (next_ws (run evs))).
    apply subseteq_size. intros w Hw. apply elem_of_dom in Hw.
    apply elem_of_set_seq. split; [lia|]. cbn. by apply Hfresh.
Qed.
End Reachable.

End BroadcasterMoreProps.

(* ===================================================================== *)
(** * Further properties of the poller *)
(* ===================================================================== *)

Module PollerMoreProps.
Import MarketDataPoller PollerNotions PollerProps.
Local Open Scope nat_scope.

(** ** [stopAll] *)

Lemma stopAll_empty p :
  wellformed p →
  timers (stopAll p) = ∅ ∧ pollers (stopAll p) = ∅ ∧ activePolls (stopAll p) = ∅
  ∧ inflight (stopAll p) = inflight p ∧ published (stopAll p) = published p.
Proof.
  intros (H1 & _ & _). unfold stopAll.
  destruct (stopAll_loop p (pollers p)) as (_ & _ & _ & Hi & Hp & Ht).
  cbn. split; [|by rewrite Hi, Hp].
  apply map_empty. intros id.
  destruct (timers _ !! id) as [[t iv]|] eqn:E; [|done].
  apply Ht in E as [E Hm]. exfalso. apply (Hm (task_key t)). by eapply H1.
Qed.

(** With no timer set, an event that is not a start launches nothing: a
    tick in flight may settle, and nothing else changes the two lists. *)
Lemma idle_step p ev :
  timers p = ∅ → pollers p = ∅ → ¬ is_start ev →
  timers (step p ev) = ∅ ∧ pollers (step p ev) = ∅
  ∧ ∃ more, published (step p ev) = published p ++ more
            ∧ length more + length (inflight (step p ev)) ≤ length (inflight p).
Proof.
  intros Ht Hp Hev.
  assert (Hsame : timers p = ∅ ∧ pollers p = ∅
                  ∧ ∃ more, published p = published p ++ more
                            ∧ length more + length (inflight p) ≤ length (inflight p)).
  { split; [done|]. split; [done|]. exists []. by rewrite app_nil_r. }
  destruct ev as [s e i | s e | s i | s | | id | i c]; cbn [step].
  - by destruct Hev.
  - unfold stopPolling. by rewrite Hp, lookup_empty.
  - by destruct Hev.
  - unfold stopIVPolling. by rewrite Hp, lookup_empty.
  - unfold stopAll. rewrite Hp, map_fold_empty. cbn.
    split; [done|]. split; [done|]. exists []. by rewrite app_nil_r.
  - unfold timerFires. by rewrite Ht, lookup_empty.
  - unfold fetchSettles. destruct (inflight p !! i) as [t|] eqn:E; [|done].
    cbn. split; [done|]. split; [done|].
    assert (Hlen : length (delete i (inflight p)) < length (inflight p)).
    { rewrite length_delete by by eexists.
      apply lookup_lt_Some in E. lia. }
    destruct c.
    + exists [t]. split; [done|]. cbn. lia.
    + exists []. rewrite app_nil_r. split; [done|]. cbn. lia.
Qed.

Lemma idle_run evs : ∀ p,
  timers p = ∅ → pollers p = ∅ → Forall (fun ev => ¬ is_start ev) evs →
  timers (run_from p evs) = ∅
  ∧ ∃ more, published (run_from p evs) = published p ++ more
            ∧ length more + length (inflight (run_from p evs)) ≤ length (inflight p).
Proof.
  induction evs as [|ev evs IH]; intros p Ht Hp Hevs.
  - cbn. split; [done|]. exists []. by rewrite app_nil_r.
  - apply Forall_cons in Hevs as [Hev Hevs].
    destruct (idle_step p ev Ht Hp Hev) as (Ht' & Hp' & more1 & Hpub1 & Hlen1).
    destruct (IH (step p ev) Ht' Hp' Hevs) as (Ht'' & more2 & Hpub2 & Hlen2).
    cbn [run_from foldl]. fold (run_from (step p ev) evs).
    split; [done|]. exists (more1 ++ more2).
    rewrite Hpub2, Hpub1, (assoc_L (++)), length_app. split; [done|]. lia.
Qed.

(** X16.  [stopAll] on any reachable state clears every timer and empties both
    maps, so that [getActivePolls] lists nothing.  Until the next call of
    a start method no timer is set and no tick is launched: the only
    broadcasts still to come are those of ticks already in flight, at most
    one for each. *)
Theorem stopAll_stops_everything (history later : list event)
    (Hquiet : Forall (fun ev => ¬ is_start ev) later) :
  let stopped := stopAll (run history) in
  let p := run_from stopped later in
  timers stopped = ∅ ∧ pollers stopped = ∅ ∧ getActivePolls stopped = []
  ∧ inflight stopped = inflight (run history)
  ∧ published stopped = published (run history)
  ∧ timers p = ∅
  ∧ ∃ more, published p = published stopped ++ more
            ∧ length more + length (inflight p) ≤ length (inflight stopped).
Proof.
  cbv zeta.
  destruct (stopAll_empty (run history) (wellformed_run history))
    as (Ht & Hp & Ha & Hi & Hpub).
  split; [done|]. split; [done|].
  split; [unfold getActivePolls; by rewrite Ha, map_to_list_empty|].
  split; [done|]. split; [done|].
  by apply idle_run.
Qed.

Lemma stopAll_stops_everything_witness :
  let history := [StartPolling "NIFTY" "2025-11-28" None; StartIVPolling "NIFTY" None] in
  let stopped := stopAll (run history) in
  let p := run_from stopped [TimerFires 0; TimerFires 1; FetchSettles 0 true] in
  timers p = ∅
  ∧ ∃ more, published p = published stopped ++ more
            ∧ length more + length (inflight p) ≤ length (inflight stopped).
Proof.
  intros history stopped p.
  refine (let H := stopAll_stops_everything history
                     [TimerFires 0; TimerFires 1; FetchSettles 0 true] _ in _).
  - exact (proj2 (proj2 (proj2 (proj2 (proj2 H))))).
  Unshelve. repeat constructor; by intros [].
Defined.

(** ** Keys and channels *)

Lemma length_append (s t : string) :
  String.length (s +:+ t) = String.length s + String.length t.
Proof. induction s as [|c s IH]; simpl; [done|]. by rewrite IH. Qed.

Lemma append_inj_r (s s' t : string) : s +:+ t = s' +:+ t → s = s'.
Proof.
  revert s'. induction s as [|c s IH]; intros [|c' s'] H;
    pose proof (f_equal String.length H) as HL;
    rewrite !length_append in HL; cbn in HL; try lia.
  - done.
  - cbn in H. injection H as -> H. f_equal. by apply IH.
Qed.

Lemma chainKey_inj symbol symbol' expiry :
  chainKey symbol expiry = chainKey symbol' expiry → symbol = symbol'.
Proof. unfold chainKey. apply append_inj_r. Qed.

Lemma stopPolling_fields p symbol expiry :
  next_timer (stopPolling symbol expiry p) = next_timer p
  ∧ ∀ id, id ≠ default (next_timer p) (pollers p !! chainKey symbol expiry) →
          timers (stopPolling symbol expiry p) !! id = timers p !! id.
Proof.
  unfold stopPolling. destruct (pollers p !! chainKey symbol expiry) as [old|]; cbn.
  - split; [done|]. intros id Hid. by rewrite lookup_delete_ne.
  - done.
Qed.

Lemma startPolling_fields p symbol expiry interval :
  let p' := startPolling symbol expiry interval p in
  next_timer p' = S (next_timer p)
  ∧ timers p' = <[next_timer p := (ChainTick symbol expiry, default 5000%Z interval)]>
                  (timers (stopPolling symbol expiry p))
  ∧ pollers p' = <[chainKey symbol expiry := next_timer p]>
                   (pollers (stopPolling symbol expiry p)).
Proof.
  destruct (stopPolling_fields p symbol expiry) as [Hn _].
  unfold startPolling, setInterval, launch. cbn. by rewrite Hn.
Qed.

(** X17.  One timer per key is not one timer per channel.  The key of a poller
    is built from the symbol as given, the channel it broadcasts on (and
    the cache key it stores under) from the upper-cased symbol: two starts
    whose symbols differ only in letter case leave two timers running,
    both broadcasting on the same channel. *)
Theorem case_variants_share_channel (history : list event)
    (symbol symbol' expiry : string) (interval interval' : option Z) :
  symbol ≠ symbol' → toUpperCase symbol = toUpperCase symbol' →
  let p := startPolling symbol' expiry interval'
             (startPolling symbol expiry interval (run history)) in
  ∃ t t', t ≠ t'
    ∧ timers p !! t = Some (ChainTick symbol expiry, default 5000%Z interval)
    ∧ timers p !! t' = Some (ChainTick symbol' expiry, default 5000%Z interval')
    ∧ channel_of (ChainTick symbol expiry) = channel_of (ChainTick symbol' expiry).
Proof.
  intros Hne Hup. cbv zeta.
  set (p0 := run history).
  set (p1 := startPolling symbol expiry interval p0).
  destruct (startPolling_fields p0 symbol expiry interval) as (Hn1 & Ht1 & Hp1).
  destruct (startPolling_fields p1 symbol' expiry interval') as (Hn2 & Ht2 & Hp2).
  fold p1 in Hn1, Ht1, Hp1.
  exists (next_timer p0), (next_timer p1).
  split; [rewrite Hn1; lia|]. split; [|split].
  - rewrite Ht2, lookup_insert_ne by (rewrite Hn1; lia).
    destruct (stopPolling_fields p1 symbol' expiry) as [_ Hkeep].
    rewrite Hkeep; [by rewrite Ht1, lookup_insert_eq|].
    destruct (pollers p1 !! chainKey symbol' expiry) as [old|] eqn:Hold;
      [change (next_timer p0 ≠ old) | change (next_timer p0 ≠ next_timer p1); lia].
    intros <-.
    rewrite Hp1, lookup_insert_ne in Hold by (intros Heq; by apply chainKey_inj in Heq).
    destruct (wellformed_stopPolling p0 symbol expiry (wellformed_run history))
      as (_ & H2 & H3).
    destruct (H2 _ _ Hold) as (t & iv & Hin & _).
    assert (next_timer p0 < next_timer (stopPolling symbol expiry p0))
      by (apply H3; by rewrite Hin).
    destruct (stopPolling_fields p0 symbol expiry) as [Hn0 _]. lia.
  - by rewrite Ht2, lookup_insert_eq.
  - cbn. by rewrite Hup.
Qed.

Lemma case_variants_share_channel_witness :
  let p := startPolling "NIFTY" "2025-11-28" None
             (startPolling "nifty" "2025-11-28" None (run [])) in
  ∃ t t', t ≠ t'
    ∧ timers p !! t = Some (ChainTick "nifty" "2025-11-28", 5000%Z)
    ∧ timers p !! t' = Some (ChainTick "NIFTY" "2025-11-28", 5000%Z)
    ∧ channel_of (ChainTick "nifty" "2025-11-28")
      = channel_of (ChainTick "NIFTY" "2025-11-28").
Proof.
  apply (case_variants_share_channel [] "nifty" "NIFTY" "2025-11-28" None None);
    by vm_compute.
Defined.

Lemma toUpperCase_idemp (s : string) : toUpperCase (toUpperCase s) = toUpperCase s.
Proof.
  induction s as [|c s IH]; cbn [toUpperCase]; [done|]. rewrite IH. f_equal.
  destruct c as [[] [] [] [] [] [] [] []]; by vm_compute.
Qed.

(** X18.  The channel of a chain tick is the key under which a client that
    subscribes to ["option-chain"] with the upper-cased symbol and the
    expiry is registered, both being non-empty; upper-casing twice changes
    nothing. *)
Theorem chain_channel_is_subscription_key (symbol expiry : string) :
  symbol ≠ EmptyString → expiry ≠ EmptyString →
  WebSocketService.subscriptionKey "option-chain"
    (Some (toUpperCase symbol)) (Some expiry)
  = channel_of (ChainTick symbol expiry)
  ∧ channel_of (ChainTick (toUpperCase symbol) expiry)
    = channel_of (ChainTick symbol expiry).
Proof.
  intros Hs He. split; [|cbn; by rewrite toUpperCase_idemp].
  unfold WebSocketService.subscriptionKey, WebSocketService.appendPart.
  assert (Hu : String.eqb (toUpperCase symbol) EmptyString = false).
  { destruct symbol; [done|]. reflexivity. }
  assert (He' : String.eqb expiry EmptyString = false) by (by destruct expiry).
  rewrite Hu, He'. reflexivity.
Qed.

Lemma chain_channel_is_subscription_key_witness :
  WebSocketService.subscriptionKey "option-chain" (Some "NIFTY") (Some "2025-11-28")
  = channel_of (ChainTick "nifty" "2025-11-28").
Proof.
  apply (proj1 (chain_channel_is_subscription_key "nifty" "2025-11-28"
                  ltac:(done) ltac:(done))).
Defined.

End PollerMoreProps.

(* ===================================================================== *)
(** * The IV tick and the mock chain *)
(* ===================================================================== *)

Module IVTickProps.
Import Num NumProps RedisCache IVTick CacheProps CacheMoreProps.
Local Open Scope Q_scope.

(** ** Rounding to two places and the sign *)

Lemma toFixed2_above x (k : Z) :
  0 <= x →
  (inject_Z k < toFixed 2 x * 100 ↔ inject_Z k + (1 # 2) <= x * 100).
Proof.
  intros Hx. destruct (toFixed2_spec x Hx) as (-> & _ & _).
  pose proof (Qfloor_le (x * 100 + (1 # 2))) as Hlo.
  pose proof (Qlt_floor (x * 100 + (1 # 2))) as Hhi.
  rewrite inject_Z_plus in Hhi. change (inject_Z 1) with 1 in Hhi.
  set (n := Qfloor (x * 100 + (1 # 2))) in *.
  assert (He : inject_Z n / 100 * 100 == inject_Z n) by field.
  rewrite He. split.
  - intros Hk. rewrite <- Zlt_Qlt in Hk.
    assert (Hk1 : (k + 1 <= n)%Z) by lia.
    rewrite Zle_Qle, inject_Z_plus in Hk1. change (inject_Z 1) with 1 in Hk1.
    lra.
  - intros H.
    assert (Hk : inject_Z k < inject_Z n + 1) by lra.
    assert (Hk1 : (k < n + 1)%Z).
    { rewrite Zlt_Qlt, inject_Z_plus. exact Hk. }
    assert (Hk2 : (k < n)%Z ∨ k = n) by lia.
    destruct Hk2 as [Hk2 | ->]; [by rewrite <- Zlt_Qlt | exfalso; lra].
Qed.

Lemma toFixed2_opp x : x < 0 → toFixed 2 x == - toFixed 2 (- x).
Proof.
  intros Hx. unfold toFixed.
  apply Qltb_lt in Hx as Hs. rewrite Hs.
  assert (Hs' : Qltb (- x) 0 = false) by (apply Qltb_ge; apply Qltb_lt in Hs; lra).
  rewrite Hs'.
  assert (Ha : Qabs (- x) * inject_Z (10 ^ Z.of_nat 2) + (1 # 2)
               == Qabs x * inject_Z (10 ^ Z.of_nat 2) + (1 # 2))
    by (by rewrite Qabs_opp).
  by rewrite (Qfloor_comp _ _ Ha).
Qed.

Lemma toFixed2_pos_iff x : 0 < toFixed 2 x ↔ (1 # 200) <= x.
Proof.
  destruct (Qlt_le_dec x 0) as [Hneg|Hpos].
  - rewrite toFixed2_opp by done.
    pose proof (toFixed2_nonneg (- x) ltac:(lra)). split; intros; lra.
  - pose proof (toFixed2_above x 0 Hpos) as [Ha Hb].
    change (inject_Z 0) with 0 in Ha, Hb.
    split; intros H'.
    + assert (H0 : 0 < toFixed 2 x * 100) by lra. apply Ha in H0. lra.
    + assert (H0 : 0 + (1 # 2) <= x * 100) by lra. apply Hb in H0. lra.
Qed.

Lemma toFixed2_gt1_iff x : 1 < toFixed 2 x ↔ (201 # 200) <= x.
Proof.
  destruct (Qlt_le_dec x 0) as [Hneg|Hpos].
  - rewrite toFixed2_opp by done.
    pose proof (toFixed2_nonneg (- x) ltac:(lra)). split; intros; lra.
  - pose proof (toFixed2_above x 100 Hpos) as [Ha Hb].
    change (inject_Z 100) with 100 in Ha, Hb.
    split; intros H'.
    + assert (H0 : 100 < toFixed 2 x * 100) by lra. apply Ha in H0. lra.
    + assert (H0 : 100 + (1 # 2) <= x * 100) by lra. apply Hb in H0. lra.
Qed.

Lemma toFixed2_neg_iff x : toFixed 2 x < 0 ↔ x <= - (1 # 200).
Proof.
  destruct (Qlt_le_dec x 0) as [Hneg|Hpos].
  - rewrite toFixed2_opp by done.
    pose proof (toFixed2_pos_iff (- x)) as H. split; intros H'.
    + assert ((1 # 200) <= - x) by (apply H; lra). lra.
    + assert (0 < toFixed 2 (- x)) by (apply H; lra). lra.
  - pose proof (toFixed2_nonneg x Hpos). split; intros; lra.
Qed.

Lemma trendOf_spec (currentIV previousIV : Q) :
  let d := currentIV - previousIV in
  let '(ivChange, trend, trendColor) := trendOf currentIV previousIV in
  ivChange = toFixed 2 d
  ∧ (trend = Up ↔ (1 # 200) <= d)
  ∧ (trend = Down ↔ d <= - (1 # 200))
  ∧ (trend = Flat ↔ - (1 # 200) < d ∧ d < (1 # 200))
  ∧ (trend = Flat → ivChange == 0)
  ∧ (trendColor = "#f44336"%string ↔ (201 # 200) <= d)
  ∧ (trendColor = "#ff9800"%string ↔ (1 # 200) <= d ∧ d < (201 # 200))
  ∧ (trendColor = "#4caf50"%string ↔ trend = Down)
  ∧ (trendColor = "#999"%string ↔ trend = Flat).
Proof.
  cbv zeta. unfold trendOf.
  pose proof (toFixed2_pos_iff (currentIV - previousIV)) as Hpos.
  pose proof (toFixed2_neg_iff (currentIV - previousIV)) as Hneg.
  pose proof (toFixed2_gt1_iff (currentIV - previousIV)) as Hone.
  set (d := currentIV - previousIV) in *. set (c := toFixed 2 d) in *.
  destruct (Qltb 0 c) eqn:E1.
  - apply Qltb_lt in E1. apply Hpos in E1 as Hd.
    destruct (Qltb 1 c) eqn:E2.
    + apply Qltb_lt in E2. apply Hone in E2 as Hd1.
      repeat split; try done; try (intros; lra); try (intros [? ?]; lra).
    + apply Qltb_ge in E2.
      assert (d < 201 # 200).
      { destruct (Qlt_le_dec d (201 # 200)) as [|Hge]; [done|].
        apply Hone in Hge. lra. }
      repeat split; try done; try (intros; lra); try (intros [? ?]; lra).
  - apply Qltb_ge in E1.
    assert (d < 1 # 200).
    { destruct (Qlt_le_dec d (1 # 200)) as [|Hge]; [done|]. apply Hpos in Hge. lra. }
    destruct (Qltb c 0) eqn:E2.
    + apply Qltb_lt in E2. apply Hneg in E2 as Hd.
      repeat split; try done; try (intros; lra); try (intros [? ?]; lra).
    + apply Qltb_ge in E2.
      assert (- (1 # 200) < d).
      { destruct (Qlt_le_dec (- (1 # 200)) d) as [|Hge]; [done|].
        apply Hneg in Hge. lra. }
      repeat split; try done; try (intros; lra); try (intros [? ?]; lra).
Qed.

(** X20.  The arrow of the IV payload, in exact arithmetic: up exactly when the
    IV rose by at least 0.005, down exactly when it fell by at least
    0.005, flat (with a change of 0) in between; the up arrow is red
    exactly from a rise of 1.005 and orange below, the down arrow always
    green. *)
Theorem trendOf_cases (currentIV previousIV : Q) :
  let d := currentIV - previousIV in
  let '(ivChange, trend, trendColor) := trendOf currentIV previousIV in
  ivChange = toFixed 2 d
  ∧ (trend = Up ↔ (1 # 200) <= d)
  ∧ (trend = Down ↔ d <= - (1 # 200))
  ∧ (trend = Flat ↔ - (1 # 200) < d ∧ d < (1 # 200))
  ∧ (trend = Flat → ivChange == 0)
  ∧ (trendColor = "#f44336"%string ↔ (201 # 200) <= d)
  ∧ (trendColor = "#ff9800"%string ↔ (1 # 200) <= d ∧ d < (201 # 200))
  ∧ (trendColor = "#4caf50"%string ↔ trend = Down)
  ∧ (trendColor = "#999"%string ↔ trend = Flat).
Proof. exact (trendOf_spec currentIV previousIV). Qed.

Lemma trendOf_same v : (trendOf v v).1.2 = Flat ∧ (trendOf v v).1.1 == 0.
Proof.
  pose proof (trendOf_spec v v) as H. cbv zeta in H.
  destruct (trendOf v v) as [[c t] col]. cbn.
  destruct H as (_ & _ & _ & Hflat & Hz & _).
  assert (t = Flat) by (apply Hflat; split; lra). auto.
Qed.

Lemma truthy_nonzero v : ¬ v == 0 → truthy (Some v) = Some v.
Proof. intros H. unfold truthy. by apply Qeq_bool_false in H as ->. Qed.

(** ** The tick *)

(** X21.  Two successive IV ticks with live data [v1] and [v2].  The tick reads
    the latest cached value before it stores its own, so with a ready
    cache (and less than a TTL between the ticks) the second tick reports
    the first tick's value as previous and the rounded difference as
    change.  With a cache that is not ready every tick compares the value
    with itself: the arrow is always flat and the change 0. *)
Theorem iv_tick_previous (symbol : string) (v1 v2 : Q) (t1 t2 : Z) (r : Redis Q) :
  ¬ v1 == 0 → ¬ v2 == 0 →
  let '(b1, r1) := fetchAndBroadcastIV symbol (Answers (Some v1)) t1 r in
  let '(b2, r2) := fetchAndBroadcastIV symbol (Answers (Some v2)) t2 r1 in
  iv_source b1 = "dhan"%string ∧ iv_source b2 = "dhan"%string
  ∧ iv_currentIV b2 = toFixed 2 v2
  ∧ (status r = Ready → (t2 < t1 + TTL_MS)%Z →
       iv_previousIV b2 = toFixed 2 v1 ∧ iv_ivChange b2 = toFixed 2 (v2 - v1))
  ∧ (status r ≠ Ready →
       r2 = r ∧ iv_trend b1 = Flat ∧ iv_trend b2 = Flat
       ∧ iv_ivChange b1 == 0 ∧ iv_ivChange b2 == 0).
Proof.
  intros H1 H2. unfold fetchAndBroadcastIV. cbv beta iota zeta.
  rewrite !truthy_nonzero by done.
  set (key := ("iv_" +:+ MarketDataPoller.toUpperCase symbol)%string).
  set (p1 := match truthy (getLatest key "iv" t1 r) with Some iv => iv | None => v1 end).
  pose proof (trendOf_spec v1 p1) as Hc1. cbv zeta in Hc1.
  destruct (trendOf v1 p1) as [[c1 tr1] col1] eqn:E1.
  set (r1 := store key "iv" v1 t1 r).
  set (p2 := match truthy (getLatest key "iv" t2 r1) with Some iv => iv | None => v2 end).
  pose proof (trendOf_spec v2 p2) as Hc2. cbv zeta in Hc2.
  destruct (trendOf v2 p2) as [[c2 tr2] col2] eqn:E2.
  cbn [iv_source iv_currentIV iv_previousIV iv_ivChange iv_trend].
  split; [done|]. split; [done|]. split; [done|]. split.
  - intros Hr Ht.
    assert (Hp2 : p2 = v1).
    { unfold p2, r1.
      rewrite redis_getLatest_getAll by by rewrite redis_status_store.
      rewrite redis_getAll_store, pushed_slice, last_slice, last_snoc by done.
      change (match truthy (Some v1) with Some iv => iv | None => v2 end = v1).
      by rewrite truthy_nonzero. }
    rewrite Hp2 in *. by destruct Hc2 as (-> & _).
  - intros Hr.
    assert (Hr1 : r1 = r) by (by apply redis_store_not_ready).
    assert (Hg : ∀ t, getLatest key "iv" t r = None).
    { intros t. unfold getLatest. by destruct (status r). }
    assert (Hp1 : p1 = v1) by (unfold p1; by rewrite Hg).
    assert (Hp2 : p2 = v2) by (unfold p2; by rewrite Hr1, Hg).
    rewrite Hp1 in E1. rewrite Hp2 in E2.
    destruct (trendOf_same v1) as [Ha Hb]. destruct (trendOf_same v2) as [Hc Hd].
    rewrite E1 in Ha, Hb. rewrite E2 in Hc, Hd. cbn in Ha, Hb, Hc, Hd.
    split; [|done]. rewrite Hr1. by apply redis_store_not_ready.
Qed.

Lemma iv_tick_previous_witness :
  let r := mkRedis Ready ∅ in
  let '(b1, r1) := fetchAndBroadcastIV "nifty" (Answers (Some (155 # 10))) 0 r in
  let '(b2, r2) := fetchAndBroadcastIV "nifty" (Answers (Some (161 # 10))) 10000 r1 in
  iv_previousIV b2 = toFixed 2 (155 # 10)
  ∧ iv_ivChange b2 = toFixed 2 ((161 # 10) - (155 # 10)).
Proof.
  intros r.
  pose proof (iv_tick_previous "nifty" (155 # 10) (161 # 10) 0 10000 r
                ltac:(by vm_compute) ltac:(by vm_compute)) as H.
  destruct (fetchAndBroadcastIV "nifty" (Answers (Some (155 # 10))) 0 r) as [b1 r1].
  destruct (fetchAndBroadcastIV "nifty" (Answers (Some (161 # 10))) 10000 r1) as [b2 r2].
  apply H; [reflexivity | by vm_compute].
Defined.

(** X22.  The payloads sent without live data.  When the IV request throws, the
    mock value is compared with 98% of itself: for every symbol the arrow
    is up and orange, and the cache is not touched.  When the request
    answers without a usable [ltp] (missing, or 0), an IV of 0 with a flat
    arrow is sent, marked as mock data. *)
Theorem iv_fallback_payloads (symbol : string) (now : Z) (r : Redis Q) :
  (let '(b, r') := fetchAndBroadcastIV symbol Throws now r in
   iv_trend b = Up ∧ iv_trendColor b = "#ff9800"%string
   ∧ iv_source b = "mock"%string ∧ r' = r)
  ∧ (∀ ltp, truthy ltp = None →
       let '(b, r') := fetchAndBroadcastIV symbol (Answers ltp) now r in
       iv_currentIV b == 0 ∧ iv_previousIV b == 0 ∧ iv_ivChange b == 0
       ∧ iv_trend b = Flat ∧ iv_trendColor b = "#999"%string
       ∧ iv_source b = "mock"%string ∧ r' = r).
Proof.
  split.
  - unfold fetchAndBroadcastIV, mockIVDEX.
    generalize (MarketDataPoller.toUpperCase symbol). intros u.
    repeat (match goal with
            | |- context [String.eqb u ?s] => destruct (String.eqb u s)
            end); by vm_compute.
  - intros ltp Hl. unfold fetchAndBroadcastIV. rewrite Hl. by vm_compute.
Qed.

Lemma iv_fallback_payloads_witness :
  let '(b, r') := fetchAndBroadcastIV "NIFTY" (Answers (Some 0)) 0 (mkRedis Ready ∅) in
  iv_trend b = Flat ∧ iv_source b = "mock"%string.
Proof.
  pose proof (proj2 (iv_fallback_payloads "NIFTY" 0 (mkRedis Ready ∅))
                (Some 0) ltac:(reflexivity)) as H.
  destruct (fetchAndBroadcastIV "NIFTY" (Answers (Some 0)) 0 (mkRedis Ready ∅))
    as [b r'].
  destruct H as (_ & _ & _ & Ht & _ & Hs & _). by split.
Defined.

End IVTickProps.

Module MockDataProps.
Import Num OptionChainUtils MockData.
Local Open Scope Q_scope.

(** X23.  The mock chain used when the option-chain request throws, for the
    upper-cased symbol the caller passes: 31 strikes, 50 apart, centred on
    the spot price.  The strike window keeps all of them and the ATM
    strike is the spot price itself. *)
Theorem mock_chain_window (symbol : string) (random : Z → StrikeData) :
  let '(spotPrice, strikes) :=
    generateMockData (MarketDataPoller.toUpperCase symbol) random in
  strikePrice <$> strikes = (fun i => spotPrice + inject_Z i * 50) <$> seqZ (-15) 31
  ∧ filterStrikeRange strikes spotPrice = strikes
  ∧ findATMStrike strikes spotPrice == spotPrice.
Proof.
  unfold generateMockData, mockSpotPrices.
  generalize (MarketDataPoller.toUpperCase symbol). intros u.
  repeat (match goal with
          | |- context [String.eqb u ?s] => destruct (String.eqb u s)
          end); by vm_compute.
Qed.

End MockDataProps.

(* ===================================================================== *)
(** * Further properties of the pricing code *)
(* ===================================================================== *)

Module GreeksProps.
Import BlackScholes Greeks BlackScholesProps.
Local Open Scope R_scope.

(** The polynomial part of [normalCDF] at a [t] between 0 and 1. *)
Lemma poly_bounds t :
  0 <= t <= 1 →
  0 <= 0.3193815 +
       t * (-0.3565638 + t * (1.781478 + t * (-1.821256 + t * 1.330274)))
    <= 2.2.
Proof.
  intros [H0 H1].
  set (q := 1.781478 + t * (-1.821256 + t * 1.330274)).
  assert (Hq : 1.1 <= q <= 1.8).
  { unfold q. split.
    - pose proof (pow2_ge_0 (t - 0.6845)) as Hs. Lra.nra.
    - Lra.nra. }
  assert (Ht2 : 0 <= t * t <= 1) by Lra.nra.
  replace (0.3193815 + t * (-0.3565638 + t * q))
    with (0.3193815 - 0.3565638 * t + (t * t) * q) by Lra.lra.
  split.
  - assert (1.1 * (t * t) <= t * t * q) by Lra.nra.
    pose proof (pow2_ge_0 (t - 0.162)) as Hs. Lra.nra.
  - assert (t * t * q <= 1.8) by Lra.nra. Lra.nra.
Qed.

Lemma probability_bounds x :
  let t := 1 / (1 + 0.2316419 * Rabs x) in
  let d := 0.3989423 * exp (- x * x / 2) in
  0 <= d * t *
       (0.3193815 +
        t * (-0.3565638 + t * (1.781478 + t * (-1.821256 + t * 1.330274))))
    <= 1.
Proof.
  intros t d.
  assert (Ht : 0 < t <= 1).
  { pose proof (Rabs_pos x) as Ha. unfold t, Rdiv. rewrite Rmult_1_l.
    set (den := 1 + 0.2316419 * Rabs x).
    assert (Hden : 1 <= den) by (unfold den; Lra.lra).
    assert (Hinv : 0 < / den) by (apply Rinv_0_lt_compat; Lra.lra).
    split; [done|].
    rewrite <- Rinv_1. apply Rinv_le_contravar; Lra.lra. }
  assert (Hd : 0 < d <= 0.3989423).
  { unfold d. pose proof (exp_pos (- x * x / 2)) as He.
    assert (Hle : exp (- x * x / 2) <= 1).
    { rewrite <- exp_0. apply exp_le_mono. pose proof (pow2_ge_0 x). Lra.nra. }
    split; Lra.nra. }
  pose proof (poly_bounds t ltac:(Lra.lra)) as Hp.
  set (poly := 0.3193815 +
               t * (-0.3565638 + t * (1.781478 + t * (-1.821256 + t * 1.330274)))) in *.
  assert (Hdt : 0 <= d * t <= 0.3989423) by Lra.nra.
  split; Lra.nra.
Qed.

Lemma normalCDF_spec (x : R) :
  0 <= normalCDF x <= 1
  ∧ (x ≠ 0 → normalCDF x + normalCDF (- x) = 1).
Proof.
  split.
  - pose proof (probability_bounds x) as H. cbv zeta in H.
    unfold normalCDF. destruct (Rlt_dec 0 x); Lra.lra.
  - intros Hx. unfold normalCDF. rewrite Rabs_Ropp.
    replace (- - x * - x / 2) with (- x * x / 2) by Lra.lra.
    destruct (Rlt_dec 0 x), (Rlt_dec 0 (- x)); Lra.lra.
Qed.

(** X24.  The approximation of the normal distribution stays a probability, and
    away from 0 the values at [x] and [-x] add up to 1. *)
Theorem normalCDF_probability (x : R) :
  0 <= normalCDF x <= 1
  ∧ (x ≠ 0 → normalCDF x + normalCDF (- x) = 1).
Proof. exact (normalCDF_spec x). Qed.

Lemma normalCDF_probability_witness : normalCDF 1 + normalCDF (- 1) = 1.
Proof. apply (proj2 (normalCDF_probability 1)). Lra.lra. Defined.

(** X25.  Put-call parity holds exactly for the approximated prices whenever
    neither [d1] nor [d2] is 0: call minus put is the spot price minus the
    discounted strike. *)
Theorem put_call_parity (S K T vol r : R) :
  let d1 := d1_of S K T vol r in
  let d2 := d1 - vol * sqrt T in
  d1 ≠ 0 → d2 ≠ 0 →
  blackScholes S K T vol r call - blackScholes S K T vol r put
  = S - K * exp (- r * T).
Proof.
  intros d1 d2 H1 H2. unfold blackScholes. fold d1. fold d2.
  pose proof (proj2 (normalCDF_spec d1) H1) as E1.
  pose proof (proj2 (normalCDF_spec d2) H2) as E2.
  Lra.nra.
Qed.

Lemma put_call_parity_witness :
  blackScholes 1 1 1 1 1 call - blackScholes 1 1 1 1 1 put = 1 - 1 * exp (- 1 * 1).
Proof.
  assert (Hd : d1_of 1 1 1 1 1 = 3 / 2).
  { unfold d1_of. replace (1 / 1) with 1 by Lra.lra.
    rewrite ln_1, sqrt_1. Lra.lra. }
  apply put_call_parity; rewrite Hd, ?sqrt_1; Lra.lra.
Defined.

(** The delta of a call lies between 0 and 1, that of a put between -1
    and 0, and the two differ by exactly 1. *)
Theorem calculateDelta_range (S K T vol r : R) :
  0 <= calculateDelta S K T vol r call <= 1
  ∧ -1 <= calculateDelta S K T vol r put <= 0
  ∧ calculateDelta S K T vol r call - calculateDelta S K T vol r put = 1.
Proof.
  unfold calculateDelta.
  pose proof (proj1 (normalCDF_spec (d1_of S K T vol r))) as H.
  repeat split; Lra.lra.
Qed.

Lemma impliedVolatility_range marketPrice S K T r kind :
  1 <= calculateImpliedVolatility marketPrice S K T r kind <= 500.
Proof.
  unfold calculateImpliedVolatility.
  pose proof (iterate_spec maxIterations marketPrice S K T r kind 0.3
                ltac:(Lra.lra)) as H.
  destruct (iterate _ _ _ _ _ _ _ _) as [exit v]. destruct H as [Hv _].
  apply toFixed2_range. Lra.lra.
Qed.

Lemma sum_bounds (l : list R) : ∀ acc,
  Forall (fun v => 1 <= v <= 500) l →
  acc + INR (length l) <= fold_left Rplus l acc <= acc + 500 * INR (length l).
Proof.
  induction l as [|v l IH]; intros acc Hl.
  - cbn. Lra.lra.
  - apply Forall_cons in Hl as [Hv Hl]. cbn [fold_left length].
    rewrite S_INR. specialize (IH (acc + v) Hl). Lra.lra.
Qed.



End GreeksProps.

(* ===================================================================== *)
(** * The poller as the routes drive it *)
(* ===================================================================== *)

Module RoutesProps.
Import MarketDataPoller PollerNotions PollerProps PollerMoreProps PollingRoutes.
Local Open Scope nat_scope.

Lemma serve_calls p rq : serve p rq = run_from p (calls rq).
Proof.
  destruct rq as [s e i | s e | | id | i c]; cbn; try done.
  - unfold pollingStart. by destruct (present s), (present e).
  - unfold pollingStop. by destruct (present s), (present e).
Qed.

Lemma calls_routed rq : Forall routed (calls rq).
Proof.
  destruct rq as [s e i | s e | | id | i c]; cbn; try by repeat constructor.
  - destruct (present s), (present e); repeat constructor.
    cbn. apply toUpperCase_idemp.
  - destruct (present s), (present e); by repeat constructor.
Qed.

Lemma served_run rqs : served rqs = run (concat (calls <$> rqs)).
Proof.
  unfold served, run. generalize init.
  induction rqs as [|rq rqs IH]; intros p; cbn [foldl fmap list_fmap concat]; [done|].
  rewrite IH, serve_calls. unfold run_from. by rewrite foldl_app.
Qed.

Lemma served_routed rqs : Forall routed (concat (calls <$> rqs)).
Proof.
  induction rqs as [|rq rqs IH]; cbn; [constructor|].
  apply Forall_app. split; [apply calls_routed | done].
Qed.

Lemma stopPolling_timers_sub p symbol expiry id x :
  timers (stopPolling symbol expiry p) !! id = Some x → timers p !! id = Some x.
Proof.
  unfold stopPolling. destruct (pollers p !! chainKey symbol expiry); cbn; [|done].
  by intros [_ ?]%lookup_delete_Some.
Qed.

Lemma routed_step p ev :
  routed ev →
  (∀ id t iv, timers p !! id = Some (t, iv) → upper_chain t) →
  ∀ id t iv, timers (step p ev) !! id = Some (t, iv) → upper_chain t.
Proof.
  intros Hev Hp id t iv.
  destruct ev as [s e i | s e | s i | s | | tid | i c]; cbn [step]; try by destruct Hev.
  - destruct (startPolling_fields p s e i) as (_ & -> & _).
    destruct (decide (id = next_timer p)) as [->|Hne].
    + rewrite lookup_insert_eq. by intros [= <- _].
    + rewrite lookup_insert_ne by done.
      intros H%stopPolling_timers_sub. by eapply Hp.
  - intros H%stopPolling_timers_sub. by eapply Hp.
  - unfold timerFires. destruct (timers p !! tid) as [[??]|]; cbn; apply Hp.
  - unfold fetchSettles. destruct (inflight p !! i); cbn; apply Hp.
Qed.

Lemma routed_run evs :
  Forall routed evs →
  ∀ id t iv, timers (run evs) !! id = Some (t, iv) → upper_chain t.
Proof.
  unfold run, run_from.
  assert (Hinit : ∀ id t iv, timers init !! id = Some (t, iv) → upper_chain t).
  { intros id t iv. cbn. by rewrite lookup_empty. }
  revert Hinit. generalize init.
  induction evs as [|ev evs IH]; intros p Hp Hevs; cbn [foldl]; [done|].
  apply Forall_cons in Hevs as [Hev Hevs].
  apply IH; [|done]. by apply routed_step.
Qed.

Lemma routed_chain ev : routed ev → chain_event ev.
Proof. by destruct ev. Qed.

Lemma upper_chain_channel t :
  upper_chain t → channel_of t = ("option-chain:" +:+ task_key t)%string.
Proof. destruct t as [s e|s]; [|done]. cbn. by intros ->. Qed.

(** X19.  A server driven through the three polling routes.  Whatever requests
    arrive and whatever the timers and fetches do in between:
    - every timer that is set runs a chain tick of an upper-cased symbol
      (no route starts an IV poller);
    - no two timers broadcast on the same channel;
    - the keys [GET /polling/status] lists are exactly the keys for which
      a timer is set, and [count] is their number;
    - a start without [interval] arms its timer with the route's default
      of 2000 ms, not the 5000 ms default of [startPolling];
    - a request without symbol or expiry changes nothing. *)
Theorem routes_keep_poller_consistent (rqs : list request) :
  let p := served rqs in
  (∀ id t iv, timers p !! id = Some (t, iv) → upper_chain t)
  ∧ (∀ id id' t t' iv iv',
       timers p !! id = Some (t, iv) → timers p !! id' = Some (t', iv') →
       channel_of t = channel_of t' → id = id')
  ∧ (∀ key, key ∈ getActivePolls p
            ↔ ∃ id t iv, timers p !! id = Some (t, iv) ∧ task_key t = key)
  ∧ (pollingStatus p).1 = Status (getActivePolls p) (length (getActivePolls p))
  ∧ (∀ symbol expiry,
       symbol ≠ EmptyString → expiry ≠ EmptyString →
       let '(response, p') := pollingStart (Some symbol) (Some expiry) None p in
       response = Started 2000
       ∧ ∃ id, pollers p' !! chainKey (toUpperCase symbol) expiry = Some id
               ∧ timers p' !! id = Some (ChainTick (toUpperCase symbol) expiry, 2000%Z))
  ∧ (∀ symbol expiry interval,
       present symbol = None ∨ present expiry = None →
       pollingStart symbol expiry interval p = (BadRequest, p)
       ∧ pollingStop symbol expiry p = (BadRequest, p)).
Proof.
  cbv zeta. rewrite served_run.
  pose proof (served_routed rqs) as Hr.
  set (evs := concat (calls <$> rqs)) in *.
  pose proof (routed_run evs Hr) as Hup.
  destruct (wellformed_run evs) as (H1 & H2 & H3).
  split; [done|]. split; [|split; [|split; [done|split]]].
  - intros id id' t t' iv iv' Ht Ht' Hch.
    rewrite !upper_chain_channel in Hch by by eapply Hup.
    apply (inj _) in Hch.
    apply H1 in Ht, Ht'. rewrite Hch in Ht. by simplify_eq.
  - intros key. rewrite chain_pollers_listed
      by (eapply Forall_impl; [done | apply routed_chain]).
    split.
    + intros [id Hid]. destruct (H2 _ _ Hid) as (t & iv & Ht & Hk). eauto.
    + intros (id & t & iv & Ht & <-). apply H1 in Ht. by eexists.
  - intros symbol expiry Hs He. unfold pollingStart, present.
    apply String.eqb_neq in Hs, He. rewrite Hs, He.
    change (default 2000%Z None) with 2000%Z.
    split; [done|].
    destruct (startPolling_fields (run evs) (toUpperCase symbol) expiry (Some 2000%Z))
      as (_ & -> & ->).
    eexists. split; [apply lookup_insert_eq|]. by rewrite lookup_insert_eq.
  - intros symbol expiry interval Hmiss. unfold pollingStart, pollingStop.
    destruct Hmiss as [-> | ->]; [done|]. by destruct (present symbol).
Qed.

Lemma routes_keep_poller_consistent_witness :
  let p := served [PostStart (Some "nifty") (Some "2025-11-28") None;
                   PostStart (Some "NIFTY") (Some "2025-11-28") (Some 1000%Z)] in
  (let '(response, p') := pollingStart (Some "BankNifty") (Some "2025-11-28") None p in
   response = Started 2000
   ∧ ∃ id, pollers p' !! chainKey (toUpperCase "BankNifty") "2025-11-28" = Some id
           ∧ timers p' !! id = Some (ChainTick (toUpperCase "BankNifty") "2025-11-28", 2000%Z))
  ∧ pollingStart (Some "NIFTY") None None p = (BadRequest, p).
Proof.
  intros p.
  pose proof (routes_keep_poller_consistent
                [PostStart (Some "nifty") (Some "2025-11-28") None;
                 PostStart (Some "NIFTY") (Some "2025-11-28") (Some 1000%Z)]) as H.
  cbv zeta in H. destruct H as (_ & _ & _ & _ & Hstart & Hbad). split.
  - apply Hstart; by vm_compute.
  - apply Hbad. by right.
Defined.

End RoutesProps.

(* ===================================================================== *)
(** * The mood index *)
(* ===================================================================== *)

Module MoodProps.
Import Num NumProps MoodCalculator.
Local Open Scope Q_scope.

(** Rounding a non-negative number to one place. *)
Lemma toFixed1_spec x :
  0 <= x →
  toFixed 1 x = inject_Z (Qfloor (x * 10 + (1 # 2))) / 10
  ∧ x - (1 # 20) < toFixed 1 x ∧ toFixed 1 x <= x + (1 # 20).
Proof.
  intros Hx. unfold toFixed.
  apply Qltb_ge in Hx as Hs. rewrite Hs.
  change (inject_Z (10 ^ Z.of_nat 1)) with 10.
  assert (Ha : Qabs x * 10 + (1 # 2) == x * 10 + (1 # 2)) by (by rewrite Qabs_pos).
  rewrite (Qfloor_comp _ _ Ha).
  split; [done|].
  pose proof (Qfloor_le (x * 10 + (1 # 2))) as Hlo.
  pose proof (Qlt_floor (x * 10 + (1 # 2))) as Hhi.
  rewrite inject_Z_plus in Hhi. change (inject_Z 1) with 1 in Hhi.
  set (n := inject_Z (Qfloor (x * 10 + (1 # 2)))) in *.
  split.
  - apply Qlt_shift_div_l; [reflexivity|]. lra.
  - apply Qle_shift_div_r; [reflexivity|]. lra.
Qed.

Lemma toFixed1_range x : 0 <= x <= 100 → 0 <= toFixed 1 x <= 100.
Proof.
  intros [H0 H1]. destruct (toFixed1_spec x H0) as (-> & _ & _).
  split.
  - apply Qle_shift_div_l; [reflexivity|]. rewrite Qmult_0_l.
    change 0 with (inject_Z 0). rewrite <- Zle_Qle.
    change 0%Z with (Qfloor 0). apply Qfloor_resp_le. lra.
  - apply Qle_shift_div_r; [reflexivity|].
    change (100 * 10) with (inject_Z 1000). rewrite <- Zle_Qle.
    change 1000%Z with (Qfloor (inject_Z 1000 + (1 # 2))).
    apply Qfloor_resp_le. change (inject_Z 1000) with 1000. lra.
Qed.

Lemma tally_total (candles : list OHLCCandle) : ∀ b r n,
  let '(b', r', n') := foldl tally (b, r, n) candles in
  (b' + r' + n' = b + r + n + length candles)%nat.
Proof.
  induction candles as [|c candles IH]; intros b r n; cbn [foldl length]; [lia|].
  unfold tally at 2.
  destruct (classifyCandle c);
    [specialize (IH (S b) r n) | specialize (IH b (S r) n) | specialize (IH b r (S n))];
    destruct (foldl tally _ candles) as [[b' r'] n']; lia.
Qed.

Lemma percent_range n total : (n ≤ total)%nat → 0 <= percent n total <= 100.
Proof.
  intros Hn. unfold percent. destruct (0 <? total)%nat eqn:E; [|lra].
  apply Nat.ltb_lt in E.
  assert (Ht : 0 < inject_Z (Z.of_nat total)).
  { change 0 with (inject_Z 0). rewrite <- Zlt_Qlt. lia. }
  assert (Hn0 : 0 <= inject_Z (Z.of_nat n)).
  { change 0 with (inject_Z 0). rewrite <- Zle_Qle. lia. }
  assert (Hnt : inject_Z (Z.of_nat n) <= inject_Z (Z.of_nat total)).
  { rewrite <- Zle_Qle. lia. }
  set (a := inject_Z (Z.of_nat n)) in *. set (t := inject_Z (Z.of_nat total)) in *.
  assert (H0 : 0 <= a / t) by (apply Qle_shift_div_l; [done | lra]).
  assert (H1 : a / t <= 1) by (apply Qle_shift_div_r; [done | lra]).
  lra.
Qed.

Lemma percent_sum b r n :
  (0 < b + r + n)%nat →
  percent b (b + r + n) + percent r (b + r + n) + percent n (b + r + n) == 100.
Proof.
  intros Ht. unfold percent.
  replace (0 <? b + r + n)%nat with true by (symmetry; by apply Nat.ltb_lt).
  rewrite !Nat2Z.inj_add, !inject_Z_plus.
  assert (Hb : 0 <= inject_Z (Z.of_nat b))
    by (change 0 with (inject_Z 0); rewrite <- Zle_Qle; lia).
  assert (Hr : 0 <= inject_Z (Z.of_nat r))
    by (change 0 with (inject_Z 0); rewrite <- Zle_Qle; lia).
  assert (Hn : 0 <= inject_Z (Z.of_nat n))
    by (change 0 with (inject_Z 0); rewrite <- Zle_Qle; lia).
  assert (Hs : 0 < inject_Z (Z.of_nat b) + inject_Z (Z.of_nat r) + inject_Z (Z.of_nat n)).
  { rewrite <- !inject_Z_plus. change 0 with (inject_Z 0). rewrite <- Zlt_Qlt. lia. }
  field. lra.
Qed.

Lemma slice_neg_nonempty {A} (count : Z) (l : list A) :
  (1 <= count)%Z → l ≠ [] → slice_neg count l ≠ [].
Proof.
  intros Hc Hl. unfold slice_neg.
  replace (0 <? count)%Z with true by (symmetry; apply Z.ltb_lt; lia).
  intros H. apply (f_equal length) in H. rewrite length_drop in H. cbn in H.
  destruct l; [done|]. cbn in H. lia.
Qed.

Lemma rawMood_spec (svc : Service) (candles : list OHLCCandle)
    (now : Z) :
  (1 <= candleCount svc)%Z → candles ≠ [] →
  let m := calculateRawMood svc candles now in
  in_range m
  ∧ 100 - (3 # 20) <= bull m + bear m + neutral m
  ∧ bull m + bear m + neutral m <= 100 + (3 # 20).
Proof.
  intros Hc Hne. cbv zeta. unfold calculateRawMood.
  pose proof (slice_neg_nonempty _ _ Hc Hne) as Hrecent.
  pose proof (tally_total (slice_neg (candleCount svc) candles) 0 0 0) as Htot.
  destruct (foldl tally _ _) as [[b r] n].
  assert (Hpos : (0 < b + r + n)%nat).
  { rewrite Htot. destruct (slice_neg _ _); [done|]. cbn. lia. }
  pose proof (percent_range b (b + r + n) ltac:(lia)) as Hb.
  pose proof (percent_range r (b + r + n) ltac:(lia)) as Hr.
  pose proof (percent_range n (b + r + n) ltac:(lia)) as Hn.
  pose proof (percent_sum b r n Hpos) as Hsum.
  destruct (toFixed1_spec _ (proj1 Hb)) as (_ & Hb1 & Hb2).
  destruct (toFixed1_spec _ (proj1 Hr)) as (_ & Hr1 & Hr2).
  destruct (toFixed1_spec _ (proj1 Hn)) as (_ & Hn1 & Hn2).
  pose proof (toFixed1_range _ Hb) as Hb3.
  pose proof (toFixed1_range _ Hr) as Hr3.
  pose proof (toFixed1_range _ Hn) as Hn3.
  unfold in_range. cbn [bull bear neutral].
  repeat split; lra.
Qed.

(** X27.  The raw mood of a non-empty list of candles, with a candle count of at
    least 1: each figure is a percentage, and the three add up to 100 up
    to the rounding of each to one place, that is to within 0.15. *)
Theorem calculateRawMood_percentages (svc : Service) (candles : list OHLCCandle)
    (now : Z) :
  (1 <= candleCount svc)%Z → candles ≠ [] →
  let m := calculateRawMood svc candles now in
  in_range m
  ∧ 100 - (3 # 20) <= bull m + bear m + neutral m
  ∧ bull m + bear m + neutral m <= 100 + (3 # 20).
Proof. exact (rawMood_spec svc candles now). Qed.

Lemma calculateRawMood_percentages_witness :
  let candles := [mkCandle 10 12 9 11; mkCandle 11 12 9 10; mkCandle 10 11 9 10] in
  let m := calculateRawMood init candles 0 in
  in_range m
  ∧ 100 - (3 # 20) <= bull m + bear m + neutral m
  ∧ bull m + bear m + neutral m <= 100 + (3 # 20).
Proof.
  apply calculateRawMood_percentages; by vm_compute.
Defined.

Lemma convex_range alpha prev raw :
  0 <= alpha <= 1 → 0 <= prev <= 100 → 0 <= raw <= 100 →
  0 <= prev + alpha * (raw - prev) <= 100.
Proof. intros ???. split; nra. Qed.

Lemma calculateRawMood_in_range svc candles now :
  (1 <= candleCount svc)%Z → candles ≠ [] →
  in_range (calculateRawMood svc candles now).
Proof. intros Hc Hne. by apply rawMood_spec. Qed.

Lemma calculateMood_keeps_invariant svc candles useSmoothing now :
  invariant svc →
  in_range (calculateMood svc candles useSmoothing now).1
  ∧ invariant (calculateMood svc candles useSmoothing now).2.
Proof.
  intros (Ha & Hc & Hp). unfold calculateMood.
  destruct candles as [|c candles].
  { split; [|done]. unfold in_range. cbn. lra. }
  pose proof (calculateRawMood_in_range svc (c :: candles) now ltac:(lia) ltac:(done))
    as Hraw.
  set (raw := calculateRawMood svc (c :: candles) now) in *.
  destruct useSmoothing; [|done].
  unfold smoothMood. destruct (previousMood svc) as [prev|] eqn:E.
  - specialize (Hp prev eq_refl).
    destruct Hraw as (Hb & Hr & Hn). destruct Hp as (Hb' & Hr' & Hn').
    assert (Hm : in_range
      (mkMood (toFixed 1 (bull prev + smoothingFactor svc * (bull raw - bull prev)))
              (toFixed 1 (bear prev + smoothingFactor svc * (bear raw - bear prev)))
              (toFixed 1 (neutral prev + smoothingFactor svc * (neutral raw - neutral prev)))
              (m_timestamp raw))).
    { unfold in_range. cbn [bull bear neutral].
      pose proof (toFixed1_range _ (convex_range _ _ _ Ha Hb' Hb)).
      pose proof (toFixed1_range _ (convex_range _ _ _ Ha Hr' Hr)).
      pose proof (toFixed1_range _ (convex_range _ _ _ Ha Hn' Hn)).
      tauto. }
    cbn [fst snd]. split; [done|]. split; [done|]. split; [done|].
    cbn. by intros m [= <-].
  - cbn [fst snd]. split; [done|]. split; [done|]. split; [done|].
    cbn. by intros m [= <-].
Qed.

Lemma mood_invariant_step svc o : invariant svc → invariant (step svc o).
Proof.
  intros Hinv. destruct o as [candles sm now | count | factor |]; cbn [step].
  - by apply calculateMood_keeps_invariant.
  - destruct Hinv as (Ha & Hc & Hp). split; [done|]. split; [cbn; lia|done].
  - destruct Hinv as (Ha & Hc & Hp). split; [|done]. cbn.
    split; [apply Q.le_max_l|].
    apply Q.max_lub; [lra | apply Q.le_min_l].
  - destruct Hinv as (Ha & Hc & Hp). split; [done|]. split; [done|]. by cbn.
Qed.

Lemma mood_invariant_run ops : invariant (run ops).
Proof.
  unfold run.
  assert (Hinit : invariant init).
  { split; [cbn; lra|]. split; [cbn; lia|]. by cbn. }
  revert Hinit. generalize init.
  induction ops as [|o ops IH]; intros svc Hsvc; cbn [foldl]; [done|].
  by apply IH, mood_invariant_step.
Qed.


End MoodProps.

(* ===================================================================== *)
(** * The OI spurt detector *)
(* ===================================================================== *)

Module OISpurtProps.
Import Num NumProps OptionsPricing OISpurt.
Local Open Scope Q_scope.

Implicit Types (history : gmap (Z * bool) OIEntry) (item : OIData)
  (data : list OIData).

Lemma change_of_insert_ne history item item' e :
  key_of item ≠ key_of item' →
  change_of (<[key_of item := e]> history) item' = change_of history item'.
Proof. intros Hne. unfold change_of. by rewrite lookup_insert_ne. Qed.

(** One item: the division goes through, the key is updated, and the
    running maximum moves only on a change strictly above it and not
    below the threshold. *)
Lemma visit_spec threshold history maxSpurt maxPct item :
  threshold <= maxPct →
  (∀ h, history !! key_of item = Some h → ¬ current h == 0) →
  ∃ maxSpurt' maxPct',
    visit threshold (history, maxSpurt, maxPct) item
    = Some (<[key_of item :=
                mkOIEntry (openInterest item)
                  (match history !! key_of item with
                   | Some h => current h
                   | None => openInterest item
                   end) (oi_timestamp item)]> history,
            maxSpurt', maxPct')
    ∧ maxPct <= maxPct'
    ∧ (∀ c, change_of history item = Some c → c <= maxPct')
    ∧ ((maxSpurt' = maxSpurt ∧ maxPct' = maxPct)
       ∨ ∃ c, change_of history item = Some c ∧ maxPct < c ∧ maxPct' = c
              ∧ maxSpurt' = Some (alert_of item c)).
Proof.
  intros Hth Hnz. unfold visit, change_of. fold (key_of item).
  destruct (history !! key_of item) as [h|] eqn:E.
  - rewrite checked_div_nonzero by by apply Hnz. cbn [bind].
    set (c := (openInterest item - current h) / current h * 100).
    destruct (Qle_bool threshold c) eqn:E1.
    + destruct (Qltb maxPct c) eqn:E2.
      * apply Qltb_lt in E2. exists (Some (alert_of item c)), c.
        split; [done|]. split; [lra|]. split; [intros ? [= <-]; lra|].
        right. by exists c.
      * apply Qltb_ge in E2. exists maxSpurt, maxPct.
        split; [done|]. split; [lra|]. split; [by intros ? [= <-]|]. by left.
    + apply Qle_bool_gt in E1. exists maxSpurt, maxPct.
      split; [done|]. split; [lra|]. split; [intros ? [= <-]; lra|]. by left.
  - exists maxSpurt, maxPct. split; [done|]. split; [lra|]. split; [done|]. by left.
Qed.

Lemma visitAll_spec threshold data : ∀ history maxSpurt maxPct,
  threshold <= maxPct →
  NoDup (key_of <$> data) →
  comparable history data →
  ∃ history' maxSpurt' maxPct',
    visitAll threshold data (history, maxSpurt, maxPct)
    = Some (history', maxSpurt', maxPct')
    ∧ (∀ item, item ∈ data →
         history' !! key_of item
         = Some (mkOIEntry (openInterest item)
                   (match history !! key_of item with
                    | Some h => current h
                    | None => openInterest item
                    end) (oi_timestamp item)))
    ∧ (∀ k, k ∉ key_of <$> data → history' !! k = history !! k)
    ∧ maxPct <= maxPct'
    ∧ (∀ item c, item ∈ data → change_of history item = Some c → c <= maxPct')
    ∧ ((maxSpurt' = maxSpurt ∧ maxPct' = maxPct)
       ∨ ∃ item c, item ∈ data ∧ change_of history item = Some c ∧ maxPct < c
                   ∧ maxPct' = c ∧ maxSpurt' = Some (alert_of item c)).
Proof.
  induction data as [|item rest IH]; intros history maxSpurt maxPct Hth Hnd Hcmp.
  - exists history, maxSpurt, maxPct. split; [done|].
    split; [by intros ? ?%elem_of_nil|]. split; [done|]. split; [lra|].
    split; [by intros ?? ?%elem_of_nil|]. by left.
  - cbn [fmap list_fmap] in Hnd. apply NoDup_cons in Hnd as [Hnotin Hnd].
    destruct (visit_spec threshold history maxSpurt maxPct item Hth)
      as (ms1 & mp1 & Hv & Hle1 & Hc1 & Hcase1).
    { intros h Hh. eapply Hcmp; [left|done]. }
    set (history1 := <[key_of item := _]> history) in Hv.
    assert (Hother : ∀ item', item' ∈ rest → key_of item ≠ key_of item').
    { intros item' Hin Heq. apply Hnotin. rewrite Heq.
      apply list_elem_of_fmap. by exists item'. }
    destruct (IH history1 ms1 mp1) as (h' & ms' & mp' & Hrun & Hset & Hkeep & Hle & Hall & Hcase).
    { lra. }
    { done. }
    { intros item' h Hin Hh. unfold history1 in Hh.
      rewrite lookup_insert_ne in Hh by by apply Hother.
      eapply Hcmp; [by right|done]. }
    exists h', ms', mp'. cbn [visitAll]. rewrite Hv. cbn [bind].
    split; [done|]. split; [|split; [|split; [lra|split]]].
    + intros item' [->|Hin]%elem_of_cons.
      * rewrite Hkeep by done. unfold history1. by rewrite lookup_insert_eq.
      * rewrite (Hset _ Hin). unfold history1.
        by rewrite lookup_insert_ne by by apply Hother.
    + intros k Hk. cbn [fmap list_fmap] in Hk. apply not_elem_of_cons in Hk as [Hk1 Hk2].
      rewrite Hkeep by done. unfold history1. by rewrite lookup_insert_ne.
    + intros item' c [->|Hin]%elem_of_cons Hc.
      * specialize (Hc1 c Hc). lra.
      * apply (Hall item' c Hin). unfold history1.
        by rewrite change_of_insert_ne by by apply Hother.
    + destruct Hcase as [[-> ->] | (item' & c & Hin & Hc & Hlt & -> & ->)].
      * destruct Hcase1 as [[-> ->] | (c & Hc & Hlt & -> & ->)]; [by left|].
        right. exists item, c. split; [left|]. done.
      * right. exists item', c. split; [by right|].
        unfold history1 in Hc. rewrite change_of_insert_ne in Hc by by apply Hother.
        split; [done|]. split; [lra|]. done.
Qed.





End OISpurtProps.
